(** * YT-FA-ASR-Downloader: the resumable acquisition pipeline of
    [youtube_scraper.py], embedded in Rocq.

    The embedding follows [class YouTubeChannelScraper] function by
    function.  The SQLite ledger is a list of rows in rowid order plus a
    keyed progress table, the two artifact directories are a finite map
    and a listing of file sizes, and the two remote collaborators
    (scrapetube's generator and the [yt-dlp] subprocess) are an inductive
    stream and a scripted oracle.  Python exceptions are threaded through a
    small state-and-exception monad, because several properties hinge on
    which [except] clause catches what.

    Modelling decisions, stated once:
    - text is ASCII ([string]); [str.lower], [str.strip] and [int] are the
      ASCII fragments of their Python counterparts, and the interpreter's
      configurable limit on the digits of an [int] literal is left out;
    - storage is reliable: [sqlite3] calls do not fail, except for the one
      deterministic binding error of a [Path] object;
    - the artifact directories exist ([mkdir] succeeds) and no file vanishes
      between a listing and the [stat] that follows it;
    - a video id holds no glob metacharacter, so [glob(f"{video_id}.*")]
      is a prefix test;
    - file sizes are bytes; the code's [st_size / (1024 * 1024) > 1.0] is
      the integer test [1048576 < st_size] (the division by a power of two
      is exact);
    - logging is dropped; sleeping advances a millisecond clock, which
      nothing else advances;
    - metadata columns that no decision reads ([published_time], the view
      counts, [raw_data]) are left out of the row. *)

From stdpp Require Import gmap strings list fin_maps.
From Stdlib Require Import ZArith NArith Ascii String Sorting.Sorted Permutation.

Open Scope string_scope.

(* ===================================================================== *)
(** * Text primitives (the ASCII fragment of Python's [str]) *)
(* ===================================================================== *)

Module Text.

(** [str.isspace] on ASCII: TAB..CR, FS..US and the space. *)
Definition is_space (c : ascii) : bool :=
  let n := nat_of_ascii c in
  ((9 <=? n)%nat && (n <=? 13)%nat) || ((28 <=? n)%nat && (n <=? 32)%nat).

Definition is_digit (c : ascii) : bool :=
  let n := nat_of_ascii c in (48 <=? n)%nat && (n <=? 57)%nat.

Definition digit_value (c : ascii) : Z := Z.of_nat (nat_of_ascii c) - 48.

Fixpoint lstrip (s : string) : string :=
  match s with
  | String c r => if is_space c then lstrip r else s
  | EmptyString => EmptyString
  end.

Fixpoint rstrip (s : string) : string :=
  match s with
  | EmptyString => EmptyString
  | String c r =>
      match rstrip r with
      | EmptyString => if is_space c then EmptyString else String c EmptyString
      | t => String c t
      end
  end.

(** [s.strip()] *)
Definition strip (s : string) : string := rstrip (lstrip s).

(** [s.split(sep)] for a one-character separator: never the empty list. *)
Fixpoint split (sep : ascii) (s : string) : list string :=
  match s with
  | EmptyString => [EmptyString]
  | String c r =>
      if Ascii.eqb c sep then EmptyString :: split sep r
      else match split sep r with
           | p :: ps => String c p :: ps
           | [] => [String c EmptyString]
           end
  end.

Definition lower_ascii (c : ascii) : ascii :=
  let n := nat_of_ascii c in
  if (65 <=? n)%nat && (n <=? 90)%nat then ascii_of_nat (n + 32) else c.

(** [s.lower()] *)
Fixpoint lower (s : string) : string :=
  match s with
  | EmptyString => EmptyString
  | String c r => String (lower_ascii c) (lower r)
  end.

(** [needle in hay] *)
Fixpoint contains (needle hay : string) : bool :=
  String.prefix needle hay ||
  match hay with
  | EmptyString => false
  | String _ r => contains needle r
  end.

(** [any(x in text for x in needles)] *)
Definition any_in (needles : list string) (text : string) : bool :=
  existsb (fun x => contains x text) needles.

(** [' '.join(parts)] *)
Fixpoint join_space (parts : list string) : string :=
  match parts with
  | [] => EmptyString
  | [p] => p
  | p :: ps => p ++ " " ++ join_space ps
  end.

(** The digits of an integer literal: [digit (["_"] digit)*]. *)
Fixpoint int_digits (s : string) (acc : Z) : option Z :=
  match s with
  | EmptyString => Some acc
  | String c r =>
      if is_digit c then int_digits r (acc * 10 + digit_value c)
      else if Ascii.eqb c "_" then
        match r with
        | String d _ => if is_digit d then int_digits r acc else None
        | EmptyString => None
        end
      else None
  end.

Definition int_unsigned (s : string) : option Z :=
  match s with
  | String c _ => if is_digit c then int_digits s 0 else None
  | EmptyString => None
  end.

(** [int(s)] in base ten; [None] stands for [ValueError]. *)
Definition py_int (s : string) : option Z :=
  match strip s with
  | String "-" r => Z.opp <$> int_unsigned r
  | String "+" r => int_unsigned r
  | t => int_unsigned t
  end.

(** [c in s] for one character. *)
Fixpoint has_char (c : ascii) (s : string) : bool :=
  match s with
  | EmptyString => false
  | String d r => Ascii.eqb d c || has_char c r
  end.

(** Truthiness of a [str] and of an [Optional[str]]. *)
Definition truthy (s : string) : bool :=
  match s with EmptyString => false | _ => true end.

Definition truthy_opt (o : option string) : bool :=
  match o with Some s => truthy s | None => false end.

End Text.

(* ===================================================================== *)
(** * Discovery filters *)
(* ===================================================================== *)

(** The flattened record that [extract_video_data] returns. *)
Record VideoData := {
  vd_video_id : string;
  vd_title : string;
  vd_description_snippet : string;
  vd_length_text : string;
  vd_thumbnail_url : string;
  vd_channel_verified : bool
}.

(** [_parse_duration_to_minutes]: [None] is Python's [None]. *)
Definition _parse_duration_to_minutes (length_text : string) : option Z :=
  if negb (Text.truthy length_text) then None
  else
    let parts := Text.split ":" (Text.strip length_text) in
    match parts with
    | [h; m; s] =>
        match Text.py_int h, Text.py_int m, Text.py_int s with
        | Some hours, Some minutes, Some _ => Some (hours * 60 + minutes)%Z
        | _, _, _ => None
        end
    | [m; s] =>
        match Text.py_int m, Text.py_int s with
        | Some minutes, Some _ => Some minutes
        | _, _ => None
        end
    | [v] =>
        match Text.py_int v with
        | Some value => Some (if (100 <? value)%Z then (value / 60)%Z else value)
        | None => None
        end
    | _ => None
    end.

Inductive FilterReason :=
| PassedAllFilters
| TitleMismatch
| InvalidRegex
| DurationMissingStrict
| DurationBelowMinimum (duration minimum : Z)
| DurationAboveMaximum (duration maximum : Z).

(** [_should_process_video].  [re_search pattern title] is
    [re.search(pattern, title, re.IGNORECASE)], [None] for [re.error]. *)
Definition _should_process_video
    (re_search : string -> string -> option bool)
    (video_data : VideoData)
    (title_pattern : option string)
    (min_duration_minutes max_duration_minutes : option Z)
    (duration_filter_strict : bool) : bool * FilterReason :=
  let title_check :=
    if Text.truthy_opt title_pattern then
      match re_search (default EmptyString title_pattern) (vd_title video_data) with
      | Some true => None
      | Some false => Some (false, TitleMismatch)
      | None => Some (false, InvalidRegex)
      end
    else None in
  match title_check with
  | Some verdict => verdict
  | None =>
      if bool_decide (min_duration_minutes = None) && bool_decide (max_duration_minutes = None)
      then (true, PassedAllFilters)
      else
        match _parse_duration_to_minutes (vd_length_text video_data) with
        | None =>
            if duration_filter_strict then (false, DurationMissingStrict)
            else (true, PassedAllFilters)
        | Some duration_minutes =>
            match min_duration_minutes with
            | Some lo =>
                if (duration_minutes <? lo)%Z
                then (false, DurationBelowMinimum duration_minutes lo)
                else
                  match max_duration_minutes with
                  | Some hi =>
                      if (hi <? duration_minutes)%Z
                      then (false, DurationAboveMaximum duration_minutes hi)
                      else (true, PassedAllFilters)
                  | None => (true, PassedAllFilters)
                  end
            | None =>
                match max_duration_minutes with
                | Some hi =>
                    if (hi <? duration_minutes)%Z
                    then (false, DurationAboveMaximum duration_minutes hi)
                    else (true, PassedAllFilters)
                | None => (true, PassedAllFilters)
                end
            end
        end
  end.

(* ===================================================================== *)
(** * The ledger: tables [videos] and [scraping_progress] *)
(* ===================================================================== *)

(** Descriptive columns, written once by Discovery. *)
Record Metadata := {
  title : string;
  description_snippet : string;
  length_text : string;
  thumbnail_url : string;
  channel_verified : bool
}.

(** A value bound to a path column: [None], a [str], or a [pathlib.Path]
    object (which [sqlite3] refuses to bind). *)
Inductive PathValue :=
| PNone
| PStr (s : string)
| PPath (s : string).

Record SubtitleCols := {
  subtitle_path : option string;
  subtitle_type : option string;
  auto_subtitle_path : option string;
  subtitle_languages : option (list string);
  subtitle_downloaded_at : option N
}.

Record MediaCols := {
  audio_path : option string;
  video_path : option string;
  download_status : option string;
  file_size : option N;
  downloaded_at : option N
}.

(** The granular completion columns; [None] is SQL [NULL].  The two JSON
    columns hold the decoded object. *)
Record CompletionCols := {
  metadata_completed : option bool;
  subtitles_completed : option (gmap string string);
  media_completed : option bool;
  processing_status : option string;
  last_processing_step : option string;
  completion_details : option (gmap string string)
}.

Record Row := {
  video_id : string;
  channel_name : option string;
  meta : Metadata;
  subtitle_cols : SubtitleCols;
  media_cols : MediaCols;
  scraped_at : N;
  completion : CompletionCols
}.

Definition with_completion (c : CompletionCols) (r : Row) : Row :=
  {| video_id := video_id r; channel_name := channel_name r; meta := meta r;
     subtitle_cols := subtitle_cols r; media_cols := media_cols r;
     scraped_at := scraped_at r; completion := c |}.

Definition with_subtitle_cols (c : SubtitleCols) (r : Row) : Row :=
  {| video_id := video_id r; channel_name := channel_name r; meta := meta r;
     subtitle_cols := c; media_cols := media_cols r;
     scraped_at := scraped_at r; completion := completion r |}.

Definition with_media_cols (c : MediaCols) (r : Row) : Row :=
  {| video_id := video_id r; channel_name := channel_name r; meta := meta r;
     subtitle_cols := subtitle_cols r; media_cols := c;
     scraped_at := scraped_at r; completion := completion r |}.

(** One row of [scraping_progress]. *)
Record Progress := {
  last_video_id : option string;
  total_scraped : nat;
  last_updated : option N
}.

(* ===================================================================== *)
(** * The filesystem and the fetch collaborator *)
(* ===================================================================== *)

Inductive SubtitleKind := Manual | Auto.

(** [<video_id>_manual.srt] / [<video_id>_auto.srt] *)
Definition subtitle_file_name (video_id : string) (k : SubtitleKind) : string :=
  match k with
  | Manual => video_id ++ "_manual.srt"
  | Auto => video_id ++ "_auto.srt"
  end.

(** File sizes in bytes.  [subtitle_files] is keyed by language directory
    and file name under [subtitles_dir]; [media_files] is the listing of
    [media_dir] in the order [glob] yields it. *)
Record FS := {
  subtitle_files : gmap (string * string) N;
  media_files : list (string * N)
}.

(** The [yt-dlp] command lines the scraper issues. *)
Inductive Cmd :=
| CmdManualSubs (video_id language : string)
| CmdAutoSubs (video_id language : string)
| CmdQuickCheck (video_id : string)
| CmdMedia (video_id : string) (audio_only : bool)
| CmdAlternative (method : nat) (video_id : string) (audio_only : bool).

(** What [subprocess.run] does: raise [TimeoutExpired], raise something
    else, or return a [CompletedProcess]. *)
Inductive ProcResult :=
| ProcTimeout
| ProcRaised (msg : string)
| ProcCompleted (returncode : Z) (stderr : string).

(** Everything outside the program.  [fetch n cmd fs] is the [n]-th
    subprocess invocation of the run: its result and the files it leaves. *)
Record Env := {
  fetch : nat -> Cmd -> FS -> ProcResult * FS;
  re_search : string -> string -> option bool;
  relative_to_cwd : string -> option string;
  isoformat : N -> string;
  randint_3_10 : nat -> N;
  subtitles_dir : string;
  media_dir : string
}.

Record World := {
  videos : list Row;
  scraping_progress : gmap string Progress;
  files : FS;
  calls : list Cmd;
  clock : N
}.

Definition with_videos (v : list Row) (w : World) : World :=
  {| videos := v; scraping_progress := scraping_progress w; files := files w;
     calls := calls w; clock := clock w |}.

Definition with_progress (p : gmap string Progress) (w : World) : World :=
  {| videos := videos w; scraping_progress := p; files := files w;
     calls := calls w; clock := clock w |}.

Definition with_files (f : FS) (w : World) : World :=
  {| videos := videos w; scraping_progress := scraping_progress w; files := f;
     calls := calls w; clock := clock w |}.

(** [time.sleep], in milliseconds. *)
Definition sleep (ms : N) (w : World) : World :=
  {| videos := videos w; scraping_progress := scraping_progress w;
     files := files w; calls := calls w; clock := (clock w + ms)%N |}.

(** [datetime.now()] and SQLite's [CURRENT_TIMESTAMP], in seconds. *)
Definition now (w : World) : N := (clock w / 1000)%N.

(** [subprocess.run(cmd, ...)]: the call is logged (newest first). *)
Definition run (E : Env) (cmd : Cmd) (w : World) : ProcResult * World :=
  let '(res, fs) := fetch E (List.length (calls w)) cmd (files w) in
  (res, {| videos := videos w; scraping_progress := scraping_progress w;
           files := fs; calls := cmd :: calls w; clock := clock w |}).

(* ===================================================================== *)
(** * Exceptions *)
(* ===================================================================== *)

Inductive Exn :=
| TimeoutExpired
| PyException (msg : string).

(** [str(e)] *)
Definition exn_message (e : Exn) : string :=
  match e with
  | TimeoutExpired => "Command timed out"
  | PyException msg => msg
  end.

(** A computation over a state [S] that returns or raises; the state
    reached when it raises is kept, as in Python. *)
Definition M (S A : Type) : Type := S -> (Exn + A) * S.

Definition ret {S A} (a : A) : M S A := fun s => (inr a, s).

Definition raise {S A} (e : Exn) : M S A := fun s => (inl e, s).

Definition bind {S A B} (m : M S A) (k : A -> M S B) : M S B :=
  fun s =>
    match m s with
    | (inr a, s') => k a s'
    | (inl e, s') => (inl e, s')
    end.

(** [try: m  except ...: h e] *)
Definition try_except {S A} (m : M S A) (h : Exn -> M S A) : M S A :=
  fun s =>
    match m s with
    | (inr a, s') => (inr a, s')
    | (inl e, s') => h e s'
    end.

Definition get {S} : M S S := fun s => (inr s, s).
Definition modify {S} (f : S -> S) : M S unit := fun s => (inr tt, f s).

Declare Scope py_scope.
Delimit Scope py_scope with py.
Notation "'let!' x ':=' m 'in' k" := (bind m (fun x => k))
  (at level 10, x name, m at level 100, k at level 200) : py_scope.
Notation "'do!' m 'in' k" := (bind m (fun _ => k))
  (at level 10, m at level 100, k at level 200) : py_scope.

(* ===================================================================== *)
(** * Ledger Store *)
(* ===================================================================== *)

(** [SELECT ... FROM videos WHERE video_id = ?] followed by [fetchone()]. *)
Definition find_row (vid : string) (rows : list Row) : option Row :=
  List.find (fun r => String.eqb (video_id r) vid) rows.

(** [UPDATE videos SET ... WHERE video_id = ?] *)
Definition update_rows (vid : string) (f : Row -> Row) (rows : list Row) : list Row :=
  List.map (fun r => if String.eqb (video_id r) vid then f r else r) rows.

(** [is_video_exists] *)
Definition is_video_exists (vid : string) (w : World) : bool :=
  match find_row vid (videos w) with Some _ => true | None => false end.

(** [save_video]: [INSERT OR REPLACE] drops the row that holds the key and
    appends the new one; [scraped_at] is not among the inserted columns and
    takes its default, [CURRENT_TIMESTAMP].  Returns [True]. *)
Definition save_video (video_data : Row) (channel : option string) (w : World)
  : bool * World :=
  let row :=
    {| video_id := video_id video_data; channel_name := channel;
       meta := meta video_data; subtitle_cols := subtitle_cols video_data;
       media_cols := media_cols video_data; scraped_at := now w;
       completion := completion video_data |} in
  (true,
   with_videos
     (List.filter (fun r => negb (String.eqb (video_id r) (video_id video_data))) (videos w)
      ++ [row]) w).

(** [update_progress] *)
Definition update_progress (identifier last : string) (total : nat) (w : World) : World :=
  with_progress
    (<[identifier := {| last_video_id := Some last; total_scraped := total;
                        last_updated := Some (now w) |}]> (scraping_progress w)) w.

(** [get_progress] *)
Definition get_progress (identifier : string) (w : World) : Progress :=
  match scraping_progress w !! identifier with
  | Some p => p
  | None => {| last_video_id := None; total_scraped := 0; last_updated := None |}
  end.

(** [update_video_completion_status]: keyword arguments left at [None] are
    not written; the subtitle map is merged into the stored one and
    [completion_details] is always rewritten. *)
Definition update_video_completion_status (E : Env) (vid : string)
    (arg_metadata_completed : option bool)
    (arg_subtitles_completed : option (gmap string string))
    (arg_media_completed : option bool)
    (arg_processing_status : option string)
    (arg_last_step : option string) (w : World) : World :=
  let result := find_row vid (videos w) in
  let current_subtitles : gmap string string :=
    match result with
    | Some r => default ∅ (subtitles_completed (completion r))
    | None => ∅
    end in
  let current_details : gmap string string :=
    match result with
    | Some r => default ∅ (completion_details (completion r))
    | None => ∅
    end in
  let details :=
    match arg_last_step with
    | Some step =>
        <["last_updated" := isoformat E (now w)]> (<["last_step" := step]> current_details)
    | None => current_details
    end in
  let set (r : Row) : Row :=
    let c := completion r in
    with_completion
      {| metadata_completed :=
           match arg_metadata_completed with
           | Some b => Some b | None => metadata_completed c end;
         subtitles_completed :=
           match arg_subtitles_completed with
           | Some d => Some (d ∪ current_subtitles)
           | None => subtitles_completed c end;
         media_completed :=
           match arg_media_completed with
           | Some b => Some b | None => media_completed c end;
         processing_status :=
           match arg_processing_status with
           | Some st => Some st | None => processing_status c end;
         last_processing_step :=
           match arg_last_step with
           | Some step => Some step | None => last_processing_step c end;
         completion_details := Some details |} r in
  with_videos (update_rows vid set (videos w)) w.

(** [step.split('_', 1)[1]] *)
Fixpoint after_first (sep : ascii) (s : string) : string :=
  match s with
  | EmptyString => EmptyString
  | String c r => if Ascii.eqb c sep then r else after_first sep r
  end.

(** [mark_step_completed] *)
Definition mark_step_completed (E : Env) (vid step : string) (success : bool)
    (w : World) : World :=
  let status := if success then "completed" else "failed" in
  if String.eqb step "metadata" then
    update_video_completion_status E vid (Some success) None None
      (Some (if success then "partial" else "failed")) (Some step) w
  else if String.prefix "subtitles_" step then
    let language := after_first "_" step in
    update_video_completion_status E vid None (Some {[ language := status ]})
      None None (Some step) w
  else if String.eqb step "media" then
    update_video_completion_status E vid None None (Some success) None (Some step) w
  else w.

(* ===================================================================== *)
(** * Completion Evaluator *)
(* ===================================================================== *)

Definition MB : N := 1048576.

(** [str.rfind] of one character, as an index from the left. *)
Fixpoint rfind_from (c : ascii) (s : string) (pos : nat) (best : option nat) : option nat :=
  match s with
  | EmptyString => best
  | String d r => rfind_from c r (S pos) (if Ascii.eqb d c then Some pos else best)
  end.

(** [PurePath.suffix] of a file name. *)
Definition suffix (name : string) : string :=
  match rfind_from "." name 0 None with
  | Some i =>
      if (0 <? i)%nat && (i <? String.length name - 1)%nat
      then String.substring i (String.length name - i) name
      else EmptyString
  | None => EmptyString
  end.

(** [file_path.suffix in ['.part', '.ytdl', '.temp']] *)
Definition incomplete_suffix (name : string) : bool :=
  existsb (String.eqb (suffix name)) [".part"; ".ytdl"; ".temp"].

(** [list(self.media_dir.glob(f"{video_id}.*"))] *)
Definition glob_media (vid : string) (fs : FS) : list (string * N) :=
  List.filter (fun f => String.prefix (vid ++ ".") (fst f)) (media_files fs).

(** [f.exists() and f.stat().st_size > 0] for one subtitle file. *)
Definition subtitle_nonempty (fs : FS) (lang vid : string) (k : SubtitleKind) : bool :=
  match subtitle_files fs !! (lang, subtitle_file_name vid k) with
  | Some size => (0 <? size)%N
  | None => false
  end.

Definition subtitle_files_exist (fs : FS) (lang vid : string) : bool :=
  subtitle_nonempty fs lang vid Manual || subtitle_nonempty fs lang vid Auto.

Record CompletionStatus := {
  cs_exists : bool;
  needs_metadata : bool;
  needs_subtitles : bool;
  missing_subtitle_languages : list string;
  needs_media : bool;
  is_fully_completed : bool;
  cs_processing_status : string;
  cs_last_step : option string
}.

(** The [for lang in subtitle_languages] loop of the evaluator.
    [stored] is the map decoded once, before the loop. *)
Fixpoint check_subtitle_languages (E : Env) (vid : string)
    (stored : gmap string string) (langs : list string)
    (needs : bool) (missing : list string) (w : World)
  : bool * list string * World :=
  match langs with
  | [] => (needs, missing, w)
  | lang :: rest =>
      let lang_status := stored !! lang in
      if bool_decide (lang_status = Some "not_available") then
        check_subtitle_languages E vid stored rest needs missing w
      else if subtitle_files_exist (files w) lang vid then
        check_subtitle_languages E vid stored rest needs missing w
      else
        let w' :=
          if bool_decide (lang_status = Some "completed") then
            update_video_completion_status E vid None (Some {[ lang := "missing" ]})
              None (Some "partial") None w
          else w in
        check_subtitle_languages E vid stored rest true (missing ++ [lang]) w'
  end.

(** The scan for a finished media file. *)
Definition has_substantial_file (vid : string) (fs : FS) : bool :=
  existsb (fun f => negb (incomplete_suffix (fst f)) && (MB <? snd f)%N)
          (glob_media vid fs).

(** [get_video_completion_status] *)
Definition get_video_completion_status (E : Env) (vid : string)
    (download_subtitles : bool) (subtitle_languages : list string)
    (download_media : bool) (w : World) : CompletionStatus * World :=
  match find_row vid (videos w) with
  | None =>
      ({| cs_exists := false; needs_metadata := true;
          needs_subtitles := download_subtitles;
          missing_subtitle_languages :=
            if download_subtitles then subtitle_languages else [];
          needs_media := download_media; is_fully_completed := false;
          cs_processing_status := "not_started"; cs_last_step := None |}, w)
  | Some r =>
      let c := completion r in
      let stored := default ∅ (subtitles_completed c) in
      let needs_md := negb (default false (metadata_completed c)) in
      let '(needs_subs, missing, w1) :=
        if download_subtitles
        then check_subtitle_languages E vid stored subtitle_languages false [] w
        else (false, [], w) in
      let '(needs_med, w2) :=
        if download_media then
          if has_substantial_file vid (files w1) then (false, w1)
          else
            (true,
             if default false (media_completed c) then
               update_video_completion_status E vid None None (Some false)
                 (Some "partial") None w1
             else w1)
        else (false, w1) in
      ({| cs_exists := true; needs_metadata := needs_md;
          needs_subtitles := needs_subs;
          missing_subtitle_languages := missing;
          needs_media := needs_med;
          is_fully_completed := negb needs_md && negb needs_subs && negb needs_med;
          cs_processing_status :=
            match processing_status c with
            | Some st => if Text.truthy st then st else "unknown"
            | None => "unknown"
            end;
          cs_last_step := last_processing_step c |}, w2)
  end.

(* ===================================================================== *)
(** * Fetching: subtitles *)
(* ===================================================================== *)

(** [subprocess.run] as a computation that may raise. *)
Definition run_process (E : Env) (cmd : Cmd) : M World (Z * string) :=
  fun w =>
    match run E cmd w with
    | (ProcTimeout, w') => (inl TimeoutExpired, w')
    | (ProcRaised msg, w') => (inl (PyException msg), w')
    | (ProcCompleted rc err, w') => (inr (rc, err), w')
    end.

(** [_is_auth_or_bot_error] *)
Definition auth_indicators : list string :=
  ["sign in to confirm"; "not a bot"; "cookies"; "authentication"; "captcha";
   "bot detection"; "verify you are human"; "too many requests"; "rate limit";
   "blocked"; "forbidden"].

Definition _is_auth_or_bot_error (error_msg : string) : bool :=
  Text.any_in auth_indicators (Text.lower error_msg).

(** The local variables of [download_subtitles] together with the world;
    they survive an exception raised inside the [try]. *)
Record SubState := {
  manual_path : option string;
  auto_path : option string;
  sub_type : string;
  lang_manual_success : bool;
  lang_auto_success : bool;
  sub_world : World
}.

Definition sub_with_world (w : World) (st : SubState) : SubState :=
  {| manual_path := manual_path st; auto_path := auto_path st;
     sub_type := sub_type st; lang_manual_success := lang_manual_success st;
     lang_auto_success := lang_auto_success st; sub_world := w |}.

Definition sub_lift {A} (m : M World A) : M SubState A :=
  fun st => let '(r, w) := m (sub_world st) in (r, sub_with_world w st).

(** [str(lang_dir / name)] *)
Definition subtitle_path_string (E : Env) (language name : string) : string :=
  subtitles_dir E ++ "/" ++ language ++ "/" ++ name.

(** [file.unlink()] for a subtitle file. *)
Definition unlink_subtitle (language name : string) (w : World) : World :=
  with_files {| subtitle_files := delete (language, name) (subtitle_files (files w));
                media_files := media_files (files w) |} w.

(** [str(file.relative_to(Path.cwd()))], which raises [ValueError] when the
    file is not below the working directory. *)
Definition relative_path (E : Env) (path : string) : M SubState string :=
  match relative_to_cwd E path with
  | Some rel => ret rel
  | None => raise (PyException "path is not in the subpath of the working directory")
  end.

(** The manual-subtitle block of one attempt. *)
Definition fetch_manual (E : Env) (vid language : string) : M SubState unit :=
  (let name := subtitle_file_name vid Manual in
   let! st := get in
   if bool_decide (is_Some (subtitle_files (files (sub_world st)) !! (language, name)))
   then ret tt
   else
     let! result := sub_lift (run_process E (CmdManualSubs vid language)) in
     let! st1 := get in
     let fs := files (sub_world st1) in
     if (fst result =? 0)%Z && subtitle_nonempty fs language vid Manual then
       do! (if negb (Text.truthy_opt (manual_path st1)) then
              let! rel := relative_path E (subtitle_path_string E language name) in
              modify (fun s =>
                {| manual_path := Some rel; auto_path := auto_path s;
                   sub_type := "manual";
                   lang_manual_success := lang_manual_success s;
                   lang_auto_success := lang_auto_success s;
                   sub_world := sub_world s |})
            else ret tt) in
       modify (fun s =>
         {| manual_path := manual_path s; auto_path := auto_path s;
            sub_type := sub_type s; lang_manual_success := true;
            lang_auto_success := lang_auto_success s; sub_world := sub_world s |})
     else if bool_decide (subtitle_files fs !! (language, name) = Some 0%N) then
       modify (fun s => sub_with_world (unlink_subtitle language name (sub_world s)) s)
     else ret tt)%py.

(** The auto-subtitle block of one attempt. *)
Definition fetch_auto (E : Env) (vid language : string) : M SubState unit :=
  (let name := subtitle_file_name vid Auto in
   let! st := get in
   if bool_decide (is_Some (subtitle_files (files (sub_world st)) !! (language, name)))
   then ret tt
   else
     let! result := sub_lift (run_process E (CmdAutoSubs vid language)) in
     let! st1 := get in
     let fs := files (sub_world st1) in
     if (fst result =? 0)%Z && subtitle_nonempty fs language vid Auto then
       do! (if negb (Text.truthy_opt (auto_path st1)) then
              let! rel := relative_path E (subtitle_path_string E language name) in
              modify (fun s =>
                {| manual_path := manual_path s; auto_path := Some rel;
                   sub_type :=
                     if String.eqb (sub_type s) "manual" then "both"
                     else if String.eqb (sub_type s) "none" then "auto"
                     else sub_type s;
                   lang_manual_success := lang_manual_success s;
                   lang_auto_success := lang_auto_success s;
                   sub_world := sub_world s |})
            else ret tt) in
       modify (fun s =>
         {| manual_path := manual_path s; auto_path := auto_path s;
            sub_type := sub_type s; lang_manual_success := lang_manual_success s;
            lang_auto_success := true; sub_world := sub_world s |})
     else if bool_decide (subtitle_files fs !! (language, name) = Some 0%N) then
       modify (fun s => sub_with_world (unlink_subtitle language name (sub_world s)) s)
     else ret tt)%py.

(** The body of the [try] in the retry loop; [true] is [break]. *)
Definition subtitle_attempt (E : Env) (vid language : string) : M SubState bool :=
  (do! fetch_manual E vid language in
   do! fetch_auto E vid language in
   let! st := get in
   ret (lang_manual_success st || lang_auto_success st))%py.

(** [for attempt in range(max_retries)], with [remaining] iterations left.
    Both [except] clauses back off and go round again. *)
Fixpoint subtitle_retries (E : Env) (vid language : string)
    (max_retries remaining : nat) (st : SubState) : SubState :=
  match remaining with
  | 0 => st
  | S k =>
      let attempt := max_retries - remaining in
      let guarded :=
        try_except (subtitle_attempt E vid language)
          (fun _ =>
             do! modify (fun s =>
                   if (attempt <? max_retries - 1)%nat
                   then sub_with_world (sleep (1000 * 2 ^ N.of_nat attempt) (sub_world s)) s
                   else s) in
             ret false)%py in
      match guarded st with
      | (inr true, st') => st'
      | (_, st') => subtitle_retries E vid language max_retries k st'
      end
  end.

(** [for language in languages] *)
Fixpoint subtitle_languages_loop (E : Env) (vid : string) (languages : list string)
    (max_retries : nat) (results : gmap string string) (st : SubState)
  : gmap string string * SubState :=
  match languages with
  | [] => (results, st)
  | language :: rest =>
      let st0 :=
        {| manual_path := manual_path st; auto_path := auto_path st;
           sub_type := sub_type st; lang_manual_success := false;
           lang_auto_success := false; sub_world := sub_world st |} in
      let st1 := subtitle_retries E vid language max_retries max_retries st0 in
      let outcome :=
        if lang_manual_success st1 || lang_auto_success st1
        then "completed" else "not_available" in
      subtitle_languages_loop E vid rest max_retries (<[language := outcome]> results) st1
  end.

(** [download_subtitles]: manual path, auto path, subtitle type and the
    per-language results. *)
Definition download_subtitles (E : Env) (vid : string) (languages : list string)
    (max_retries : nat) (w : World)
  : (option string * option string * string * gmap string string) * World :=
  let st0 :=
    {| manual_path := None; auto_path := None; sub_type := "none";
       lang_manual_success := false; lang_auto_success := false; sub_world := w |} in
  let '(results, st) := subtitle_languages_loop E vid languages max_retries ∅ st0 in
  ((manual_path st, auto_path st, sub_type st, results), sub_world st).

(* ===================================================================== *)
(** * Fetching: media *)
(* ===================================================================== *)

(** [_quick_video_check]: [False] only on a definitive deletion signal. *)
Definition deletion_indicators : list string :=
  ["unavailable"; "removed"; "deleted"; "private"; "not found"].

Definition _quick_video_check (E : Env) (vid : string) (w : World) : bool * World :=
  match run E (CmdQuickCheck vid) w with
  | (ProcCompleted rc err, w') =>
      if (rc =? 0)%Z then (true, w')
      else (negb (Text.any_in deletion_indicators (Text.lower err)), w')
  | (_, w') => (true, w')
  end.

(** [max(files, key=lambda f: f.stat().st_size)]: the first largest. *)
Fixpoint largest_file (fs : list (string * N)) : option (string * N) :=
  match fs with
  | [] => None
  | f :: rest =>
      match largest_file rest with
      | Some g => if (snd f <? snd g)%N then Some g else Some f
      | None => Some f
      end
  end.

(** [str(self.media_dir / name)] *)
Definition media_path_string (E : Env) (name : string) : string :=
  media_dir E ++ "/" ++ name.

(** [file.unlink()] in the media directory. *)
Definition unlink_media (name : string) (w : World) : World :=
  with_files
    {| subtitle_files := subtitle_files (files w);
       media_files :=
         List.filter (fun f => negb (String.eqb (fst f) name)) (media_files (files w)) |} w.

(** The escalation ladder: method number and the pause after it. *)
Definition methods : list (nat * N) := [(1, 30%N); (2, 60%N); (3, 0%N)].

(** The [try] body for one rung: [Some] is the early [return]. *)
Definition alternative_attempt (E : Env) (vid : string) (audio_only : bool)
    (i : nat) (sleep_after : N) : M World (option (PathValue * string * N)) :=
  (let! result := run_process E (CmdAlternative i vid audio_only) in
   let! w := get in
   let found :=
     if (fst result =? 0)%Z then
       match largest_file (glob_media vid (files w)) with
       | Some (name, size) =>
           if (MB <? size)%N
           then Some (PStr (media_path_string E name), "completed", size)
           else None
       | None => None
       end
     else None in
   match found with
   | Some r => ret (Some r)
   | None =>
       do! (if (i <? List.length methods)%nat && (0 <? sleep_after)%N
            then modify (sleep (1000 * sleep_after)) else ret tt) in
       ret None
   end)%py.

Fixpoint alternative_loop (E : Env) (vid : string) (audio_only : bool)
    (rungs : list (nat * N)) (w : World) : (PathValue * string * N) * World :=
  match rungs with
  | [] => ((PNone, "auth_failed", 0%N), w)
  | (i, sleep_after) :: rest =>
      match try_except (alternative_attempt E vid audio_only i sleep_after)
                       (fun _ => ret None) w with
      | (inr (Some r), w') => (r, w')
      | (_, w') => alternative_loop E vid audio_only rest w'
      end
  end.

(** [_try_alternative_download_methods] *)
Definition _try_alternative_download_methods (E : Env) (vid : string)
    (audio_only : bool) (w : World) : (PathValue * string * N) * World :=
  alternative_loop E vid audio_only methods w.

(** The local variables of [download_media] together with the world. *)
Record MediaState := {
  file_path : PathValue;
  media_status : string;
  file_size_local : N;
  media_world : World
}.

Definition media_with_world (w : World) (st : MediaState) : MediaState :=
  {| file_path := file_path st; media_status := media_status st;
     file_size_local := file_size_local st; media_world := w |}.

Definition media_with_status (status : string) (st : MediaState) : MediaState :=
  {| file_path := file_path st; media_status := status;
     file_size_local := file_size_local st; media_world := media_world st |}.

Definition media_lift {A} (m : M World A) : M MediaState A :=
  fun st => let '(r, w) := m (media_world st) in (r, media_with_world w st).

(** How one pass through a loop body ends. *)
Inductive Control (R : Type) :=
| Continue
| Break
| Return (r : R).
Arguments Continue {R}.
Arguments Break {R}.
Arguments Return {R} r.

(** A file that the cleanup pass of [download_media] keeps. *)
Definition is_complete_file (f : string * N) : bool :=
  negb (incomplete_suffix (fst f)) && (MB <? snd f)%N.

Definition unavailable_indicators : list string :=
  ["unavailable"; "private"; "deleted"; "removed"].

Definition circuit_breaker_message : string :=
  "Authentication/bot detection error - manual intervention required".

(** The body of the [try] inside [for attempt in range(max_retries)]. *)
Definition media_attempt (E : Env) (vid : string) (audio_only : bool)
  : M MediaState (Control (PathValue * string * N)) :=
  (let! st := get in
   let existing_files := glob_media vid (files (media_world st)) in
   let complete_files := List.filter is_complete_file existing_files in
   let incomplete_files := List.filter (fun f => negb (is_complete_file f)) existing_files in
   (* the classification loop rebinds [file_path] to each [Path] in turn *)
   do! modify (fun s =>
         match last existing_files with
         | Some f =>
             {| file_path := PPath (media_path_string E (fst f));
                media_status := media_status s;
                file_size_local := file_size_local s; media_world := media_world s |}
         | None => s
         end) in
   do! modify (fun s =>
         media_with_world
           (fold_left (fun w f => unlink_media (fst f) w) incomplete_files (media_world s)) s) in
   match largest_file complete_files with
   | Some (name, size) =>
       do! modify (fun s =>
             {| file_path := PStr (media_path_string E name); media_status := "completed";
                file_size_local := size; media_world := media_world s |}) in
       ret Break
   | None =>
       let! result := media_lift (run_process E (CmdMedia vid audio_only)) in
       if (fst result =? 0)%Z then
         let! st1 := get in
         match largest_file (glob_media vid (files (media_world st1))) with
         | Some (name, size) =>
             if (MB <? size)%N then
               do! modify (fun s =>
                     {| file_path := PStr (media_path_string E name);
                        media_status := "completed";
                        file_size_local := size; media_world := media_world s |}) in
               ret Break
             else
               do! modify (fun s =>
                     {| file_path := file_path s; media_status := "corrupted";
                        file_size_local := size;
                        media_world := unlink_media name (media_world s) |}) in
               ret Continue
         | None =>
             do! modify (media_with_status "missing_file") in
             ret Continue
         end
       else
         let error_msg :=
           if Text.truthy (snd result) then Text.strip (snd result) else "Unknown error" in
         if _is_auth_or_bot_error error_msg then
           let! alt := media_lift (fun w => let '(r, w') := _try_alternative_download_methods E vid audio_only w in (inr r, w')) in
           if String.eqb (snd (fst alt)) "completed" then ret (Return alt)
           else raise (PyException circuit_breaker_message)
         else if Text.any_in unavailable_indicators (Text.lower error_msg) then
           do! modify (media_with_status "unavailable") in
           ret Break
         else ret Continue
   end)%py.

(** The two [except] clauses of [download_media]. *)
Definition media_handler (e : Exn) : M MediaState (Control (PathValue * string * N)) :=
  (match e with
   | TimeoutExpired => do! modify (media_with_status "timeout") in ret Continue
   | PyException _ => do! modify (media_with_status "error") in ret Continue
   end)%py.

Fixpoint media_retries (E : Env) (vid : string) (audio_only : bool)
    (max_retries remaining : nat) (st : MediaState)
  : (Exn + (PathValue * string * N)) * World :=
  match remaining with
  | 0 => (inr (file_path st, media_status st, file_size_local st), media_world st)
  | S k =>
      let attempt := max_retries - remaining in
      match try_except (media_attempt E vid audio_only) media_handler st with
      | (inr (Return r), st') => (inr r, media_world st')
      | (inr Break, st') =>
          (inr (file_path st', media_status st', file_size_local st'), media_world st')
      | (inr Continue, st') =>
          let st'' :=
            if (attempt <? max_retries - 1)%nat
            then media_with_world (sleep (1000 * 2 ^ N.of_nat attempt) (media_world st')) st'
            else st' in
          media_retries E vid audio_only max_retries k st''
      | (inl e, st') => (inl e, media_world st')
      end
  end.

(** The locals [file_path = None], [download_status = "failed"],
    [file_size_mb = 0.0] with which [download_media] enters its loop. *)
Definition media_start (w : World) : MediaState :=
  {| file_path := PNone; media_status := "failed"; file_size_local := 0%N;
     media_world := w |}.

(** [download_media].  [self.download_dir] is a [Path], which is always
    truthy, so the ["skipped"] exit is never taken. *)
Definition download_media (E : Env) (vid : string) (audio_only : bool)
    (max_retries : nat) : M World (PathValue * string * N) :=
  fun w => media_retries E vid audio_only max_retries max_retries (media_start w).

(* ===================================================================== *)
(** * Acquisition Stage *)
(* ===================================================================== *)

(** SQL's [x != 'literal'] is three-valued: [NULL] compares to [NULL]. *)
Definition sql_ne (x : option string) (lit : string) : option bool :=
  match x with
  | Some v => Some (negb (String.eqb v lit))
  | None => None
  end.

(** A [WHERE] clause keeps a row only when the condition is true. *)
Definition sql_where (cond : option bool) : bool :=
  match cond with Some true => true | _ => false end.

(** [ORDER BY scraped_at]: rows with equal keys stay in rowid order. *)
Fixpoint insert_by_scraped_at (r : Row) (sorted : list Row) : list Row :=
  match sorted with
  | [] => [r]
  | x :: rest =>
      if (scraped_at r <=? scraped_at x)%N then r :: sorted
      else x :: insert_by_scraped_at r rest
  end.

Definition order_by_scraped_at (rows : list Row) : list Row :=
  fold_right insert_by_scraped_at [] rows.

(** [SELECT video_id, title FROM videos
     WHERE processing_status != 'completed' ORDER BY scraped_at] *)
Definition select_incomplete (rows : list Row) : list Row :=
  order_by_scraped_at
    (List.filter
       (fun r => sql_where (sql_ne (processing_status (completion r)) "completed"))
       rows).

Definition videos_to_process (w : World) : list (string * string) :=
  List.map (fun r => (video_id r, title (meta r))) (select_incomplete (videos w)).

(** [mark_step_completed] for each requested language. *)
Fixpoint mark_language_results (E : Env) (vid : string) (langs : list string)
    (language_results : gmap string string) (w : World) : World :=
  match langs with
  | [] => w
  | lang :: rest =>
      let result := default "failed" (language_results !! lang) in
      let w' := mark_step_completed E vid ("subtitles_" ++ lang)
                  (String.eqb result "completed") w in
      mark_language_results E vid rest language_results w'
  end.

(** The subtitle [UPDATE] of the acquisition loop. *)
Definition store_subtitle_info (vid : string) (manual auto : option string)
    (type : string) (requested : list string) (w : World) : World :=
  with_videos
    (update_rows vid
       (with_subtitle_cols
          {| subtitle_path := manual; subtitle_type := Some type;
             auto_subtitle_path := auto; subtitle_languages := Some requested;
             subtitle_downloaded_at := Some (now w) |})
       (videos w)) w.

(** The media [UPDATE]; binding a [Path] object raises. *)
Definition store_media_info (vid : string) (audio_only : bool) (path : PathValue)
    (status : string) (size : N) : M World unit :=
  fun w =>
    match path with
    | PPath _ => (inl (PyException "Error binding parameter 1: type 'PosixPath' is not supported"), w)
    | _ =>
        let p := match path with PStr s => Some s | _ => None end in
        let stamp := if String.eqb status "completed" then Some (now w) else None in
        let set (r : Row) :=
          with_media_cols
            {| audio_path := if audio_only then p else audio_path (media_cols r);
               video_path := if audio_only then video_path (media_cols r) else p;
               download_status := Some status; file_size := Some size;
               downloaded_at := stamp |} r in
        (inr tt, with_videos (update_rows vid set (videos w)) w)
    end.

(** [error_msg] names an authentication stop (inner handler). *)
Definition is_stop_message_inner (error_msg : string) : bool :=
  Text.contains "authentication" (Text.lower error_msg) ||
  Text.contains "manual intervention required" (Text.lower error_msg).

(** [error_msg] names an authentication stop (outer handler). *)
Definition is_stop_message_outer (error_msg : string) : bool :=
  Text.contains "authentication" (Text.lower error_msg) ||
  Text.contains "manual intervention required" (Text.lower error_msg) ||
  Text.contains "bot detection" (Text.lower error_msg).

Definition lift_total {A} (f : World -> A * World) : M World A :=
  fun w => let '(a, w') := f w in (inr a, w').

(** The subtitle step of one item; the result is [success]. *)
Definition acquire_subtitles (E : Env) (vid : string) (requested : list string)
    (status : CompletionStatus) : M World bool :=
  (if needs_subtitles status then
     try_except
       (let languages_to_download := missing_subtitle_languages status in
        let! res := lift_total (download_subtitles E vid languages_to_download 3) in
        let '(manual, auto, type, language_results) := res in
        do! modify (store_subtitle_info vid manual auto type requested) in
        do! modify (mark_language_results E vid languages_to_download language_results) in
        ret true)
       (fun _ => ret false)
   else ret true)%py.

(** The media step of one item; the result is [success]. *)
Definition acquire_media (E : Env) (vid : string) (audio_only : bool)
    (status : CompletionStatus) : M World bool :=
  (if needs_media status then
     let! alive := lift_total (_quick_video_check E vid) in
     if negb alive then
       do! modify (mark_step_completed E vid "media" false) in
       ret false
     else
       try_except
         (let! res := download_media E vid audio_only 3 in
          let '(path, download_status, size) := res in
          do! store_media_info vid audio_only path download_status size in
          if String.eqb download_status "completed" then
            do! modify (mark_step_completed E vid "media" true) in
            do! modify (fun w => sleep (1000 * randint_3_10 E (List.length (calls w))) w) in
            ret true
          else
            do! modify (mark_step_completed E vid "media" false) in
            ret false)
         (fun e =>
            if is_stop_message_inner (exn_message e) then raise e
            else
              do! modify (mark_step_completed E vid "media" false) in
              ret false)
   else ret true)%py.

Inductive ItemOutcome := Skipped | Succeeded | Failed.

(** The body of the outer [try] for one queued item. *)
Definition acquire_item (E : Env) (vid : string)
    (download_subtitles_flag : bool) (subtitle_languages : list string)
    (download_media_flag audio_only : bool) : M World ItemOutcome :=
  (let! status := lift_total (get_video_completion_status E vid download_subtitles_flag
                                subtitle_languages download_media_flag) in
   if is_fully_completed status then ret Skipped
   else
     let! ok_subtitles := acquire_subtitles E vid subtitle_languages status in
     let! ok_media := acquire_media E vid audio_only status in
     if ok_subtitles && ok_media then
       do! modify (update_video_completion_status E vid None None None (Some "completed") None) in
       ret Succeeded
     else
       do! modify (update_video_completion_status E vid None None None (Some "partial") None) in
       ret Failed)%py.

(** [for i, (video_id, title) in enumerate(videos_to_process, 1)] *)
Fixpoint acquire_loop (E : Env) (download_subtitles_flag : bool)
    (subtitle_languages : list string) (download_media_flag audio_only : bool)
    (sleep_interval : N) (queue : list (string * string)) (i : nat)
    (success_count failed_count : nat) (w : World) : nat * nat * World :=
  match queue with
  | [] => (success_count, failed_count, w)
  | (vid, _) :: rest =>
      let pause (w0 : World) := if (i mod 30 =? 0)%nat then sleep sleep_interval w0 else w0 in
      let continue_with := acquire_loop E download_subtitles_flag subtitle_languages
                             download_media_flag audio_only sleep_interval rest (S i) in
      match acquire_item E vid download_subtitles_flag subtitle_languages
              download_media_flag audio_only w with
      | (inr Skipped, w') => continue_with success_count failed_count w'
      | (inr Succeeded, w') => continue_with (S success_count) failed_count (pause w')
      | (inr Failed, w') => continue_with success_count (S failed_count) (pause w')
      | (inl e, w') =>
          if is_stop_message_outer (exn_message e)
          then (success_count, failed_count, w')
          else
            continue_with success_count (S failed_count)
              (update_video_completion_status E vid None None None (Some "failed") None w')
      end
  end.

(** [download_all_missing]: [(success_count, failed_count)] and the world
    it leaves.  [sleep_interval] is in milliseconds. *)
Definition download_all_missing (E : Env) (download_subtitles_flag : bool)
    (subtitle_languages : list string) (download_media_flag audio_only : bool)
    (sleep_interval : N) (w : World) : nat * nat * World :=
  acquire_loop E download_subtitles_flag subtitle_languages download_media_flag
    audio_only sleep_interval (videos_to_process w) 1 0 0 w.

(* ===================================================================== *)
(** * Discovery Stage *)
(* ===================================================================== *)

Record Thumbnail := {
  thumb_url : string;
  thumb_width : Z;
  thumb_height : Z
}.

(** One descriptor yielded by scrapetube; [None] is an absent key. *)
Record VideoDict := {
  videoId : option string;
  title_runs : option (list string);
  description_runs : option (list string);
  lengthText : option string;
  thumbnails : option (list Thumbnail);
  ownerBadges : option (list string)
}.

(** The remote enumeration: a finite forward-only stream that ends or
    raises. *)
Inductive Generator :=
| GenDone
| GenYield (video : VideoDict) (rest : Generator)
| GenRaise (msg : string).

(** [max(thumbnails, key=lambda x: width * height)]: the first largest. *)
Fixpoint largest_thumbnail (ts : list Thumbnail) : option Thumbnail :=
  match ts with
  | [] => None
  | t :: rest =>
      match largest_thumbnail rest with
      | Some u =>
          if (thumb_width t * thumb_height t <? thumb_width u * thumb_height u)%Z
          then Some u else Some t
      | None => Some t
      end
  end.

(** [extract_video_data] *)
Definition extract_video_data (video : VideoDict) : VideoData :=
  {| vd_video_id := default EmptyString (videoId video);
     vd_title := match title_runs video with
                 | Some runs => Text.join_space runs | None => EmptyString end;
     vd_description_snippet :=
       match description_runs video with
       | Some runs => Text.join_space runs | None => EmptyString end;
     vd_length_text := default EmptyString (lengthText video);
     vd_thumbnail_url :=
       match thumbnails video with
       | Some ts => match largest_thumbnail ts with
                    | Some t => thumb_url t | None => EmptyString end
       | None => EmptyString
       end;
     vd_channel_verified :=
       match ownerBadges video with
       | Some styles => existsb (String.eqb "BADGE_STYLE_TYPE_VERIFIED") styles
       | None => false
       end |}.

(** The dictionary Discovery hands to [save_video]: the extracted fields
    plus [download_status], [metadata_completed], [processing_status]. *)
Definition discovery_row (d : VideoData) : Row :=
  {| video_id := vd_video_id d; channel_name := None;
     meta := {| title := vd_title d; description_snippet := vd_description_snippet d;
                length_text := vd_length_text d; thumbnail_url := vd_thumbnail_url d;
                channel_verified := vd_channel_verified d |};
     subtitle_cols := {| subtitle_path := None; subtitle_type := None;
                         auto_subtitle_path := None; subtitle_languages := None;
                         subtitle_downloaded_at := None |};
     media_cols := {| audio_path := None; video_path := None;
                      download_status := Some "pending"; file_size := None;
                      downloaded_at := None |};
     scraped_at := 0%N;
     completion := {| metadata_completed := Some true; subtitles_completed := None;
                      media_completed := Some false;
                      processing_status := Some "metadata_only";
                      last_processing_step := None; completion_details := None |} |}.

Record Filters := {
  title_pattern : option string;
  min_duration_minutes : option Z;
  max_duration_minutes : option Z;
  duration_filter_strict : bool
}.

Definition passes_filters (E : Env) (f : Filters) (d : VideoData) : bool :=
  fst (_should_process_video (re_search E) d (title_pattern f)
         (min_duration_minutes f) (max_duration_minutes f) (duration_filter_strict f)).

(** The local variables of [discover_all_videos] together with the world. *)
Record DiscoveryState := {
  processed_count : nat;
  skipped_count : nat;
  saved_count : nat;
  batch_videos : list string;
  found_last_video : bool;
  disc_world : World
}.

Definition batch_size : nat := 50.

(** One pass through [for video in video_generator]. *)
Definition discover_step (E : Env) (identifier : string) (f : Filters)
    (last : option string) (video : VideoDict) (st : DiscoveryState) : DiscoveryState :=
  let vid := default EmptyString (videoId video) in
  if negb (found_last_video st) then
    if bool_decide (Some vid = last) then
      {| processed_count := processed_count st; skipped_count := skipped_count st;
         saved_count := saved_count st; batch_videos := batch_videos st;
         found_last_video := true; disc_world := disc_world st |}
    else st
  else if is_video_exists vid (disc_world st) then
    {| processed_count := processed_count st; skipped_count := S (skipped_count st);
       saved_count := saved_count st; batch_videos := batch_videos st;
       found_last_video := found_last_video st; disc_world := disc_world st |}
  else
    let video_data := extract_video_data video in
    if negb (passes_filters E f video_data) then
      {| processed_count := processed_count st; skipped_count := S (skipped_count st);
         saved_count := saved_count st; batch_videos := batch_videos st;
         found_last_video := found_last_video st; disc_world := disc_world st |}
    else
      let '(saved, w1) := save_video (discovery_row video_data) (Some identifier)
                            (disc_world st) in
      let st1 :=
        if saved then
          {| processed_count := S (processed_count st); skipped_count := skipped_count st;
             saved_count := S (saved_count st);
             batch_videos := batch_videos st ++ [vid];
             found_last_video := found_last_video st; disc_world := w1 |}
        else
          {| processed_count := processed_count st; skipped_count := skipped_count st;
             saved_count := saved_count st; batch_videos := batch_videos st;
             found_last_video := found_last_video st; disc_world := w1 |} in
      if (processed_count st1 mod batch_size =? 0)%nat then
        {| processed_count := processed_count st1; skipped_count := skipped_count st1;
           saved_count := saved_count st1; batch_videos := batch_videos st1;
           found_last_video := found_last_video st1;
           disc_world := sleep 100 (update_progress identifier vid (saved_count st1)
                                      (disc_world st1)) |}
      else st1.

(** The whole [for] loop; [Some e] when the generator raised. *)
Fixpoint discover_loop (E : Env) (identifier : string) (f : Filters)
    (last : option string) (g : Generator) (st : DiscoveryState)
  : option Exn * DiscoveryState :=
  match g with
  | GenDone => (None, st)
  | GenRaise msg => (Some (PyException msg), st)
  | GenYield video rest =>
      discover_loop E identifier f last rest (discover_step E identifier f last video st)
  end.

(** [update_progress(identifier, batch_videos[-1], saved_count)] when the
    batch is not empty. *)
Definition checkpoint (identifier : string) (st : DiscoveryState) : DiscoveryState :=
  match last (batch_videos st) with
  | Some vid =>
      {| processed_count := processed_count st; skipped_count := skipped_count st;
         saved_count := saved_count st; batch_videos := batch_videos st;
         found_last_video := found_last_video st;
         disc_world := update_progress identifier vid (saved_count st) (disc_world st) |}
  | None => st
  end.

(** The progress key: the channel name, or [playlist_<id>]. *)
Definition discovery_identifier (channel_username playlist_id : option string) : string :=
  if Text.truthy_opt channel_username then default EmptyString channel_username
  else "playlist_" ++ default "None" playlist_id.

(** [discover_all_videos]: the number of new videos and the world it
    leaves.  [g] is what the enumeration collaborator yields. *)
Definition discover_all_videos (E : Env) (channel_username playlist_id : option string)
    (f : Filters) (g : Generator) (w : World) : nat * World :=
  let identifier := discovery_identifier channel_username playlist_id in
  let progress := get_progress identifier w in
  let start_count := total_scraped progress in
  let last := last_video_id progress in
  let st0 :=
    {| processed_count := 0; skipped_count := 0; saved_count := start_count;
       batch_videos := []; found_last_video := negb (Text.truthy_opt last);
       disc_world := w |} in
  let '(raised, st1) := discover_loop E identifier f last g st0 in
  let st2 := match raised with Some _ => checkpoint identifier st1 | None => st1 end in
  let st3 := checkpoint identifier st2 in
  (saved_count st3 - start_count, disc_world st3).

(* ===================================================================== *)
(** * Observations on the ledger *)
(* ===================================================================== *)

(** The per-language subtitle status stored for an item, if any. *)
Definition stored_subtitle_status (w : World) (vid lang : string) : option string :=
  match find_row vid (videos w) with
  | Some r =>
      match subtitles_completed (completion r) with
      | Some m => m !! lang
      | None => None
      end
  | None => None
  end.

(** The overall status stored for an item, if any. *)
Definition stored_processing_status (w : World) (vid : string) : option string :=
  match find_row vid (videos w) with
  | Some r => processing_status (completion r)
  | None => None
  end.

(** The media flag stored for an item, if any. *)
Definition stored_media_completed (w : World) (vid : string) : option bool :=
  match find_row vid (videos w) with
  | Some r => media_completed (completion r)
  | None => None
  end.


(** Rows in first-seen order. *)
Definition by_scraped_at (a b : Row) : Prop := (scraped_at a <= scraped_at b)%N.

(** The state the evaluator leaves behind once it has downgraded a
    language: the per-language flag reads ['missing'] and the overall
    status ['partial']. *)
Definition downgraded (w : World) (vid lang : string) : Prop :=
  stored_subtitle_status w vid lang = Some "missing" /\
  stored_processing_status w vid = Some "partial".

(** [cmd] asks the fetch collaborator for captions of [vid] in [lang]. *)
Definition requests_subtitles (vid lang : string) (cmd : Cmd) : bool :=
  match cmd with
  | CmdManualSubs v l | CmdAutoSubs v l => String.eqb v vid && String.eqb l lang
  | _ => false
  end.

(** [cmd] is a caption request for [vid] in one of [langs]. *)
Definition subtitle_cmd_for (vid : string) (langs : list string) (cmd : Cmd) : Prop :=
  exists l, In l langs /\ (cmd = CmdManualSubs vid l \/ cmd = CmdAutoSubs vid l).

(** [cmd] is the existence probe or a media download. *)
Definition media_cmd (cmd : Cmd) : Prop :=
  match cmd with
  | CmdQuickCheck _ | CmdMedia _ _ | CmdAlternative _ _ _ => True
  | _ => False
  end.

(** A stretch of execution that leaves the ledger alone and issues only
    commands satisfying [P]. *)
Definition fetches (P : Cmd -> Prop) (w w' : World) : Prop :=
  videos w' = videos w /\ scraping_progress w' = scraping_progress w /\
  exists issued, calls w' = (issued ++ calls w)%list /\ Forall P issued.

(** Every run of [m] relates the state it starts from to the state it
    ends in, whether it returns or raises. *)
Definition respects {S A} (R : S -> S -> Prop) (m : M S A) : Prop :=
  forall s, R s (snd (m s)).

(** A relation on worlds, read on a state that carries one. *)
Definition on {S} (proj : S -> World) (R : World -> World -> Prop) : S -> S -> Prop :=
  fun s s' => R (proj s) (proj s').

(** The language is marked terminal for the item. *)
Definition terminal (vid lang : string) (w : World) : Prop :=
  stored_subtitle_status w vid lang = Some "not_available".

(** A stretch of execution that, started with [lang] terminal for [vid],
    keeps it terminal and never requests captions of [vid] in [lang]. *)
Definition quiet (vid lang : string) (w w' : World) : Prop :=
  terminal vid lang w ->
  terminal vid lang w' /\
  exists issued, calls w' = (issued ++ calls w)%list /\
                 Forall (fun c => requests_subtitles vid lang c = false) issued.




(** The descriptors a generator yields before it ends or raises. *)
Fixpoint gen_items (g : Generator) : list VideoDict :=
  match g with
  | GenYield video rest => video :: gen_items rest
  | _ => []
  end.

(** A generator that yields the given descriptors and ends. *)
Fixpoint gen_of (videos : list VideoDict) : Generator :=
  match videos with
  | [] => GenDone
  | v :: rest => GenYield v (gen_of rest)
  end.

(** [video.get('videoId', '')] *)
Definition video_key (video : VideoDict) : string := default EmptyString (videoId video).

(** The row Discovery stores for a descriptor under [identifier] at time
    [t]. *)
Definition saved_row (identifier : string) (t : N) (video : VideoDict) : Row :=
  let r := discovery_row (extract_video_data video) in
  {| video_id := video_id r; channel_name := Some identifier; meta := meta r;
     subtitle_cols := subtitle_cols r; media_cols := media_cols r; scraped_at := t;
     completion := completion r |}.

(* ===================================================================== *)
(** * Sample ledgers and collaborators *)
(* ===================================================================== *)

(** A descriptor that carries only an id, a title and a duration. *)
Definition plain_video (vid name duration : string) : VideoDict :=
  {| videoId := Some vid; title_runs := Some [name]; description_runs := None;
     lengthText := Some duration; thumbnails := None; ownerBadges := None |}.

(** The row Discovery writes for [plain_video vid vid ""], first seen at
    [t], with the overall status replaced by [status]. *)
Definition sample_row (vid : string) (t : N) (status : option string) : Row :=
  let r := discovery_row (extract_video_data (plain_video vid vid EmptyString)) in
  {| video_id := vid; channel_name := Some "channel"; meta := meta r;
     subtitle_cols := subtitle_cols r; media_cols := media_cols r; scraped_at := t;
     completion :=
       {| metadata_completed := Some true; subtitles_completed := None;
          media_completed := Some false; processing_status := status;
          last_processing_step := None; completion_details := None |} |}.

Definition empty_fs : FS := {| subtitle_files := ∅; media_files := [] |}.

Definition world_of (rows : list Row) (fs : FS) : World :=
  {| videos := rows; scraping_progress := ∅; files := fs; calls := []; clock := 0%N |}.

(** A collaborator that is unreachable: every command exits with an
    error and writes nothing. *)
Definition offline_env : Env :=
  {| fetch := fun _ _ fs => (ProcCompleted 1 "ERROR: network is unreachable", fs);
     re_search := fun _ _ => Some true;
     relative_to_cwd := fun p => Some p;
     isoformat := fun _ => "2025-01-01T00:00:00";
     randint_3_10 := fun _ => 3%N;
     subtitles_dir := "subtitles";
     media_dir := "audio" |}.

Definition with_subtitle_status (m : gmap string string) (r : Row) : Row :=
  with_completion
    {| metadata_completed := metadata_completed (completion r);
       subtitles_completed := Some m;
       media_completed := media_completed (completion r);
       processing_status := processing_status (completion r);
       last_processing_step := last_processing_step (completion r);
       completion_details := completion_details (completion r) |} r.

(** One item whose English captions are recorded as finished although no
    file is on disk. *)
Definition stale_world : World :=
  world_of [with_subtitle_status {[ "en" := "completed" ]}
              (sample_row "v" 1 (Some "completed"))] empty_fs.

(** One item whose English captions are recorded as not available. *)
Definition terminal_world : World :=
  world_of [with_subtitle_status {[ "en" := "not_available" ]}
              (sample_row "v" 1 (Some "partial"))] empty_fs.

Definition no_filters : Filters :=
  {| title_pattern := None; min_duration_minutes := None;
     max_duration_minutes := None; duration_filter_strict := false |}.

(** The enumeration [A, B, C, D, E]. *)
Definition five_videos : list VideoDict :=
  [plain_video "A" "first" "10:00"; plain_video "B" "second" "1:00:00";
   plain_video "C" "third" "5:30"; plain_video "D" "fourth" "12:34";
   plain_video "E" "fifth" "59"].

(** A ledger that holds [A], [B], [C] for the channel, with the cursor at
    [last]. *)
Definition resumed_world (last : string) : World :=
  {| videos := List.map (saved_row "channel" 0) (take 3 five_videos);
     scraping_progress :=
       {[ "channel" := {| last_video_id := Some last; total_scraped := 3;
                          last_updated := Some 0%N |} ]};
     files := empty_fs; calls := []; clock := 5000%N |}.


(** A collaborator behind an active block: the existence probe still
    answers, every download at every rung is refused with a
    bot-detection message. *)
Definition blocked_env : Env :=
  {| fetch := fun _ cmd fs =>
       match cmd with
       | CmdQuickCheck _ => (ProcCompleted 0 "", fs)
       | _ => (ProcCompleted 1 "ERROR: [youtube] Sign in to confirm you're not a bot", fs)
       end;
     re_search := fun _ _ => Some true;
     relative_to_cwd := fun p => Some p;
     isoformat := fun _ => "2025-01-01T00:00:00";
     randint_3_10 := fun _ => 3%N;
     subtitles_dir := "subtitles";
     media_dir := "audio" |}.

(** One discovered item waiting for its media. *)
Definition one_item_world : World :=
  world_of [sample_row "v" 1 (Some "metadata_only")] empty_fs.

(** Two discovered items waiting for their media, [v1] first. *)
Definition two_item_world : World :=
  world_of [sample_row "v1" 1 (Some "metadata_only");
            sample_row "v2" 2 (Some "metadata_only")] empty_fs.

(* ===================================================================== *)
(** * Further vocabulary for the ledger and the collaborators *)
(* ===================================================================== *)

(** What identifies a row and never changes after Discovery wrote it. *)
Definition row_identity (r : Row) : string * option string * Metadata * N :=
  (video_id r, channel_name r, meta r, scraped_at r).

(** A stretch of execution that neither adds, removes, reorders nor
    re-describes a ledger row, and leaves the cursor table alone. *)
Definition same_ledger_shape (w w' : World) : Prop :=
  List.map row_identity (videos w') = List.map row_identity (videos w) /\
  scraping_progress w' = scraping_progress w.

(** A stretch of execution that issues at most [n] commands. *)
Definition issues_at_most (n : nat) (w w' : World) : Prop :=
  exists issued, calls w' = (issued ++ calls w)%list /\ (List.length issued <= n)%nat.

(** The row [save_video] leaves for [video_data] in [w]. *)
Definition stored_row (video_data : Row) (channel : option string) (w : World) : Row :=
  {| video_id := video_id video_data; channel_name := channel;
     meta := meta video_data; subtitle_cols := subtitle_cols video_data;
     media_cols := media_cols video_data; scraped_at := now w;
     completion := completion video_data |}.

(** The number of rows that hold a key. *)
Definition rows_with_key (vid : string) (rows : list Row) : nat :=
  List.length (List.filter (fun r => String.eqb (video_id r) vid) rows).

(** The key of [max(thumbnails, key=...)]: width times height. *)
Definition area (t : Thumbnail) : Z := (thumb_width t * thumb_height t)%Z.


(** One discovered item beside which an interrupted download left a
    five-megabyte [.part] file. *)
Definition partial_download_world : World :=
  world_of [sample_row "v" 1 (Some "metadata_only")]
    {| subtitle_files := ∅; media_files := [("v.mp3.part", 5242880%N)] |}.

(** One discovered item whose two English caption files exist and are
    empty. *)
Definition empty_captions_world : World :=
  world_of [sample_row "v" 1 (Some "metadata_only")]
    {| subtitle_files := {[ ("en", "v_manual.srt") := 0%N; ("en", "v_auto.srt") := 0%N ]};
       media_files := [] |}.


(** One discovered item with a finished two-megabyte download beside a
    stray [.part] file. *)
Definition finished_media_world : World :=
  world_of [sample_row "v" 1 (Some "metadata_only")]
    {| subtitle_files := ∅;
       media_files := [("v.mp3.part", 1%N); ("v.mp3", 2097152%N)] |}.

(** A collaborator for which every video has been taken down. *)
Definition deleted_env : Env :=
  {| fetch := fun _ _ fs => (ProcCompleted 1 "ERROR: [youtube] v: Video unavailable", fs);
     re_search := fun _ _ => Some true;
     relative_to_cwd := fun p => Some p;
     isoformat := fun _ => "2025-01-01T00:00:00";
     randint_3_10 := fun _ => 3%N;
     subtitles_dir := "subtitles";
     media_dir := "audio" |}.

(** What Discovery writes for a new item under [identifier], seen from a
    ledger [w0] it started from. *)
Definition discovered_row (identifier : string) (w0 : World) (r : Row) : Prop :=
  channel_name r = Some identifier /\
  processing_status (completion r) = Some "metadata_only" /\
  metadata_completed (completion r) = Some true /\
  download_status (media_cols r) = Some "pending" /\
  is_video_exists (video_id r) w0 = false.

(** The loop invariant of [discover_all_videos]: started from [w0] with
    [start] items counted, the loop has appended the rows [added] and
    nothing else. *)
Definition discovery_invariant (identifier : string) (w0 : World) (start : nat)
    (added : list Row) (st : DiscoveryState) : Prop :=
  videos (disc_world st) = (videos w0 ++ added)%list /\
  saved_count st = start + List.length added /\
  batch_videos st = List.map video_id added /\
  Forall (discovered_row identifier w0) added /\
  NoDup (List.map video_id added) /\
  files (disc_world st) = files w0 /\
  calls (disc_world st) = calls w0 /\
  (forall other, other <> identifier ->
                 scraping_progress (disc_world st) !! other = scraping_progress w0 !! other) /\
  (added = [] -> scraping_progress (disc_world st) = scraping_progress w0).

(* ===================================================================== *)
(** * Initialisation from files, the drivers and the statistics *)
(* ===================================================================== *)

(** The [for lang in subtitle_languages] loop of
    [initialize_completion_status_from_files]: the dictionary
    [subtitles_status]. *)
Fixpoint subtitles_status_from_files (fs : FS) (vid : string) (langs : list string)
    (status : gmap string string) : gmap string string :=
  match langs with
  | [] => status
  | lang :: rest =>
      subtitles_status_from_files fs vid rest
        (<[lang := if subtitle_files_exist fs lang vid
                   then "completed" else "not_available"]> status)
  end.

(** The media scan of the initialisation: any file of the item above one
    MiB, whatever its suffix. *)
Definition any_file_above_threshold (vid : string) (fs : FS) : bool :=
  existsb (fun f => (MB <? snd f)%N) (glob_media vid fs).

(** [initialize_completion_status_from_files].  The details object it
    stores holds two booleans and a nested object; they are kept as their
    JSON text, [json_dumps] giving that of the nested one. *)
Definition initialize_completion_status_from_files (E : Env)
    (json_dumps : gmap string string -> string) (vid : string)
    (subtitle_languages : list string) (download_media : bool) (w : World) : World :=
  match find_row vid (videos w) with
  | None => w
  | Some r =>
      if bool_decide (metadata_completed (completion r) <> None) then w
      else
        let subtitles_status :=
          subtitles_status_from_files (files w) vid subtitle_languages ∅ in
        let new_media_completed :=
          if download_media then any_file_above_threshold vid (files w) else false in
        let all_subtitles_done :=
          if bool_decide (subtitle_languages = []) then true
          else bool_decide (map_Forall (fun _ status => status = "completed")
                              subtitles_status) in
        let status :=
          if all_subtitles_done && (new_media_completed || negb download_media)
          then "completed" else "partial" in
        let details : gmap string string :=
          {[ "initialized_from_files" := "true";
             "initialization_time" := isoformat E (now w);
             "subtitle_files_found" := json_dumps subtitles_status;
             "media_file_found" := if new_media_completed then "true" else "false" ]} in
        with_videos
          (update_rows vid
             (with_completion
                {| metadata_completed := Some true;
                   subtitles_completed := Some subtitles_status;
                   media_completed := Some new_media_completed;
                   processing_status := Some status;
                   last_processing_step := Some "initialized_from_files";
                   completion_details := Some details |})
             (videos w)) w
  end.

(** [scrape_channel]: Discovery, then Acquisition unless both downloads
    are off.  The result is the three counts it logs. *)
Definition scrape_channel (E : Env) (channel_username : string) (sleep_interval : N)
    (download_subtitles : bool) (subtitle_languages : list string)
    (download_media audio_only : bool) (f : Filters) (g : Generator) (w : World)
  : (nat * nat * nat) * World :=
  let '(discovered_count, w1) :=
    discover_all_videos E (Some channel_username) None f g w in
  if download_subtitles || download_media then
    let '(success_count, failed_count, w2) :=
      download_all_missing E download_subtitles subtitle_languages download_media
        audio_only sleep_interval w1 in
    ((discovered_count, success_count, failed_count), w2)
  else ((discovered_count, 0, 0), w1).

(** [scrape_playlist] *)
Definition scrape_playlist (E : Env) (playlist_id : string) (sleep_interval : N)
    (download_subtitles : bool) (subtitle_languages : list string)
    (download_media audio_only : bool) (f : Filters) (g : Generator) (w : World)
  : (nat * nat * nat) * World :=
  let '(discovered_count, w1) :=
    discover_all_videos E None (Some playlist_id) f g w in
  if download_subtitles || download_media then
    let '(success_count, failed_count, w2) :=
      download_all_missing E download_subtitles subtitle_languages download_media
        audio_only sleep_interval w1 in
    ((discovered_count, success_count, failed_count), w2)
  else ((discovered_count, 0, 0), w1).

(** [identifier_name] as [main] computes it from [--playlist] and the
    positional argument: the name of the download directory and of the
    database. *)
Definition identifier_name (playlist : bool) (input_identifier : string) : string :=
  if playlist then "playlist_" ++ input_identifier else input_identifier.

(** SQL's [MIN] and [MAX] over a column: [NULL] on no rows. *)
Definition sql_min (xs : list N) : option N :=
  match xs with
  | [] => None
  | x :: rest => Some (fold_left N.min rest x)
  end.

Definition sql_max (xs : list N) : option N :=
  match xs with
  | [] => None
  | x :: rest => Some (fold_left N.max rest x)
  end.

Record Stats := {
  total_videos : nat;
  verified_channel_videos : nat;
  first_scraped : option N;
  last_scraped : option N
}.

(** [get_stats] *)
Definition get_stats (w : World) : Stats :=
  {| total_videos := List.length (videos w);
     verified_channel_videos :=
       List.length (List.filter (fun r => channel_verified (meta r)) (videos w));
     first_scraped := sql_min (List.map scraped_at (videos w));
     last_scraped := sql_max (List.map scraped_at (videos w)) |}.

(* ===================================================================== *)
(** * The batch runner ([batch_youtube_scraper.py]) *)
(* ===================================================================== *)

Module Batch.

Inductive SourceType := Channel | Playlist.

Record Source := {
  source_type : SourceType;
  identifier : string;
  original : string;
  line_num : nat
}.

(** [s[n:]] *)
Fixpoint drop_chars (n : nat) (s : string) : string :=
  match n, s with
  | S k, String _ r => drop_chars k r
  | _, _ => s
  end.

(** The body of the loop over the lines of the sources file: [None] is
    [continue]. *)
Definition parse_line (n : nat) (raw : string) : option Source :=
  let line := Text.strip raw in
  if negb (Text.truthy line) || String.prefix "#" line then None
  else
    let line := if String.prefix "@" line then drop_chars 1 line else line in
    if String.prefix "playlist_" line then
      Some {| source_type := Playlist; identifier := drop_chars 9 line;
              original := line; line_num := n |}
    else
      Some {| source_type := Channel; identifier := line;
              original := line; line_num := n |}.

(** [for line_num, line in enumerate(f, 1)] *)
Fixpoint read_lines (n : nat) (lines : list string) : list Source :=
  match lines with
  | [] => []
  | raw :: rest =>
      match parse_line n raw with
      | Some s => s :: read_lines (S n) rest
      | None => read_lines (S n) rest
      end
  end.

(** [read_sources]: [None] is a file that does not exist or cannot be
    read to its end; both give the empty list. *)
Definition read_sources (file : option (list string)) : list Source :=
  match file with
  | Some lines => read_lines 1 lines
  | None => []
  end.

(** How the child process of [run_scraper] can end. *)
Inductive ChildExit :=
| Exited (returncode : Z)
| Interrupted
| Crashed (msg : string).

(** The command line [run_scraper] builds. *)
Definition command (additional_args : list string) (s : Source) : list string :=
  (["python"; "youtube_scraper.py"; identifier s]
   ++ (match source_type s with Playlist => ["--playlist"] | Channel => [] end)
   ++ additional_args)%list.

(** [run_scraper]: [None] is [KeyboardInterrupt], which it re-raises. *)
Definition run_scraper (child : list string -> ChildExit) (additional_args : list string)
    (s : Source) : option bool :=
  match child (command additional_args s) with
  | Exited rc => Some (rc =? 0)%Z
  | Interrupted => None
  | Crashed _ => Some false
  end.

(** The counters of [BatchYouTubeScraper] and the seconds slept. *)
Record Counters := {
  total_sources : nat;
  processed_sources : nat;
  successful_sources : nat;
  failed_sources : list string;
  slept : N
}.

(** [for i, source in enumerate(sources, 1)]; [child k] answers the
    [k]-th child process.  An interrupt leaves the loop. *)
Fixpoint process_loop (child : nat -> list string -> ChildExit)
    (additional_args : list string) (sources : list Source) (i count : nat)
    (p : Counters) : Counters :=
  match sources with
  | [] => p
  | s :: rest =>
      let p1 := {| total_sources := total_sources p;
                   processed_sources := S (processed_sources p);
                   successful_sources := successful_sources p;
                   failed_sources := failed_sources p; slept := slept p |} in
      match run_scraper (child i) additional_args s with
      | None => p1
      | Some ok =>
          let p2 :=
            if ok then
              {| total_sources := total_sources p1;
                 processed_sources := processed_sources p1;
                 successful_sources := S (successful_sources p1);
                 failed_sources := failed_sources p1; slept := slept p1 |}
            else
              {| total_sources := total_sources p1;
                 processed_sources := processed_sources p1;
                 successful_sources := successful_sources p1;
                 failed_sources := (failed_sources p1 ++ [original s])%list;
                 slept := slept p1 |} in
          let p3 :=
            if (i <? count)%nat then
              {| total_sources := total_sources p2;
                 processed_sources := processed_sources p2;
                 successful_sources := successful_sources p2;
                 failed_sources := failed_sources p2; slept := (slept p2 + 30)%N |}
            else p2 in
          process_loop child additional_args rest (S i) count p3
      end
  end.

(** [process_all]: the counters it reports in its summary. *)
Definition process_all (child : nat -> list string -> ChildExit)
    (additional_args : list string) (file : option (list string)) : Counters :=
  let sources := read_sources file in
  let counted := {| total_sources := List.length sources; processed_sources := 0;
                    successful_sources := 0; failed_sources := []; slept := 0%N |} in
  match sources with
  | [] => counted
  | _ => process_loop child additional_args sources 1 (List.length sources) counted
  end.

End Batch.

(* ===================================================================== *)
(** * The channel database creator ([youtube_channel_db_creator.py]) *)
(* ===================================================================== *)

Module ChannelDb.

(** [_sanitize_channel_username] *)
Definition _sanitize_channel_username (raw : option string) : string :=
  match raw with
  | None => EmptyString
  | Some text =>
      let value := Text.strip text in
      if String.prefix "@" value then Batch.drop_chars 1 value else value
  end.

(** [load_channels_from_file], on the lines of the file. *)
Fixpoint load_channels_from_file (lines : list string) : list string :=
  match lines with
  | [] => []
  | line :: rest =>
      let stripped := Text.strip line in
      if negb (Text.truthy stripped) || String.prefix "#" stripped
      then load_channels_from_file rest
      else
        let username := _sanitize_channel_username (Some stripped) in
        if Text.truthy username then username :: load_channels_from_file rest
        else load_channels_from_file rest
  end.

End ChannelDb.

(** A row written before completion tracking existed -- every completion
    column [NULL] -- with non-empty English captions on disk and no Persian
    ones. *)
Definition legacy_world : World :=
  world_of
    [with_completion
       {| metadata_completed := None; subtitles_completed := None;
          media_completed := None; processing_status := None;
          last_processing_step := None; completion_details := None |}
       (sample_row "v" 1 None)]
    {| subtitle_files := {[ ("en", "v_auto.srt") := 2048%N ]}; media_files := [] |}.

(** The metadata flag stored for an item, if any. *)
Definition stored_metadata_completed (w : World) (vid : string) : option bool :=
  match find_row vid (videos w) with
  | Some r => metadata_completed (completion r)
  | None => None
  end.

(** A requested language the evaluator lists as missing: not stored as
    ['not_available'], and without a non-empty caption file. *)
Definition language_missing (stored : gmap string string) (fs : FS) (vid lang : string)
  : bool :=
  negb (bool_decide (stored !! lang = Some "not_available")) &&
  negb (subtitle_files_exist fs lang vid).

(** Every run of [m] issues at most [n] commands, whether it returns or
    raises. *)
Definition issues {S A} (proj : S -> World) (n : nat) (m : M S A) : Prop :=
  forall s, issues_at_most n (proj s) (proj (snd (m s))).

(* ===================================================================== *)
(** * Theorems *)
(* ===================================================================== *)

(** ** Facts about the text primitives *)

Section TextFacts.
Import Text.

Lemma lstrip_idem s : lstrip (lstrip s) = lstrip s.
Proof.
  induction s as [|c r IH]; simpl; [reflexivity|].
  destruct (is_space c) eqn:Hc; [exact IH|]. simpl. now rewrite Hc.
Qed.

Lemma rstrip_cons_nonspace c r :
  is_space c = false -> rstrip (String c r) = String c (rstrip r).
Proof. intros Hc. simpl. rewrite Hc. now destruct (rstrip r). Qed.

Lemma rstrip_cons c r :
  rstrip (String c r) =
  match rstrip r with
  | EmptyString => if is_space c then EmptyString else String c EmptyString
  | t => String c t
  end.
Proof. reflexivity. Qed.

Lemma rstrip_idem s : rstrip (rstrip s) = rstrip s.
Proof.
  induction s as [|c r IH]; [reflexivity|].
  rewrite (rstrip_cons c r). destruct (rstrip r) as [|d t] eqn:Hr.
  - destruct (is_space c) eqn:Hc; [reflexivity|].
    rewrite rstrip_cons. simpl. now rewrite Hc.
  - rewrite rstrip_cons, IH. reflexivity.
Qed.

Lemma lstrip_rstrip s : lstrip (rstrip s) = rstrip (lstrip s).
Proof.
  induction s as [|c r IH]; simpl; [reflexivity|].
  destruct (is_space c) eqn:Hc.
  - destruct (rstrip r) as [|d t] eqn:Hr.
    + rewrite <- IH. reflexivity.
    + rewrite <- IH. simpl. now rewrite Hc.
  - rewrite (rstrip_cons_nonspace c r Hc).
    destruct (rstrip r); simpl; now rewrite Hc.
Qed.

Lemma strip_idem s : strip (strip s) = strip s.
Proof.
  unfold strip. rewrite lstrip_rstrip, lstrip_idem, rstrip_idem. reflexivity.
Qed.






Lemma py_int_empty : py_int EmptyString = None.
Proof. reflexivity. Qed.







End TextFacts.

(** ** Duration parsing *)








(** ** The acquisition queue *)

Lemma insert_by_scraped_at_perm r l :
  Permutation (insert_by_scraped_at r l) (r :: l).
Proof.
  induction l as [|x l IH]; simpl; [reflexivity|].
  destruct (scraped_at r <=? scraped_at x)%N; [reflexivity|].
  rewrite IH. apply perm_swap.
Qed.

Lemma order_by_scraped_at_perm l : Permutation (order_by_scraped_at l) l.
Proof.
  induction l as [|x l IH]; simpl; [reflexivity|].
  rewrite insert_by_scraped_at_perm. now constructor.
Qed.

Lemma insert_by_scraped_at_sorted r l :
  Sorted by_scraped_at l -> Sorted by_scraped_at (insert_by_scraped_at r l).
Proof.
  induction l as [|x l IH]; simpl; intros Hs.
  - repeat constructor.
  - destruct (scraped_at r <=? scraped_at x)%N eqn:Hle.
    + constructor; [assumption|]. constructor. now apply N.leb_le.
    + apply N.leb_gt in Hle. inversion Hs as [|? ? Hl Hhd]; subst.
      constructor; [now apply IH|].
      destruct l as [|y l]; simpl.
      * constructor. unfold by_scraped_at. lia.
      * destruct (scraped_at r <=? scraped_at y)%N.
        -- constructor. unfold by_scraped_at. lia.
        -- constructor. now inversion Hhd.
Qed.

Lemma order_by_scraped_at_sorted l : Sorted by_scraped_at (order_by_scraped_at l).
Proof.
  induction l as [|x l IH]; simpl; [constructor|].
  now apply insert_by_scraped_at_sorted.
Qed.

(** The [WHERE] clause holds exactly for a stored, non-NULL status other
    than ['completed']. *)
Lemma where_not_completed r :
  sql_where (sql_ne (processing_status (completion r)) "completed") = true <->
  exists st, processing_status (completion r) = Some st /\ st <> "completed".
Proof.
  unfold sql_where, sql_ne. destruct (processing_status (completion r)) as [st|].
  - destruct (String.eqb st "completed") eqn:He; simpl.
    + apply String.eqb_eq in He. split; [discriminate|].
      intros (st' & [= <-] & Hne). contradiction.
    + apply String.eqb_neq in He. split; [eauto|reflexivity].
  - split; [discriminate|]. now intros (st & Hst & _).
Qed.

(** C7, as the code has it.  The acquisition queue holds exactly the rows
    whose stored overall status is a non-NULL value other than
    ['completed'], each as often as it is stored, in non-decreasing
    [scraped_at] order; [download_all_missing] walks that queue front to
    back. *)
Theorem C7_queue_is_non_null_incomplete_by_scraped_at :
  forall rows,
    (forall r, In r (select_incomplete rows) <->
               In r rows /\
               exists st, processing_status (completion r) = Some st /\ st <> "completed") /\
    Permutation (select_incomplete rows)
      (List.filter (fun r => sql_where (sql_ne (processing_status (completion r)) "completed"))
                   rows) /\
    Sorted by_scraped_at (select_incomplete rows) /\
    (forall E subs langs media audio pause w,
        videos w = rows ->
        download_all_missing E subs langs media audio pause w =
        acquire_loop E subs langs media audio pause
          (List.map (fun r => (video_id r, title (meta r))) (select_incomplete rows))
          1 0 0 w).
Proof.
  intros rows. split; [|split; [|split]].
  - intros r. unfold select_incomplete. split.
    + intros Hin.
      apply (Permutation_in _ (order_by_scraped_at_perm _)) in Hin.
      apply filter_In in Hin as [Hin Hw]. split; [assumption|].
      now apply where_not_completed.
    + intros [Hin Hst].
      apply (Permutation_in _ (Permutation_sym (order_by_scraped_at_perm _))).
      apply filter_In. split; [assumption|]. now apply where_not_completed.
  - apply order_by_scraped_at_perm.
  - apply order_by_scraped_at_sorted.
  - intros E subs langs media audio pause w <-. reflexivity.
Qed.

Lemma C7_queue_witness :
  select_incomplete
    [sample_row "b" 7 (Some "partial"); sample_row "done" 1 (Some "completed");
     sample_row "a" 3 (Some "metadata_only")]
  = [sample_row "a" 3 (Some "metadata_only"); sample_row "b" 7 (Some "partial")] /\
  forall E, download_all_missing E false [] false true 0
              (world_of [sample_row "done" 1 (Some "completed")] empty_fs)
            = (0, 0, world_of [sample_row "done" 1 (Some "completed")] empty_fs).
Proof.
  split; [reflexivity|]. intros E.
  destruct (C7_queue_is_non_null_incomplete_by_scraped_at
              [sample_row "done" 1 (Some "completed")]) as (_ & _ & _ & Hrun).
  rewrite (Hrun E false [] false true 0%N
             (world_of [sample_row "done" 1 (Some "completed")] empty_fs) eq_refl).
  reflexivity.
Defined.

(** C7 as claimed fails: a row whose status is NULL is not ['completed'],
    yet the query leaves it out. *)
Lemma C7_null_status_row_is_left_out :
  ~ (forall rows r,
        In r rows -> processing_status (completion r) <> Some "completed" ->
        In r (select_incomplete rows)).
Proof.
  intros H.
  specialize (H [sample_row "legacy" 1 None] (sample_row "legacy" 1 None)).
  simpl in H. apply H; [now left | discriminate].
Qed.

(** ** Facts about the ledger store *)

Lemma find_row_update_same vid f rows :
  (forall r, video_id (f r) = video_id r) ->
  find_row vid (update_rows vid f rows) = f <$> find_row vid rows.
Proof.
  intros Hid. unfold find_row, update_rows.
  induction rows as [|r rows IH]; simpl; [reflexivity|].
  destruct (String.eqb (video_id r) vid) eqn:Hr; simpl.
  - now rewrite Hid, Hr.
  - now rewrite Hr.
Qed.

Lemma find_row_update_other u vid f rows :
  (forall r, video_id (f r) = video_id r) -> u <> vid ->
  find_row vid (update_rows u f rows) = find_row vid rows.
Proof.
  intros Hid Hne. unfold find_row, update_rows.
  induction rows as [|r rows IH]; simpl; [reflexivity|].
  destruct (String.eqb (video_id r) u) eqn:Hu; simpl.
  - apply String.eqb_eq in Hu. rewrite Hid.
    destruct (String.eqb (video_id r) vid) eqn:Hv.
    + apply String.eqb_eq in Hv. congruence.
    + exact IH.
  - destruct (String.eqb (video_id r) vid); [reflexivity | exact IH].
Qed.

Lemma find_row_video_id vid rows r :
  find_row vid rows = Some r -> video_id r = vid.
Proof.
  unfold find_row. intros H. apply find_some in H as [_ H].
  now apply String.eqb_eq.
Qed.

(** What [update_video_completion_status] leaves in the row it targets. *)
Lemma update_status_row E vid mc sc dc ps ls w r :
  find_row vid (videos w) = Some r ->
  find_row vid (videos (update_video_completion_status E vid mc sc dc ps ls w)) =
  Some (with_completion
          {| metadata_completed :=
               match mc with Some b => Some b | None => metadata_completed (completion r) end;
             subtitles_completed :=
               match sc with
               | Some d => Some (d ∪ default ∅ (subtitles_completed (completion r)))
               | None => subtitles_completed (completion r)
               end;
             media_completed :=
               match dc with Some b => Some b | None => media_completed (completion r) end;
             processing_status :=
               match ps with Some st => Some st | None => processing_status (completion r) end;
             last_processing_step :=
               match ls with Some st => Some st | None => last_processing_step (completion r) end;
             completion_details :=
               Some match ls with
                    | Some step =>
                        <["last_updated" := isoformat E (now w)]>
                          (<["last_step" := step]>
                             (default ∅ (completion_details (completion r))))
                    | None => default ∅ (completion_details (completion r))
                    end |} r).
Proof.
  intros Hr. unfold update_video_completion_status. simpl.
  rewrite find_row_update_same by reflexivity. rewrite Hr. reflexivity.
Qed.

Lemma update_status_other_row E u vid mc sc dc ps ls w :
  u <> vid ->
  find_row vid (videos (update_video_completion_status E u mc sc dc ps ls w)) =
  find_row vid (videos w).
Proof.
  intros Hne. unfold update_video_completion_status. simpl.
  now apply find_row_update_other.
Qed.

Lemma update_status_missing_row E vid mc sc dc ps ls w :
  find_row vid (videos w) = None ->
  find_row vid (videos (update_video_completion_status E vid mc sc dc ps ls w)) = None.
Proof.
  intros Hr. unfold update_video_completion_status. simpl.
  rewrite find_row_update_same by reflexivity. now rewrite Hr.
Qed.

Lemma update_status_frame E vid mc sc dc ps ls w :
  let w' := update_video_completion_status E vid mc sc dc ps ls w in
  files w' = files w /\ calls w' = calls w /\
  scraping_progress w' = scraping_progress w /\ clock w' = clock w.
Proof. unfold update_video_completion_status. simpl. auto. Qed.

(** An update that does not mention [lang] for [vid] keeps its stored
    subtitle status. *)
Lemma update_status_keeps_language E u vid lang mc sc dc ps ls w :
  (u = vid -> forall d, sc = Some d -> d !! lang = None) ->
  stored_subtitle_status (update_video_completion_status E u mc sc dc ps ls w) vid lang
  = stored_subtitle_status w vid lang.
Proof.
  intros Hsc. unfold stored_subtitle_status.
  destruct (decide (u = vid)) as [->|Hne].
  - destruct (find_row vid (videos w)) as [r|] eqn:Hr.
    + rewrite (update_status_row E vid mc sc dc ps ls w r Hr). simpl.
      destruct sc as [d|]; [|reflexivity].
      rewrite lookup_union_r by now apply Hsc.
      now destruct (subtitles_completed (completion r)).
    + now rewrite update_status_missing_row.
  - now rewrite update_status_other_row.
Qed.

(** An update that writes [lang] for [vid] stores the new value. *)
Lemma update_status_sets_language E vid lang value mc d dc ps ls w :
  is_Some (find_row vid (videos w)) -> d !! lang = Some value ->
  stored_subtitle_status (update_video_completion_status E vid mc (Some d) dc ps ls w) vid lang
  = Some value.
Proof.
  intros [r Hr] Hd. unfold stored_subtitle_status.
  rewrite (update_status_row E vid mc (Some d) dc ps ls w r Hr). simpl.
  now apply lookup_union_Some_l.
Qed.

Lemma update_status_sets_processing E vid st mc sc dc ls w :
  is_Some (find_row vid (videos w)) ->
  stored_processing_status (update_video_completion_status E vid mc sc dc (Some st) ls w) vid
  = Some st.
Proof.
  intros [r Hr]. unfold stored_processing_status.
  now rewrite (update_status_row E vid mc sc dc (Some st) ls w r Hr).
Qed.

Lemma update_status_keeps_existence E u vid mc sc dc ps ls w :
  is_Some (find_row vid (videos w)) ->
  is_Some (find_row vid (videos (update_video_completion_status E u mc sc dc ps ls w))).
Proof.
  intros [r Hr]. destruct (decide (u = vid)) as [->|Hne].
  - rewrite (update_status_row E vid mc sc dc ps ls w r Hr). eauto.
  - rewrite update_status_other_row by assumption. eauto.
Qed.

(** ** The Completion Evaluator *)


(** Only requested languages that are not marked ['not_available'] are
    ever added to the missing list. *)
Lemma check_languages_missing E vid stored langs :
  forall needs missing w l,
    let '(_, m', _) := check_subtitle_languages E vid stored langs needs missing w in
    In l m' -> In l missing \/ (In l langs /\ stored !! l <> Some "not_available").
Proof.
  induction langs as [|x langs IH]; intros needs missing w l; simpl; [auto|].
  destruct (bool_decide (stored !! x = Some "not_available")) eqn:Hna.
  { specialize (IH needs missing w l).
    destruct (check_subtitle_languages E vid stored langs needs missing w) as [[? m'] ?].
    intros H. destruct (IH H) as [?|[? ?]]; auto. }
  apply bool_decide_eq_false in Hna.
  destruct (subtitle_files_exist (files w) x vid).
  { specialize (IH needs missing w l).
    destruct (check_subtitle_languages E vid stored langs needs missing w) as [[? m'] ?].
    intros H. destruct (IH H) as [?|[? ?]]; auto. }
  match goal with
  | |- context [check_subtitle_languages E vid stored langs true ?m ?w1] =>
      specialize (IH true m w1 l);
      destruct (check_subtitle_languages E vid stored langs true m w1) as [[? m'] ?]
  end.
  intros H. destruct (IH H) as [Hm|[? ?]]; auto.
  apply in_app_or in Hm as [?|[<-|[]]]; auto.
Qed.

(** The loop only ever adds to its two accumulators. *)
Lemma check_languages_grows E vid stored langs :
  forall needs missing w,
    let '(n', m', _) := check_subtitle_languages E vid stored langs needs missing w in
    (needs = true -> n' = true) /\ (forall l, In l missing -> In l m').
Proof.
  induction langs as [|x langs IH]; intros needs missing w; simpl; [auto|].
  destruct (bool_decide (stored !! x = Some "not_available")); [apply IH|].
  destruct (subtitle_files_exist (files w) x vid); [apply IH|].
  match goal with
  | |- context [check_subtitle_languages E vid stored langs true ?m ?w1] =>
      specialize (IH true m w1);
      destruct (check_subtitle_languages E vid stored langs true m w1) as [[n' m'] ?]
  end.
  destruct IH as [Hn Hm]. split; [auto|].
  intros l Hl. apply Hm, in_or_app. now left.
Qed.

Lemma downgraded_row_exists w vid lang :
  downgraded w vid lang -> is_Some (find_row vid (videos w)).
Proof.
  intros [_ H]. unfold stored_processing_status in H.
  destruct (find_row vid (videos w)); [eauto | discriminate].
Qed.

Lemma downgrade_language E vid lang l w :
  is_Some (find_row vid (videos w)) ->
  (l = lang \/ stored_subtitle_status w vid lang = Some "missing") ->
  downgraded
    (update_video_completion_status E vid None (Some {[ l := "missing" ]}) None
       (Some "partial") None w) vid lang.
Proof.
  intros Hex Hl. split; [|now apply update_status_sets_processing].
  destruct (decide (l = lang)) as [->|Hne].
  - apply update_status_sets_language; [assumption|]. apply lookup_singleton_eq.
  - destruct Hl as [?|Hl]; [contradiction|].
    rewrite update_status_keeps_language; [assumption|].
    intros _ d [= <-]. now apply lookup_singleton_ne.
Qed.

Lemma downgrade_media E vid lang w :
  downgraded w vid lang ->
  downgraded
    (update_video_completion_status E vid None None (Some false) (Some "partial") None w)
    vid lang.
Proof.
  intros Hd. pose proof (downgraded_row_exists _ _ _ Hd) as Hex.
  destruct Hd as [Hs _]. split; [|now apply update_status_sets_processing].
  rewrite update_status_keeps_language; [assumption|]. intros _ d [=].
Qed.

Lemma check_languages_keeps_downgraded E vid lang stored langs :
  forall needs missing w,
    downgraded w vid lang ->
    let '(_, _, w') := check_subtitle_languages E vid stored langs needs missing w in
    downgraded w' vid lang.
Proof.
  induction langs as [|x langs IH]; intros needs missing w Hd; simpl; [assumption|].
  destruct (bool_decide (stored !! x = Some "not_available")); [now apply IH|].
  destruct (subtitle_files_exist (files w) x vid); [now apply IH|].
  apply IH. destruct (bool_decide (stored !! x = Some "completed")); [|assumption].
  apply downgrade_language; [now apply (downgraded_row_exists _ _ lang)|].
  right. apply Hd.
Qed.

Lemma check_languages_downgrades E vid lang stored langs :
  stored !! lang = Some "completed" ->
  forall needs missing w,
    In lang langs ->
    subtitle_files_exist (files w) lang vid = false ->
    is_Some (find_row vid (videos w)) ->
    let '(n', m', w') := check_subtitle_languages E vid stored langs needs missing w in
    n' = true /\ In lang m' /\ downgraded w' vid lang.
Proof.
  intros Hst. induction langs as [|x langs IH]; intros needs missing w Hin Hfiles Hex;
    [destruct Hin|]. simpl.
  destruct (decide (x = lang)) as [->|Hne].
  - rewrite Hst. rewrite bool_decide_eq_false_2 by discriminate.
    rewrite Hfiles. rewrite bool_decide_eq_true_2 by reflexivity.
    match goal with
    | |- context [check_subtitle_languages E vid stored langs true ?m ?w1] =>
        pose proof (check_languages_grows E vid stored langs true m w1) as Hg;
        pose proof (check_languages_keeps_downgraded E vid lang stored langs true m w1) as Hk;
        destruct (check_subtitle_languages E vid stored langs true m w1) as [[n' m'] w']
    end.
    destruct Hg as [Hn Hm]. split; [auto|]. split.
    + apply Hm, in_or_app. right. now left.
    + apply Hk. apply downgrade_language; auto.
  - destruct Hin as [?|Hin]; [contradiction|].
    destruct (bool_decide (stored !! x = Some "not_available")); [now apply IH|].
    destruct (subtitle_files_exist (files w) x vid); [now apply IH|].
    apply IH; [assumption| |].
    + destruct (bool_decide (stored !! x = Some "completed")); [|assumption].
      now rewrite (proj1 (update_status_frame E vid _ _ _ _ _ w)).
    + destruct (bool_decide (stored !! x = Some "completed")); [|assumption].
      now apply update_status_keeps_existence.
Qed.

(** C2. For an item whose stored status for a requested language is
    ['completed'] while neither a non-empty manual nor a non-empty auto
    caption file exists, the evaluator reports the language as missing
    (subtitles needed, item not fully completed), stores ['missing'] for
    that language and stores the overall status ['partial']. *)
Theorem C2_stale_completed_flag_is_downgraded :
  forall E vid lang langs media w,
    stored_subtitle_status w vid lang = Some "completed" ->
    In lang langs ->
    subtitle_files_exist (files w) lang vid = false ->
    let '(status, w') := get_video_completion_status E vid true langs media w in
    In lang (missing_subtitle_languages status) /\
    needs_subtitles status = true /\
    is_fully_completed status = false /\
    stored_subtitle_status w' vid lang = Some "missing" /\
    stored_processing_status w' vid = Some "partial".
Proof.
  intros E vid lang langs media w Hst Hin Hfiles.
  unfold get_video_completion_status. unfold stored_subtitle_status in Hst.
  destruct (find_row vid (videos w)) as [r|] eqn:Hr; [|discriminate].
  destruct (subtitles_completed (completion r)) as [stored|] eqn:Hs; [|discriminate].
  simpl default.
  pose proof (check_languages_downgrades E vid lang stored langs Hst false [] w
                Hin Hfiles ltac:(rewrite Hr; eauto)) as Hloop.
  destruct (check_subtitle_languages E vid stored langs false [] w) as [[n' m'] w1].
  destruct Hloop as (-> & Hm & Hd).
  destruct media; simpl.
  - destruct (has_substantial_file vid (files w1)); simpl.
    + rewrite andb_false_r. repeat split; try assumption; apply Hd.
    + rewrite andb_false_r.
      destruct (default false (media_completed (completion r))).
      * pose proof (downgrade_media E vid lang w1 Hd) as [? ?]. repeat split; assumption.
      * repeat split; try assumption; apply Hd.
  - rewrite andb_false_r. repeat split; try assumption; apply Hd.
Qed.

(** ** Composing stretches of execution *)

Section Respects.
Context {S : Type} (R : S -> S -> Prop) `{!Reflexive R} `{!Transitive R}.

Lemma respects_ret {A} (a : A) : respects R (ret a).
Proof. intros s. simpl. reflexivity. Qed.

Lemma respects_raise {A} e : respects R (@raise S A e).
Proof. intros s. simpl. reflexivity. Qed.

Lemma respects_get : respects R (@get S).
Proof. intros s. simpl. reflexivity. Qed.

Lemma respects_modify f : (forall s, R s (f s)) -> respects R (modify f).
Proof. intros H s. simpl. apply H. Qed.

Lemma respects_bind {A B} (m : M S A) (k : A -> M S B) :
  respects R m -> (forall a, respects R (k a)) -> respects R (bind m k).
Proof.
  intros Hm Hk s. unfold bind. specialize (Hm s).
  destruct (m s) as [[e|a] s']; simpl in *; [assumption|].
  etransitivity; [exact Hm | apply Hk].
Qed.

Lemma respects_try {A} (m : M S A) (h : Exn -> M S A) :
  respects R m -> (forall e, respects R (h e)) -> respects R (try_except m h).
Proof.
  intros Hm Hh s. unfold try_except. specialize (Hm s).
  destruct (m s) as [[e|a] s']; simpl in *; [|assumption].
  etransitivity; [exact Hm | apply Hh].
Qed.

Lemma respects_if {A} (b : bool) (m1 m2 : M S A) :
  respects R m1 -> respects R m2 -> respects R (if b then m1 else m2).
Proof. now destruct b. Qed.

End Respects.

Global Instance fetches_refl P : Reflexive (fetches P).
Proof. intros w. repeat split. exists []. split; [reflexivity | constructor]. Qed.

Global Instance fetches_trans P : Transitive (fetches P).
Proof.
  intros w1 w2 w3 (Hv1 & Hp1 & n1 & Hc1 & Hf1) (Hv2 & Hp2 & n2 & Hc2 & Hf2).
  repeat split; [congruence | congruence |].
  exists (n2 ++ n1)%list. split; [rewrite Hc2, Hc1; apply app_assoc|].
  now apply Forall_app.
Qed.

Lemma fetches_weaken (P Q : Cmd -> Prop) w w' :
  (forall c, P c -> Q c) -> fetches P w w' -> fetches Q w w'.
Proof.
  intros HPQ (Hv & Hp & n & Hc & Hf). repeat split; try assumption.
  exists n. split; [assumption|]. eapply Forall_impl; eauto.
Qed.

Lemma fetches_run E P cmd w : P cmd -> fetches P w (snd (run E cmd w)).
Proof.
  intros HP. unfold run. destruct (fetch E _ cmd (files w)) as [res fs]. simpl.
  repeat split. exists [cmd]. split; [reflexivity|]. now constructor.
Qed.

Lemma fetches_run_process E P cmd : P cmd -> respects (fetches P) (run_process E cmd).
Proof.
  intros HP w. unfold run_process.
  pose proof (fetches_run E P cmd w HP) as H.
  destruct (run E cmd w) as [[| |] w']; exact H.
Qed.

Lemma fetches_sleep P ms w : fetches P w (sleep ms w).
Proof. repeat split. exists []. split; [reflexivity | constructor]. Qed.

Lemma fetches_with_files P fs w : fetches P w (with_files fs w).
Proof. repeat split. exists []. split; [reflexivity | constructor]. Qed.

Global Instance on_refl {S} (proj : S -> World) R `{!Reflexive R} : Reflexive (on proj R).
Proof. intros s. unfold on. reflexivity. Qed.

Global Instance on_trans {S} (proj : S -> World) R `{!Transitive R} : Transitive (on proj R).
Proof. intros s1 s2 s3. unfold on. apply transitivity. Qed.

Lemma respects_sub_lift {A} R (m : M World A) :
  respects R m -> respects (on sub_world R) (sub_lift m).
Proof.
  intros H st. unfold sub_lift, on. specialize (H (sub_world st)).
  now destruct (m (sub_world st)).
Qed.

Lemma respects_media_lift {A} R (m : M World A) :
  respects R m -> respects (on media_world R) (media_lift m).
Proof.
  intros H st. unfold media_lift, on. specialize (H (media_world st)).
  now destruct (m (media_world st)).
Qed.

Lemma respects_lift_total {A} R (f : World -> A * World) :
  (forall w, R w (snd (f w))) -> respects R (lift_total f).
Proof.
  intros H w. unfold lift_total. specialize (H w). now destruct (f w).
Qed.

(** Decompose a monadic computation along its binds and handlers. *)
Ltac solve_order :=
  lazymatch goal with
  | |- Reflexive _ => apply _
  | |- Transitive _ => apply _
  end.

Ltac respects_step :=
  lazymatch goal with
  | |- respects _ (ret _) => apply respects_ret
  | |- respects _ (raise _) => apply respects_raise
  | |- respects _ get => apply respects_get
  | |- respects _ (bind _ _) => apply respects_bind; [.. | | intros ?]
  | |- respects _ (try_except _ _) => apply respects_try; [.. | | intros ?]
  | |- respects _ (if _ then _ else _) => apply respects_if
  | |- respects _ (modify _) => apply respects_modify; [.. | intros ?]
  end; try solve_order.

(** ** What fetching subtitles touches *)

Lemma relative_path_respects E R `{!Reflexive R} path :
  respects (on sub_world R) (relative_path E path).
Proof.
  unfold relative_path. destruct (relative_to_cwd E path); respects_step.
Qed.

Lemma fetch_manual_fetches E vid language :
  respects (on sub_world (fetches (subtitle_cmd_for vid [language])))
           (fetch_manual E vid language).
Proof.
  unfold fetch_manual. repeat respects_step.
  all: try (unfold on; simpl; reflexivity).
  all: try (apply relative_path_respects; apply _).
  - apply respects_sub_lift, fetches_run_process.
    exists language. split; [now left | now left].
  - unfold on. simpl. apply fetches_with_files.
Qed.

Lemma fetch_auto_fetches E vid language :
  respects (on sub_world (fetches (subtitle_cmd_for vid [language])))
           (fetch_auto E vid language).
Proof.
  unfold fetch_auto. repeat respects_step.
  all: try (unfold on; simpl; reflexivity).
  all: try (apply relative_path_respects; apply _).
  - apply respects_sub_lift, fetches_run_process.
    exists language. split; [now left | now right].
  - unfold on. simpl. apply fetches_with_files.
Qed.

Lemma subtitle_attempt_fetches E vid language :
  respects (on sub_world (fetches (subtitle_cmd_for vid [language])))
           (subtitle_attempt E vid language).
Proof.
  unfold subtitle_attempt. repeat respects_step.
  - apply fetch_manual_fetches.
  - apply fetch_auto_fetches.
Qed.

Lemma subtitle_retries_fetches E vid language max_retries remaining :
  forall st,
    fetches (subtitle_cmd_for vid [language]) (sub_world st)
            (sub_world (subtitle_retries E vid language max_retries remaining st)).
Proof.
  induction remaining as [|k IH]; intros st; [reflexivity|].
  cbn [subtitle_retries].
  match goal with
  | |- context [try_except ?m ?h st] =>
      assert (Hg : respects (on sub_world (fetches (subtitle_cmd_for vid [language])))
                            (try_except m h));
      [|specialize (Hg st); destruct (try_except m h st) as [[e|[|]] st']]
  end.
  - repeat respects_step; [apply subtitle_attempt_fetches|].
    unfold on. destruct (_ <? _)%nat; [apply fetches_sleep | reflexivity].
  - etransitivity; [exact Hg | apply IH].
  - exact Hg.
  - etransitivity; [exact Hg | apply IH].
Qed.

Lemma subtitle_languages_loop_fetches E vid all_languages max_retries languages :
  forall results st,
    (forall l, In l languages -> In l all_languages) ->
    fetches (subtitle_cmd_for vid all_languages) (sub_world st)
            (sub_world (snd (subtitle_languages_loop E vid languages max_retries results st))).
Proof.
  induction languages as [|language rest IH]; intros results st Hsub; [reflexivity|].
  cbn [subtitle_languages_loop].
  etransitivity; [|apply IH; intros l Hl; apply Hsub; now right].
  eapply fetches_weaken;
    [|exact (subtitle_retries_fetches E vid language max_retries max_retries _)].
  intros c (l & [<-|[]] & Hc). exists language. split; [apply Hsub; now left | assumption].
Qed.

(** [download_subtitles] leaves the ledger alone and requests captions
    only for the item and the languages it was given. *)
Lemma download_subtitles_fetches E vid languages max_retries w :
  fetches (subtitle_cmd_for vid languages) w
          (snd (download_subtitles E vid languages max_retries w)).
Proof.
  unfold download_subtitles.
  match goal with
  | |- context [subtitle_languages_loop E vid languages max_retries ?r ?st] =>
      pose proof (subtitle_languages_loop_fetches E vid languages max_retries
                    languages r st (fun _ H => H)) as H;
      destruct (subtitle_languages_loop E vid languages max_retries r st) as [res st']
  end.
  exact H.
Qed.

(** ** What fetching media touches *)

Lemma quick_video_check_fetches E vid w :
  fetches media_cmd w (snd (_quick_video_check E vid w)).
Proof.
  unfold _quick_video_check.
  pose proof (fetches_run E media_cmd (CmdQuickCheck vid) w I) as H.
  destruct (run E (CmdQuickCheck vid) w) as [[| |rc err] w']; try exact H.
  now destruct (rc =? 0)%Z.
Qed.

Lemma alternative_attempt_fetches E vid audio_only i sleep_after :
  respects (fetches media_cmd) (alternative_attempt E vid audio_only i sleep_after).
Proof.
  unfold alternative_attempt. repeat respects_step.
  - now apply fetches_run_process.
  - match goal with |- respects _ (match ?x with _ => _ end) => destruct x end;
      repeat respects_step. apply fetches_sleep.
Qed.

Lemma alternative_loop_fetches E vid audio_only rungs :
  forall w, fetches media_cmd w (snd (alternative_loop E vid audio_only rungs w)).
Proof.
  induction rungs as [|[i sleep_after] rest IH]; intros w; [reflexivity|].
  cbn [alternative_loop].
  match goal with
  | |- context [try_except ?m ?h w] =>
      assert (Hg : respects (fetches media_cmd) (try_except m h));
      [|specialize (Hg w); destruct (try_except m h w) as [[e|[r|]] w']]
  end.
  - repeat respects_step. apply alternative_attempt_fetches.
  - etransitivity; [exact Hg | apply IH].
  - exact Hg.
  - etransitivity; [exact Hg | apply IH].
Qed.

Lemma unlink_all_fetches names w :
  fetches media_cmd w (fold_left (fun w0 (f : string * N) => unlink_media (fst f) w0) names w).
Proof.
  revert w. induction names as [|f names IH]; intros w; [reflexivity|]. simpl.
  etransitivity; [|apply IH]. apply fetches_with_files.
Qed.

Lemma media_attempt_fetches E vid audio_only :
  respects (on media_world (fetches media_cmd)) (media_attempt E vid audio_only).
Proof.
  unfold media_attempt. repeat respects_step.
  - unfold on. destruct (last _); reflexivity.
  - unfold on. simpl. apply unlink_all_fetches.
  - match goal with |- respects _ (match ?x with _ => _ end) => destruct x as [[name size]|] end.
    + repeat respects_step. unfold on; simpl; reflexivity.
    + repeat respects_step.
      * now apply respects_media_lift, fetches_run_process.
      * match goal with |- respects _ (match ?x with _ => _ end) =>
          destruct x as [[name size]|] end; repeat respects_step;
          try (unfold on; simpl; reflexivity).
        unfold on. simpl. apply fetches_with_files.
      * apply respects_media_lift. intros w.
        pose proof (alternative_loop_fetches E vid audio_only methods w) as H.
        unfold _try_alternative_download_methods.
        now destruct (alternative_loop E vid audio_only methods w).
      * unfold on; simpl; reflexivity.
Qed.

Lemma media_handler_fetches e :
  respects (on media_world (fetches media_cmd)) (media_handler e).
Proof. destruct e; simpl; repeat respects_step; unfold on; simpl; reflexivity. Qed.

Lemma media_retries_fetches E vid audio_only max_retries remaining :
  forall st,
    fetches media_cmd (media_world st)
            (snd (media_retries E vid audio_only max_retries remaining st)).
Proof.
  induction remaining as [|k IH]; intros st; [reflexivity|].
  cbn [media_retries].
  pose proof (respects_try (on media_world (fetches media_cmd)) _ _
                (media_attempt_fetches E vid audio_only) media_handler_fetches st) as Hg.
  destruct (try_except (media_attempt E vid audio_only) media_handler st)
    as [[e|[| |r]] st']; simpl; try exact Hg.
  etransitivity; [exact Hg|]. etransitivity; [|apply IH].
  destruct (_ <? _)%nat; [apply fetches_sleep | reflexivity].
Qed.

(** [download_media] leaves the ledger alone and issues only media
    commands. *)
Lemma download_media_fetches E vid audio_only max_retries :
  respects (fetches media_cmd) (download_media E vid audio_only max_retries).
Proof. intros w. apply media_retries_fetches. Qed.

(** ** A language marked not-available stays untouched *)

Global Instance quiet_refl vid lang : Reflexive (quiet vid lang).
Proof.
  intros w Ht. split; [assumption|]. exists []. split; [reflexivity | constructor].
Qed.

Global Instance quiet_trans vid lang : Transitive (quiet vid lang).
Proof.
  intros w1 w2 w3 H12 H23 Ht.
  destruct (H12 Ht) as (Ht2 & n1 & Hc1 & Hf1).
  destruct (H23 Ht2) as (Ht3 & n2 & Hc2 & Hf2).
  split; [assumption|]. exists (n2 ++ n1)%list.
  split; [rewrite Hc2, Hc1; apply app_assoc | now apply Forall_app].
Qed.

Lemma terminal_same_videos vid lang w w' :
  videos w' = videos w -> terminal vid lang w -> terminal vid lang w'.
Proof. unfold terminal, stored_subtitle_status. now intros ->. Qed.

Lemma fetches_quiet (P : Cmd -> Prop) vid lang w w' :
  (forall c, P c -> requests_subtitles vid lang c = false) ->
  fetches P w w' -> quiet vid lang w w'.
Proof.
  intros HP (Hv & _ & issued & Hc & Hf) Ht. split.
  - now apply (terminal_same_videos vid lang w).
  - exists issued. split; [assumption|]. eapply Forall_impl; eauto.
Qed.

Lemma media_cmd_quiet vid lang c : media_cmd c -> requests_subtitles vid lang c = false.
Proof. now destruct c. Qed.

Lemma quiet_silent vid lang w w' :
  calls w' = calls w -> (terminal vid lang w -> terminal vid lang w') ->
  quiet vid lang w w'.
Proof.
  intros Hc Hk Ht. split; [auto|]. exists []. split; [assumption | constructor].
Qed.

Lemma quiet_update E u vid lang mc sc dc ps ls w :
  (u = vid -> forall d, sc = Some d -> d !! lang = None) ->
  quiet vid lang w (update_video_completion_status E u mc sc dc ps ls w).
Proof.
  intros Hsc. apply quiet_silent; [apply update_status_frame|].
  unfold terminal. now rewrite update_status_keeps_language.
Qed.

(** Rewriting columns other than the completion columns keeps every
    stored subtitle status. *)
Lemma stored_subtitle_status_update_rows u f vid lang w :
  (forall r, video_id (f r) = video_id r /\ completion (f r) = completion r) ->
  stored_subtitle_status (with_videos (update_rows u f (videos w)) w) vid lang
  = stored_subtitle_status w vid lang.
Proof.
  intros Hf. unfold stored_subtitle_status. simpl.
  destruct (decide (u = vid)) as [->|Hne].
  - rewrite find_row_update_same by (intros r; apply Hf).
    destruct (find_row vid (videos w)) as [r|]; simpl; [|reflexivity].
    now rewrite (proj2 (Hf r)).
  - rewrite find_row_update_other; [reflexivity | intros r; apply Hf | assumption].
Qed.

Lemma quiet_store_subtitle_info u manual auto type requested vid lang w :
  quiet vid lang w (store_subtitle_info u manual auto type requested w).
Proof.
  apply quiet_silent; [reflexivity|]. unfold terminal, store_subtitle_info.
  now rewrite stored_subtitle_status_update_rows.
Qed.

Lemma quiet_store_media_info u audio_only path status size vid lang :
  respects (quiet vid lang) (store_media_info u audio_only path status size).
Proof.
  intros w. unfold store_media_info.
  destruct path; simpl; try reflexivity;
    (apply quiet_silent; [reflexivity|]; unfold terminal;
     now rewrite stored_subtitle_status_update_rows).
Qed.

Lemma mark_subtitles_step E u l success w :
  mark_step_completed E u ("subtitles_" ++ l) success w =
  update_video_completion_status E u None
    (Some {[ l := if success then "completed" else "failed" ]}) None None
    (Some ("subtitles_" ++ l)) w.
Proof.
  assert (Hcons : forall c s t, String c s ++ t = String c (s ++ t)) by reflexivity.
  assert (Hnil : forall t : string, "" ++ t = t) by reflexivity.
  unfold mark_step_completed. rewrite !Hcons, Hnil. simpl. now destruct l.
Qed.

Lemma quiet_mark_media E u success vid lang w :
  quiet vid lang w (mark_step_completed E u "media" success w).
Proof. apply quiet_update. intros _ d [=]. Qed.

Lemma quiet_mark_language_results E u vid lang langs results :
  (u = vid -> ~ In lang langs) ->
  forall w, quiet vid lang w (mark_language_results E u langs results w).
Proof.
  induction langs as [|l langs IH]; intros Hnot w; [reflexivity|].
  cbn [mark_language_results]. cbv zeta.
  etransitivity; [|apply IH; intros Hu Hin; apply (Hnot Hu); now right].
  rewrite mark_subtitles_step. apply quiet_update.
  intros Hu d [= <-]. apply lookup_singleton_ne. intros ->. apply (Hnot Hu). now left.
Qed.

Lemma check_languages_quiet E u vid lang stored langs :
  (u = vid -> stored !! lang = Some "not_available") ->
  forall needs missing w,
    quiet vid lang w (snd (check_subtitle_languages E u stored langs needs missing w)).
Proof.
  intros Hst. induction langs as [|x langs IH]; intros needs missing w; [reflexivity|].
  cbn [check_subtitle_languages].
  destruct (bool_decide (stored !! x = Some "not_available")); [apply IH|].
  destruct (subtitle_files_exist (files w) x u); [apply IH|].
  etransitivity; [|apply IH].
  destruct (bool_decide (stored !! x = Some "completed")) eqn:Hx; [|reflexivity].
  apply bool_decide_eq_true in Hx. apply quiet_update.
  intros Hu d [= <-]. apply lookup_singleton_ne. intros ->.
  rewrite (Hst Hu) in Hx. discriminate.
Qed.

(** The evaluator never lists a terminal language as missing, and leaves
    it terminal. *)
Lemma evaluator_quiet E u vid lang subs langs media w :
  quiet vid lang w (snd (get_video_completion_status E u subs langs media w)) /\
  (terminal vid lang w -> u = vid ->
   ~ In lang (missing_subtitle_languages
                (fst (get_video_completion_status E u subs langs media w)))).
Proof.
  unfold get_video_completion_status.
  destruct (find_row u (videos w)) as [r|] eqn:Hr.
  - set (stored := default ∅ (subtitles_completed (completion r))).
    assert (Hst : terminal vid lang w -> u = vid -> stored !! lang = Some "not_available").
    { intros Ht ->. unfold terminal, stored_subtitle_status in Ht. rewrite Hr in Ht.
      subst stored. now destruct (subtitles_completed (completion r)). }
    assert (Hloop : forall w0,
               (terminal vid lang w -> quiet vid lang w0
                  (snd (check_subtitle_languages E u stored langs false [] w0)))).
    { intros w0 Ht. apply check_languages_quiet. auto. }
    pose proof (check_languages_missing E u stored langs false [] w lang) as Hmiss.
    specialize (Hloop w).
    destruct subs.
    + destruct (check_subtitle_languages E u stored langs false [] w) as [[n m] w1].
      simpl in Hloop. split.
      * intros Ht. assert (Hq : quiet vid lang w w1) by auto.
        destruct media; simpl; [|exact (Hq Ht)].
        destruct (has_substantial_file u (files w1)); simpl; [exact (Hq Ht)|].
        destruct (default false (media_completed (completion r))); [|exact (Hq Ht)].
        refine (transitivity Hq _ Ht). apply quiet_update. intros _ d [=].
      * intros Ht Hu.
        destruct media; [destruct (has_substantial_file u (files w1))|]; simpl;
          (intros Hin; destruct (Hmiss Hin) as [[]|[_ Hn]]; apply Hn; auto).
    + split.
      * destruct media; simpl; [|reflexivity].
        destruct (has_substantial_file u (files w)); simpl; [reflexivity|].
        destruct (default false (media_completed (completion r))); [|reflexivity].
        apply quiet_update. intros _ d [=].
      * intros _ _.
        destruct media; [destruct (has_substantial_file u (files w))|]; simpl; auto.
  - simpl. split; [reflexivity|]. intros Ht ->.
    unfold terminal, stored_subtitle_status in Ht. now rewrite Hr in Ht.
Qed.

Lemma acquire_subtitles_quiet E u vid lang requested status :
  (u = vid -> ~ In lang (missing_subtitle_languages status)) ->
  respects (quiet vid lang) (acquire_subtitles E u requested status).
Proof.
  intros Hnot. unfold acquire_subtitles. repeat respects_step.
  apply respects_lift_total. intros w.
  apply (fetches_quiet (subtitle_cmd_for u (missing_subtitle_languages status)));
    [|apply download_subtitles_fetches].
  intros c (l & Hl & [->| ->]); simpl;
    (destruct (String.eqb u vid) eqn:Hu; [|reflexivity];
     apply String.eqb_eq in Hu; simpl; apply String.eqb_neq;
     intros ->; now apply (Hnot Hu)).
  destruct a as [[[manual auto] type] language_results]. repeat respects_step.
  - apply quiet_store_subtitle_info.
  - now apply quiet_mark_language_results.
Qed.

Lemma acquire_media_quiet E u vid lang audio_only status :
  respects (quiet vid lang) (acquire_media E u audio_only status).
Proof.
  unfold acquire_media. repeat respects_step.
  - apply respects_lift_total. intros w.
    apply (fetches_quiet media_cmd); [apply media_cmd_quiet|].
    apply quick_video_check_fetches.
  - apply quiet_mark_media.
  - intros w. apply (fetches_quiet media_cmd); [apply media_cmd_quiet|].
    apply download_media_fetches.
  - destruct a0 as [[path download_status] size]. repeat respects_step.
    + apply quiet_store_media_info.
    + apply quiet_mark_media.
    + apply (fetches_quiet media_cmd); [apply media_cmd_quiet | apply fetches_sleep].
    + apply quiet_mark_media.
  - apply quiet_mark_media.
Qed.

Lemma quiet_trans_from vid lang w w1 w2 :
  quiet vid lang w w1 -> (terminal vid lang w -> quiet vid lang w1 w2) ->
  quiet vid lang w w2.
Proof. intros H1 H2 Ht. exact (transitivity H1 (H2 Ht) Ht). Qed.

Lemma acquire_item_quiet E u vid lang subs langs media audio_only w :
  quiet vid lang w (snd (acquire_item E u subs langs media audio_only w)).
Proof.
  unfold acquire_item, bind at 1, lift_total.
  destruct (evaluator_quiet E u vid lang subs langs media w) as [Hq Hmiss].
  destruct (get_video_completion_status E u subs langs media w) as [status w1].
  simpl in Hq, Hmiss.
  apply (quiet_trans_from vid lang w w1); [exact Hq|]. intros Ht. specialize (Hmiss Ht).
  match goal with |- quiet _ _ _ (snd (?m w1)) => assert (Hr : respects (quiet vid lang) m) end.
  { repeat respects_step.
    - now apply acquire_subtitles_quiet.
    - apply acquire_media_quiet.
    - apply quiet_update. intros _ d [=].
    - apply quiet_update. intros _ d [=]. }
  apply Hr.
Qed.

Lemma acquire_loop_quiet E vid lang subs langs media audio_only pause queue :
  forall i sc fc w,
    quiet vid lang w
      (snd (acquire_loop E subs langs media audio_only pause queue i sc fc w)).
Proof.
  induction queue as [|[u t] rest IH]; intros i sc fc w; [reflexivity|].
  cbn [acquire_loop].
  pose proof (acquire_item_quiet E u vid lang subs langs media audio_only w) as Hq.
  assert (Hp : forall w0, quiet vid lang w0
                 (if (i mod 30 =? 0)%nat then sleep pause w0 else w0)).
  { intros w0. destruct (i mod 30 =? 0)%nat; [|reflexivity].
    apply (fetches_quiet media_cmd); [apply media_cmd_quiet | apply fetches_sleep]. }
  destruct (acquire_item E u subs langs media audio_only w) as [[e|[| |]] w1];
    simpl in Hq.
  - destruct (is_stop_message_outer (exn_message e)); [exact Hq|].
    etransitivity; [exact Hq|]. etransitivity; [|apply IH].
    apply quiet_update. intros _ d [=].
  - etransitivity; [exact Hq | apply IH].
  - etransitivity; [exact Hq|]. etransitivity; [apply Hp | apply IH].
  - etransitivity; [exact Hq|]. etransitivity; [apply Hp | apply IH].
Qed.

(** C4. Once a language is stored as ['not_available'] for an item, the
    evaluator never lists it among the item's missing languages, and a
    whole Acquisition run never asks the fetch collaborator for the item's
    captions in that language -- whatever files exist and whatever the
    collaborator answers -- and leaves the mark in place. *)
Theorem C4_not_available_is_terminal :
  forall E vid lang w,
    stored_subtitle_status w vid lang = Some "not_available" ->
    (forall subs langs media,
        ~ In lang (missing_subtitle_languages
                     (fst (get_video_completion_status E vid subs langs media w)))) /\
    (forall subs langs media audio_only pause,
        let w' := snd (download_all_missing E subs langs media audio_only pause w) in
        stored_subtitle_status w' vid lang = Some "not_available" /\
        exists issued,
          calls w' = (issued ++ calls w)%list /\
          Forall (fun c => requests_subtitles vid lang c = false) issued).
Proof.
  intros E vid lang w Ht. split.
  - intros subs langs media.
    now apply (proj2 (evaluator_quiet E vid vid lang subs langs media w)).
  - intros subs langs media audio_only pause.
    exact (acquire_loop_quiet E vid lang subs langs media audio_only pause
             (videos_to_process w) 1 0 0 w Ht).
Qed.

Lemma C4_not_available_is_terminal_witness :
  ~ In "en" (missing_subtitle_languages
               (fst (get_video_completion_status offline_env "v" true ["fa"; "en"]
                       false terminal_world))) /\
  (let w' := snd (download_all_missing offline_env true ["fa"; "en"] false true 0
                    terminal_world) in
   stored_subtitle_status w' "v" "en" = Some "not_available" /\
   exists issued,
     calls w' = (issued ++ calls terminal_world)%list /\
     Forall (fun c => requests_subtitles "v" "en" c = false) issued).
Proof.
  destruct (C4_not_available_is_terminal offline_env "v" "en" terminal_world)
    as [Heval Hrun]; [vm_compute; reflexivity|].
  split; [apply Heval | apply Hrun].
Defined.

Lemma C2_stale_completed_flag_is_downgraded_witness :
  let '(status, w') :=
    get_video_completion_status offline_env "v" true ["fa"; "en"] false stale_world in
  In "en" (missing_subtitle_languages status) /\
  needs_subtitles status = true /\
  is_fully_completed status = false /\
  stored_subtitle_status w' "v" "en" = Some "missing" /\
  stored_processing_status w' "v" = Some "partial".
Proof.
  apply (C2_stale_completed_flag_is_downgraded offline_env "v" "en" ["fa"; "en"] false
           stale_world).
  - vm_compute; reflexivity.
  - right; left; reflexivity.
  - vm_compute; reflexivity.
Defined.

(** ** The outcomes of a subtitle download *)








(** ** Discovery *)

(** While the watermark has not been seen, nothing happens. *)
Lemma discover_loop_searching E identifier f last g :
  forall st,
    found_last_video st = false ->
    (forall v, In v (gen_items g) -> Some (video_key v) <> last) ->
    snd (discover_loop E identifier f last g st) = st.
Proof.
  induction g as [|video rest IH|msg]; intros st Hfound Hnot; [reflexivity| |reflexivity].
  cbn [discover_loop]. unfold discover_step. rewrite Hfound. simpl negb. cbv iota.
  rewrite bool_decide_eq_false_2 by (apply Hnot; now left).
  apply IH; [assumption|]. intros v Hv. apply Hnot. now right.
Qed.

(** Items that are in the ledger already, or that the filters reject,
    leave the ledger, the cursor table, the saved count and the batch as
    they are. *)
Lemma discover_loop_known E identifier f last g :
  forall st,
    (forall v, In v (gen_items g) ->
               is_video_exists (video_key v) (disc_world st) = true \/
               passes_filters E f (extract_video_data v) = false) ->
    let st' := snd (discover_loop E identifier f last g st) in
    disc_world st' = disc_world st /\ saved_count st' = saved_count st /\
    batch_videos st' = batch_videos st.
Proof.
  induction g as [|video rest IH|msg]; intros st Hknown; [simpl; auto| |simpl; auto].
  cbn [discover_loop].
  assert (Hstep : let s1 := discover_step E identifier f last video st in
                  disc_world s1 = disc_world st /\ saved_count s1 = saved_count st /\
                  batch_videos s1 = batch_videos st).
  { unfold discover_step. destruct (negb (found_last_video st)).
    - destruct (bool_decide _); simpl; auto.
    - fold (video_key video).
      destruct (is_video_exists (video_key video) (disc_world st)) eqn:Hex; [simpl; auto|].
      destruct (Hknown video) as [H|H]; [now left | congruence |].
      rewrite H. simpl. auto. }
  destruct Hstep as (Hw & Hs & Hb).
  specialize (IH (discover_step E identifier f last video st)).
  destruct IH as (Hw' & Hs' & Hb').
  { intros v Hv. rewrite Hw. apply Hknown. now right. }
  simpl. rewrite Hw', Hs', Hb'. auto.
Qed.

Lemma checkpoint_empty_batch identifier st :
  batch_videos st = [] -> checkpoint identifier st = st.
Proof. unfold checkpoint. now intros ->. Qed.

(** A loop that leaves the batch empty and the ledger alone makes
    [discover_all_videos] report zero and change nothing. *)
Lemma discover_nothing E channel playlist f g w :
  (let identifier := discovery_identifier channel playlist in
   let progress := get_progress identifier w in
   let st0 :=
     {| processed_count := 0; skipped_count := 0; saved_count := total_scraped progress;
        batch_videos := [];
        found_last_video := negb (Text.truthy_opt (last_video_id progress));
        disc_world := w |} in
   let st' := snd (discover_loop E identifier f (last_video_id progress) g st0) in
   disc_world st' = w /\ saved_count st' = total_scraped progress /\
   batch_videos st' = []) ->
  discover_all_videos E channel playlist f g w = (0, w).
Proof.
  cbv zeta. unfold discover_all_videos.
  destruct (discover_loop _ _ _ _ _ _) as [raised st']. simpl.
  intros (Hw & Hs & Hb).
  assert (Hc : checkpoint (discovery_identifier channel playlist) st' = st')
    by now apply checkpoint_empty_batch.
  destruct raised; rewrite ?Hc, Hs, Hw; now rewrite Nat.sub_diag.
Qed.

(** C5. A Discovery run that finds no new remote item -- every item of
    the enumeration is recorded already (or is one the filters reject), as
    when it directly follows another run -- saves nothing, reports zero new
    items and leaves the ledger and the collection cursor (last-processed
    id and total-scraped count) exactly as they were. *)
Theorem C5_second_discovery_is_a_no_op :
  forall E channel playlist f1 g1 w0 f2 g2,
    let w1 := snd (discover_all_videos E channel playlist f1 g1 w0) in
    forallb (fun v => is_video_exists (video_key v) w1
                      || negb (passes_filters E f2 (extract_video_data v)))
            (gen_items g2) = true ->
    discover_all_videos E channel playlist f2 g2 w1 = (0, w1) /\
    get_progress (discovery_identifier channel playlist)
      (snd (discover_all_videos E channel playlist f2 g2 w1))
    = get_progress (discovery_identifier channel playlist) w1.
Proof.
  intros E channel playlist f1 g1 w0 f2 g2 w1 Hknown.
  assert (H : discover_all_videos E channel playlist f2 g2 w1 = (0, w1)).
  { apply discover_nothing. cbv zeta.
    match goal with
    | |- context [discover_loop E ?i f2 ?l g2 ?s] =>
        destruct (discover_loop_known E i f2 l g2 s) as (Hw & Hs & Hb)
    end.
    - intros v Hv. simpl. rewrite forallb_forall in Hknown.
      specialize (Hknown v Hv). apply orb_true_iff in Hknown as [H|H]; [now left|].
      right. now apply negb_true_iff.
    - auto. }
  now rewrite H.
Qed.

(** C8. Discovery returns on every finite enumeration (it is a total
    function of it).  When the enumeration yields nothing, or when a stored
    watermark never shows up in it, the run goes through the whole
    enumeration, reports zero new items and changes nothing. *)
Theorem C8_discovery_exhausts_and_reports_zero :
  forall E channel playlist f g w,
    (exists count w', discover_all_videos E channel playlist f g w = (count, w')) /\
    ((gen_items g = [] \/
      exists watermark,
        last_video_id (get_progress (discovery_identifier channel playlist) w)
        = Some watermark /\
        watermark <> EmptyString /\
        forall v, In v (gen_items g) -> video_key v <> watermark) ->
     discover_all_videos E channel playlist f g w = (0, w)).
Proof.
  intros E channel playlist f g w. split.
  { destruct (discover_all_videos E channel playlist f g w) as [count w']. eauto. }
  intros H. apply discover_nothing. cbv zeta.
  destruct H as [Hempty|(wm & Hlast & Hne & Hnot)].
  - destruct g as [|video rest|msg]; [simpl; auto | discriminate Hempty | simpl; auto].
  - rewrite Hlast. rewrite discover_loop_searching; [simpl; auto | |].
    + simpl. now destruct wm.
    + intros v Hv [= Hk]. now apply (Hnot v Hv).
Qed.

Lemma C5_second_discovery_is_a_no_op_witness :
  let w1 := snd (discover_all_videos offline_env (Some "channel") None no_filters
                   (gen_of five_videos) (resumed_world "C")) in
  discover_all_videos offline_env (Some "channel") None no_filters (gen_of five_videos) w1
  = (0, w1) /\
  get_progress "channel"
    (snd (discover_all_videos offline_env (Some "channel") None no_filters
            (gen_of five_videos) w1))
  = get_progress "channel" w1.
Proof.
  apply (C5_second_discovery_is_a_no_op offline_env (Some "channel") None no_filters
           (gen_of five_videos) (resumed_world "C") no_filters (gen_of five_videos)).
  vm_compute. reflexivity.
Defined.

Lemma C8_discovery_exhausts_and_reports_zero_witness :
  discover_all_videos offline_env (Some "channel") None no_filters (gen_of five_videos)
    (resumed_world "deleted-upstream")
  = (0, resumed_world "deleted-upstream") /\
  discover_all_videos offline_env (Some "channel") None no_filters GenDone
    (resumed_world "C")
  = (0, resumed_world "C").
Proof.
  split.
  - apply C8_discovery_exhausts_and_reports_zero. right.
    exists "deleted-upstream". split; [vm_compute; reflexivity|].
    split; [discriminate|].
    intros v Hv. simpl in Hv.
    destruct Hv as [<-|[<-|[<-|[<-|[<-|[]]]]]]; discriminate.
  - apply C8_discovery_exhausts_and_reports_zero. left. reflexivity.
Defined.

Lemma save_new_video r channel w :
  is_video_exists (video_id r) w = false ->
  videos (snd (save_video r channel w)) =
  (videos w ++ [{| video_id := video_id r; channel_name := channel; meta := meta r;
                   subtitle_cols := subtitle_cols r; media_cols := media_cols r;
                   scraped_at := now w; completion := completion r |}])%list.
Proof.
  unfold is_video_exists, find_row, save_video. simpl. intros Hnew. f_equal.
  induction (videos w) as [|x rows IH]; simpl in *; [reflexivity|].
  destruct (String.eqb (video_id x) (video_id r)); [discriminate|]. simpl.
  now rewrite IH.
Qed.

Lemma is_video_exists_app vid rows r w :
  videos w = (rows ++ [r])%list ->
  is_video_exists vid w =
  (match find_row vid rows with Some _ => true | None => false end
   || String.eqb (video_id r) vid).
Proof.
  unfold is_video_exists, find_row. intros ->.
  induction rows as [|x rows IH]; simpl.
  - now destruct (String.eqb (video_id r) vid).
  - destruct (String.eqb (video_id x) vid); [reflexivity | exact IH].
Qed.

Lemma discover_step_searching E identifier f last video st :
  found_last_video st = false -> Some (video_key video) <> last ->
  discover_step E identifier f last video st = st.
Proof.
  intros Hf Hne. unfold discover_step. rewrite Hf. simpl.
  fold (video_key video). now rewrite bool_decide_eq_false_2.
Qed.

Lemma discover_step_watermark E identifier f last video st :
  found_last_video st = false -> Some (video_key video) = last ->
  discover_step E identifier f last video st =
  {| processed_count := processed_count st; skipped_count := skipped_count st;
     saved_count := saved_count st; batch_videos := batch_videos st;
     found_last_video := true; disc_world := disc_world st |}.
Proof.
  intros Hf He. unfold discover_step. rewrite Hf. simpl.
  fold (video_key video). now rewrite bool_decide_eq_true_2.
Qed.

Lemma discover_step_saves E identifier f last video st :
  found_last_video st = true ->
  is_video_exists (video_key video) (disc_world st) = false ->
  passes_filters E f (extract_video_data video) = true ->
  (S (processed_count st) mod batch_size =? 0)%nat = false ->
  discover_step E identifier f last video st =
  {| processed_count := S (processed_count st); skipped_count := skipped_count st;
     saved_count := S (saved_count st);
     batch_videos := (batch_videos st ++ [video_key video])%list;
     found_last_video := true;
     disc_world := snd (save_video (discovery_row (extract_video_data video))
                          (Some identifier) (disc_world st)) |}.
Proof.
  intros Hf Hnew Hpass Hbatch. unfold discover_step. rewrite Hf. simpl negb. cbv iota.
  fold (video_key video). rewrite Hnew, Hpass. simpl negb. cbv iota.
  unfold save_video. cbn [fst snd processed_count]. rewrite Hbatch. reflexivity.
Qed.

(** C3. With the stored watermark [C] and the enumeration [A, B, C, D, E]
    (where [A] and [B] differ from [C], and [D] and [E] are distinct, not
    yet in the ledger and accepted by the filters), Discovery reports two
    new items, appends exactly the rows of [D] and [E] to the ledger and
    nothing else -- [A] and [B] are passed over, no row of theirs is
    written -- and moves the watermark to [E], the total count up by two. *)
Theorem C3_discovery_resumes_after_the_watermark :
  forall E channel playlist f a b c d e w watermark,
    let identifier := discovery_identifier channel playlist in
    last_video_id (get_progress identifier w) = Some watermark ->
    watermark <> EmptyString ->
    video_key a <> watermark -> video_key b <> watermark -> video_key c = watermark ->
    is_video_exists (video_key d) w = false ->
    is_video_exists (video_key e) w = false ->
    video_key d <> video_key e ->
    passes_filters E f (extract_video_data d) = true ->
    passes_filters E f (extract_video_data e) = true ->
    let '(count, w') :=
      discover_all_videos E channel playlist f (gen_of [a; b; c; d; e]) w in
    count = 2 /\
    videos w' = (videos w ++ [saved_row identifier (now w) d;
                              saved_row identifier (now w) e])%list /\
    last_video_id (get_progress identifier w') = Some (video_key e) /\
    total_scraped (get_progress identifier w')
    = total_scraped (get_progress identifier w) + 2.
Proof.
  intros E channel playlist f a b c d e w watermark identifier
         Hlast Hne Ha Hb Hc Hd He Hde Hfd Hfe.
  unfold discover_all_videos. fold identifier. rewrite Hlast.
  assert (Htruthy : Text.truthy_opt (Some watermark) = true) by now destruct watermark.
  rewrite Htruthy. simpl negb.
  cbn [gen_of discover_loop].
  rewrite (discover_step_searching _ _ _ _ a) by (simpl; congruence).
  rewrite (discover_step_searching _ _ _ _ b) by (simpl; congruence).
  rewrite (discover_step_watermark _ _ _ _ c) by (simpl; congruence).
  cbn [processed_count skipped_count saved_count batch_videos disc_world].
  rewrite (discover_step_saves _ _ _ _ d) by (simpl; auto).
  cbn [processed_count skipped_count saved_count batch_videos disc_world].
  pose proof (save_new_video (discovery_row (extract_video_data d)) (Some identifier) w Hd)
    as Hwd.
  assert (Hnow : now (snd (save_video (discovery_row (extract_video_data d))
                             (Some identifier) w)) = now w) by reflexivity.
  set (wd := snd (save_video (discovery_row (extract_video_data d)) (Some identifier) w))
    in *.
  clearbody wd.
  assert (Hed : is_video_exists (video_key e) wd = false).
  { rewrite (is_video_exists_app _ _ _ _ Hwd). unfold is_video_exists in He.
    destruct (find_row (video_key e) (videos w)); [discriminate|]. simpl.
    now apply String.eqb_neq. }
  rewrite (discover_step_saves _ _ _ _ e) by (simpl; auto).
  cbn [processed_count skipped_count saved_count batch_videos disc_world].
  pose proof (save_new_video (discovery_row (extract_video_data e)) (Some identifier) wd Hed)
    as Hwe.
  set (we := snd (save_video (discovery_row (extract_video_data e)) (Some identifier) wd))
    in *.
  clearbody we.
  unfold checkpoint. simpl.
  split; [lia|]. split.
  - rewrite Hwe, Hwd, Hnow, <- app_assoc. reflexivity.
  - unfold get_progress at 1 3. simpl. rewrite !lookup_insert_eq. simpl.
    split; [reflexivity | lia].
Qed.

Lemma C3_discovery_resumes_after_the_watermark_witness :
  let '(count, w') :=
    discover_all_videos offline_env (Some "channel") None no_filters
      (gen_of five_videos) (resumed_world "C") in
  count = 2 /\
  videos w' = (videos (resumed_world "C") ++
               [saved_row "channel" 5 (plain_video "D" "fourth" "12:34");
                saved_row "channel" 5 (plain_video "E" "fifth" "59")])%list /\
  last_video_id (get_progress "channel" w') = Some "E" /\
  total_scraped (get_progress "channel" w') = 3 + 2.
Proof.
  apply (C3_discovery_resumes_after_the_watermark offline_env (Some "channel") None
           no_filters
           (plain_video "A" "first" "10:00") (plain_video "B" "second" "1:00:00")
           (plain_video "C" "third" "5:30") (plain_video "D" "fourth" "12:34")
           (plain_video "E" "fifth" "59") (resumed_world "C") "C");
    try (vm_compute; reflexivity); try discriminate.
Defined.

(** ** Media downloads and the size threshold *)

Lemma largest_file_in fs name size :
  largest_file fs = Some (name, size) -> In (name, size) fs.
Proof.
  revert name size. induction fs as [|[fn fz] rest IH]; intros name size; [discriminate|].
  simpl. destruct (largest_file rest) as [[gn gz]|].
  - simpl. destruct (fz <? gz)%N; intros [= <- <-]; [right; now apply IH | now left].
  - intros [= <- <-]. now left.
Qed.

(** A rung of the ladder returns early only with a file above the
    threshold. *)
Lemma alternative_attempt_result E vid audio_only i sleep_after w :
  match fst (alternative_attempt E vid audio_only i sleep_after w) with
  | inr (Some (_, status, size)) => status = "completed" /\ (MB < size)%N
  | _ => True
  end.
Proof.
  unfold alternative_attempt, bind, get, ret, modify, run_process.
  destruct (run E (CmdAlternative i vid audio_only) w) as [[| |rc err] w1]; simpl; auto.
  destruct (rc =? 0)%Z; simpl.
  - destruct (largest_file (glob_media vid (files w1))) as [[name size]|]; simpl.
    + destruct (MB <? size)%N eqn:Hs; simpl.
      * split; [reflexivity | now apply N.ltb_lt].
      * now destruct (_ && _).
    + now destruct (_ && _).
  - now destruct (_ && _).
Qed.

Lemma alternative_loop_result E vid audio_only rungs :
  forall w,
    let '(_, status, size) := fst (alternative_loop E vid audio_only rungs w) in
    (status = "completed" /\ (MB < size)%N) \/ status = "auth_failed".
Proof.
  induction rungs as [|[i sleep_after] rest IH]; intros w; [simpl; auto|].
  cbn [alternative_loop]. unfold try_except.
  pose proof (alternative_attempt_result E vid audio_only i sleep_after w) as H.
  destruct (alternative_attempt E vid audio_only i sleep_after w) as [[e|[[[p s] z]|]] w1];
    simpl in *; [apply IH | now left | apply IH].
Qed.

(** How one guarded attempt of [download_media] can end: never with an
    exception, with an early return or a ["completed"] break only above
    the threshold, and otherwise without claiming completion. *)
Lemma guarded_media_attempt E vid audio_only st :
  let '(r, st') := try_except (media_attempt E vid audio_only) media_handler st in
  match r with
  | inl _ => False
  | inr (Return (_, status, size)) => status = "completed" /\ (MB < size)%N
  | inr Break => media_status st' = "completed" -> (MB < file_size_local st')%N
  | inr Continue => media_status st <> "completed" -> media_status st' <> "completed"
  end.
Proof.
  unfold try_except, media_attempt, bind, get, ret, modify, raise, media_lift, run_process.
  cbn [fst snd media_world].
  set (existing := glob_media vid (files (media_world st))).
  destruct (largest_file (List.filter is_complete_file existing)) as [[name size]|] eqn:Hl.
  { simpl. intros _. apply largest_file_in, filter_In in Hl as [_ Hc].
    unfold is_complete_file in Hc. apply andb_true_iff in Hc as [_ Hc].
    now apply N.ltb_lt. }
  match goal with |- context [run E ?c ?w0] => destruct (run E c w0) as [[| |rc err] w1] end;
    cbn [fst snd media_handler]; unfold bind, modify, ret; cbn [fst snd].
  - intros _. simpl. discriminate.
  - intros _. simpl. discriminate.
  - match goal with
    | |- context [media_with_world w1 ?x] => set (stc := media_with_world w1 x)
    end.
    assert (Hstatus : media_status stc = media_status st)
      by (subst stc; simpl; destruct (last existing); reflexivity).
    clearbody stc.
    destruct (rc =? 0)%Z.
    + destruct (largest_file (glob_media vid (files (media_world stc)))) as [[name size]|].
      * destruct (MB <? size)%N eqn:Hs; cbn [fst snd].
        -- intros _. now apply N.ltb_lt.
        -- intros _. simpl. discriminate.
      * cbn [fst snd]. intros _. simpl. discriminate.
    + destruct (_is_auth_or_bot_error _).
      * pose proof (alternative_loop_result E vid audio_only methods (media_world stc)) as Ha.
        unfold _try_alternative_download_methods.
        destruct (alternative_loop E vid audio_only methods (media_world stc))
          as [[[p s] z] w2].
        cbn [fst snd] in *.
        destruct (String.eqb s "completed") eqn:Hs; cbn [fst snd media_handler].
        -- apply String.eqb_eq in Hs. destruct Ha as [[_ Hz]|Ha]; [auto|].
           rewrite Ha in Hs. discriminate.
        -- unfold bind, modify, ret. simpl. intros _. discriminate.
      * destruct (Text.any_in _ _); cbn [fst snd].
        -- simpl. discriminate.
        -- now rewrite Hstatus.
Qed.

(** [download_media] never lets an exception out and reports
    ["completed"] only for a file above the threshold. *)
Lemma media_retries_result E vid audio_only max_retries remaining :
  forall st,
    media_status st <> "completed" ->
    exists path status size,
      fst (media_retries E vid audio_only max_retries remaining st)
      = inr (path, status, size) /\
      (status = "completed" -> (MB < size)%N).
Proof.
  induction remaining as [|k IH]; intros st Hst.
  { simpl. eexists _, _, _. split; [reflexivity|]. intros H. contradiction. }
  cbn [media_retries].
  pose proof (guarded_media_attempt E vid audio_only st) as Hg.
  destruct (try_except (media_attempt E vid audio_only) media_handler st)
    as [[e|[| |[[p s] z]]] st1]; [contradiction| | |].
  - apply IH. destruct (_ <? _)%nat; simpl; auto.
  - simpl. eexists _, _, _. split; [reflexivity | exact Hg].
  - simpl. eexists _, _, _. split; [reflexivity|]. intros _. apply Hg.
Qed.

Lemma download_media_result E vid audio_only max_retries w :
  exists path status size,
    fst (download_media E vid audio_only max_retries w) = inr (path, status, size) /\
    (status = "completed" -> (MB < size)%N).
Proof. apply media_retries_result. simpl. discriminate. Qed.


Lemma update_status_keeps_media E u vid mc sc ps ls w :
  stored_media_completed (update_video_completion_status E u mc sc None ps ls w) vid
  = stored_media_completed w vid.
Proof.
  unfold stored_media_completed. destruct (decide (u = vid)) as [->|Hne].
  - destruct (find_row vid (videos w)) as [r|] eqn:Hr.
    + now rewrite (update_status_row E vid mc sc None ps ls w r Hr).
    + now rewrite update_status_missing_row.
  - now rewrite update_status_other_row.
Qed.

Lemma check_languages_keeps_media E u vid stored langs :
  forall needs missing w,
    stored_media_completed
      (snd (check_subtitle_languages E u stored langs needs missing w)) vid
    = stored_media_completed w vid.
Proof.
  induction langs as [|x langs IH]; intros needs missing w; [reflexivity|].
  cbn [check_subtitle_languages].
  destruct (bool_decide (stored !! x = Some "not_available")); [apply IH|].
  destruct (subtitle_files_exist (files w) x u); [apply IH|].
  rewrite IH. destruct (bool_decide _); [apply update_status_keeps_media | reflexivity].
Qed.

Lemma check_languages_keeps_existence E u vid stored langs :
  forall needs missing w,
    is_Some (find_row vid (videos w)) ->
    is_Some (find_row vid
               (videos (snd (check_subtitle_languages E u stored langs needs missing w)))).
Proof.
  induction langs as [|x langs IH]; intros needs missing w Hw; [assumption|].
  cbn [check_subtitle_languages].
  destruct (bool_decide (stored !! x = Some "not_available")); [now apply IH|].
  destruct (subtitle_files_exist (files w) x u); [now apply IH|].
  apply IH. destruct (bool_decide _); [now apply update_status_keeps_existence|assumption].
Qed.




(** ** The circuit breaker *)

(** The media step never raises: nothing leaves [download_media], and the
    one exception of the step, the binding error, is not an authentication
    stop. *)
Lemma acquire_media_returns E vid audio_only status w :
  exists ok, fst (acquire_media E vid audio_only status w) = inr ok.
Proof.
  unfold acquire_media. destruct (needs_media status); [|eexists; reflexivity].
  unfold bind, lift_total, try_except, modify, ret, raise, store_media_info.
  destruct (_quick_video_check E vid w) as [alive w1].
  destruct alive; cbn [negb]; cbv beta iota; [|eexists; reflexivity].
  destruct (download_media_result E vid audio_only 3 w1) as (path & st & size & Hr & _).
  destruct (download_media E vid audio_only 3 w1) as [r w2]. simpl in Hr. subst r.
  cbv iota beta.
  destruct path as [|p|p]; cbn [fst snd].
  - destruct (String.eqb st "completed"); eexists; reflexivity.
  - destruct (String.eqb st "completed"); eexists; reflexivity.
  - eexists; reflexivity.
Qed.

Lemma acquire_subtitles_returns E vid requested status w :
  exists ok, fst (acquire_subtitles E vid requested status w) = inr ok.
Proof.
  unfold acquire_subtitles. destruct (needs_subtitles status); [|eexists; reflexivity].
  unfold try_except, bind, lift_total, modify, ret.
  destruct (download_subtitles E vid (missing_subtitle_languages status) 3 w)
    as [[[[manual auto] type] results] w1].
  eexists; reflexivity.
Qed.

(** No item makes the acquisition loop take its [break]: processing an
    item always returns, whatever the collaborator does. *)
Lemma acquire_item_returns E vid subs langs media audio_only w :
  exists outcome, fst (acquire_item E vid subs langs media audio_only w) = inr outcome.
Proof.
  unfold acquire_item, bind, lift_total, modify, ret.
  destruct (get_video_completion_status E vid subs langs media w) as [status w1].
  destruct (is_fully_completed status); [eexists; reflexivity|].
  destruct (acquire_subtitles_returns E vid langs status w1) as [ok1 H1].
  destruct (acquire_subtitles E vid langs status w1) as [r1 w2]. simpl in H1. subst r1.
  destruct (acquire_media_returns E vid audio_only status w2) as [ok2 H2].
  destruct (acquire_media E vid audio_only status w2) as [r2 w3]. simpl in H2. subst r2.
  destruct (ok1 && ok2); eexists; reflexivity.
Qed.

(** C1 fails on the code.  With every rung refused by a bot-detection
    message for the first item, [download_media] swallows its own
    circuit-breaker exception in [except Exception], retries the whole
    ladder on each of its three attempts and returns status ["error"];
    [download_all_missing] then books the item as failed and goes on to
    the next queued item, whose ladder is climbed as well. *)
Theorem C1_blocked_ladder_does_not_halt_the_run :
  fst (download_media blocked_env "v1" true 3 two_item_world) = inr (PNone, "error", 0%N) /\
  (let '(succeeded, failed, w') :=
     download_all_missing blocked_env false [] true true 0 two_item_world in
   succeeded = 0 /\ failed = 2 /\
   In (CmdAlternative 3 "v1" true) (calls w') /\
   In (CmdMedia "v2" true) (calls w') /\
   stored_processing_status w' "v1" = Some "partial" /\
   stored_processing_status w' "v2" = Some "partial").
Proof.
  split; [vm_compute; reflexivity|].
  vm_compute. repeat split; auto 30.
Qed.

(* ===================================================================== *)
(** * Further properties of the code *)
(* ===================================================================== *)

(** ** The ledger store *)

Lemma find_row_after_insert vid key row rows :
  video_id row = key ->
  find_row vid (List.filter (fun r => negb (String.eqb (video_id r) key)) rows ++ [row])
  = if String.eqb key vid then Some row else find_row vid rows.
Proof.
  intros Hk. unfold find_row. induction rows as [|x rows IH]; simpl.
  - rewrite Hk. now destruct (String.eqb key vid).
  - destruct (String.eqb (video_id x) key) eqn:Hx; simpl.
    + apply String.eqb_eq in Hx. rewrite IH.
      destruct (String.eqb key vid) eqn:Hv; [reflexivity|].
      rewrite Hx, Hv. reflexivity.
    + destruct (String.eqb (video_id x) vid) eqn:Hxv; [|exact IH].
      destruct (String.eqb key vid) eqn:Hv; [|reflexivity].
      apply String.eqb_eq in Hv, Hxv. apply String.eqb_neq in Hx. congruence.
Qed.

Lemma rows_with_key_after_insert key row rows :
  video_id row = key ->
  rows_with_key key
    (List.filter (fun r => negb (String.eqb (video_id r) key)) rows ++ [row]) = 1.
Proof.
  intros Hk. unfold rows_with_key. rewrite List.filter_app, List.length_app. simpl.
  rewrite Hk, String.eqb_refl. simpl.
  assert (H : List.filter (fun r => String.eqb (video_id r) key)
                (List.filter (fun r => negb (String.eqb (video_id r) key)) rows) = []).
  { induction rows as [|x rows IH]; simpl; [reflexivity|].
    destruct (String.eqb (video_id x) key) eqn:Hx; simpl; [exact IH|].
    now rewrite Hx. }
  now rewrite H.
Qed.

Lemma keys_after_insert_nodup key row rows :
  video_id row = key ->
  NoDup (List.map video_id rows) ->
  NoDup (List.map video_id
           (List.filter (fun r => negb (String.eqb (video_id r) key)) rows ++ [row])).
Proof.
  intros Hk Hnd. rewrite List.map_app. simpl. apply NoDup_app. split; [|split].
  - induction rows as [|x rows IH]; simpl in *; [constructor|].
    apply NoDup_cons in Hnd as [Hx Hnd].
    destruct (String.eqb (video_id x) key); simpl; [now apply IH|].
    apply NoDup_cons. split; [|now apply IH].
    intros Hin. apply Hx. apply list_elem_of_In in Hin. apply list_elem_of_In.
    apply in_map_iff in Hin as (y & Hy & Hin).
    apply filter_In in Hin as [Hin _]. apply in_map_iff. eauto.
  - intros k Hin Hin2. apply list_elem_of_In in Hin, Hin2.
    destruct Hin2 as [<-|[]]. apply in_map_iff in Hin as (y & Hy & Hin).
    apply filter_In in Hin as [_ Hne]. rewrite Hy, Hk, String.eqb_refl in Hne.
    discriminate.
  - apply NoDup_singleton.
Qed.

(** X1. [save_video] is an upsert on the key [video_id]: it reports
    success, the saved row is what a lookup of its key then returns (with
    the channel given and the current time as first-seen time), it is the
    only row under that key, every other key reads as before, and a table
    with distinct keys keeps distinct keys. *)
Theorem X1_save_video_is_an_upsert :
  forall video_data channel w,
    let w' := snd (save_video video_data channel w) in
    fst (save_video video_data channel w) = true /\
    find_row (video_id video_data) (videos w') = Some (stored_row video_data channel w) /\
    is_video_exists (video_id video_data) w' = true /\
    rows_with_key (video_id video_data) (videos w') = 1 /\
    (forall vid, vid <> video_id video_data ->
                 find_row vid (videos w') = find_row vid (videos w)) /\
    (NoDup (List.map video_id (videos w)) -> NoDup (List.map video_id (videos w'))).
Proof.
  intros video_data channel w. cbv zeta. unfold save_video, is_video_exists. simpl.
  fold (stored_row video_data channel w).
  assert (Hk : video_id (stored_row video_data channel w) = video_id video_data)
    by reflexivity.
  split; [reflexivity|].
  rewrite (find_row_after_insert _ _ _ _ Hk), String.eqb_refl.
  split; [reflexivity|]. split; [reflexivity|].
  split; [now apply rows_with_key_after_insert|]. split.
  - intros vid Hne. rewrite (find_row_after_insert _ _ _ _ Hk).
    destruct (String.eqb (video_id video_data) vid) eqn:Hv; [|reflexivity].
    apply String.eqb_eq in Hv. congruence.
  - now apply keys_after_insert_nodup.
Qed.

Lemma X1_save_video_is_an_upsert_witness :
  find_row "v2" (videos (snd (save_video (sample_row "v1" 9 None) (Some "c") two_item_world)))
  = find_row "v2" (videos two_item_world).
Proof.
  destruct (X1_save_video_is_an_upsert (sample_row "v1" 9 None) (Some "c") two_item_world)
    as (_ & _ & _ & _ & Hother & _).
  apply Hother. discriminate.
Defined.

(** X2. [update_progress] followed by [get_progress] returns what was
    written, stamped with the current time; every other identifier reads as
    before; the cursor is overwritten, never accumulated; and nothing but
    the cursor table changes. *)
Theorem X2_progress_round_trip :
  forall identifier last total w,
    let w' := update_progress identifier last total w in
    get_progress identifier w' =
      {| last_video_id := Some last; total_scraped := total;
         last_updated := Some (now w) |} /\
    (forall other, other <> identifier -> get_progress other w' = get_progress other w) /\
    (forall last2 total2,
        update_progress identifier last2 total2 w' =
        update_progress identifier last2 total2 w) /\
    videos w' = videos w /\ files w' = files w /\ calls w' = calls w /\ clock w' = clock w.
Proof.
  intros identifier last total w. cbv zeta. unfold get_progress, update_progress. simpl.
  rewrite lookup_insert_eq. split; [reflexivity|]. split.
  - intros other Hne. now rewrite lookup_insert_ne.
  - split; [|auto]. intros last2 total2. unfold with_progress, now. simpl.
    now rewrite insert_insert_eq.
Qed.

Lemma X2_progress_round_trip_witness :
  get_progress "other" (update_progress "channel" "E" 5 (resumed_world "C"))
  = get_progress "other" (resumed_world "C").
Proof.
  destruct (X2_progress_round_trip "channel" "E" 5 (resumed_world "C")) as (_ & Hother & _).
  apply Hother. discriminate.
Defined.

Lemma update_rows_absent vid f rows :
  find_row vid rows = None -> update_rows vid f rows = rows.
Proof.
  unfold find_row, update_rows. induction rows as [|r rows IH]; simpl; [reflexivity|].
  destruct (String.eqb (video_id r) vid); [discriminate|].
  intros H. now rewrite IH.
Qed.

Lemma with_videos_same w : with_videos (videos w) w = w.
Proof. now destruct w. Qed.

Lemma update_status_absent E vid mc sc dc ps ls w :
  find_row vid (videos w) = None ->
  update_video_completion_status E vid mc sc dc ps ls w = w.
Proof.
  intros H. unfold update_video_completion_status.
  rewrite update_rows_absent by assumption. apply with_videos_same.
Qed.

(** X3. The ledger writes of the completion tracker are [UPDATE]s: aimed
    at an id that has no row they change nothing at all -- no row is
    created by [update_video_completion_status], by [mark_step_completed]
    (whatever the step) or by the subtitle and media [UPDATE]s of the
    acquisition loop. *)
Theorem X3_status_updates_never_create_a_row :
  forall E vid w,
    find_row vid (videos w) = None ->
    (forall mc sc dc ps ls, update_video_completion_status E vid mc sc dc ps ls w = w) /\
    (forall step success, mark_step_completed E vid step success w = w) /\
    (forall manual auto type requested,
        store_subtitle_info vid manual auto type requested w = w) /\
    (forall audio_only name status size,
        store_media_info vid audio_only (PStr name) status size w = (inr tt, w)).
Proof.
  intros E vid w H. split; [|split; [|split]].
  - intros. now apply update_status_absent.
  - intros step success. unfold mark_step_completed.
    repeat match goal with |- context [if ?b then _ else _] => destruct b end;
      solve [reflexivity | now apply update_status_absent].
  - intros. unfold store_subtitle_info.
    rewrite update_rows_absent by assumption. apply with_videos_same.
  - intros. unfold store_media_info.
    rewrite update_rows_absent by assumption. now rewrite with_videos_same.
Qed.

Lemma X3_status_updates_never_create_a_row_witness :
  mark_step_completed offline_env "ghost" "media" true one_item_world = one_item_world.
Proof.
  destruct (X3_status_updates_never_create_a_row offline_env "ghost" one_item_world)
    as (_ & Hmark & _); [reflexivity|].
  apply Hmark.
Defined.

Lemma update_rows_identity u f rows :
  (forall r, row_identity (f r) = row_identity r) ->
  List.map row_identity (update_rows u f rows) = List.map row_identity rows.
Proof.
  intros Hf. unfold update_rows. rewrite List.map_map. apply List.map_ext.
  intros r. now destruct (String.eqb (video_id r) u).
Qed.

Global Instance same_ledger_shape_refl : Reflexive same_ledger_shape.
Proof. now intros w. Qed.

Global Instance same_ledger_shape_trans : Transitive same_ledger_shape.
Proof. intros a b c [H1 H2] [H3 H4]. split; congruence. Qed.

Lemma update_status_shape E u mc sc dc ps ls w :
  same_ledger_shape w (update_video_completion_status E u mc sc dc ps ls w).
Proof.
  unfold update_video_completion_status, same_ledger_shape. simpl.
  split; [|reflexivity]. now apply update_rows_identity.
Qed.

Lemma update_status_other_language E vid lang other value mc dc ps ls w :
  other <> lang ->
  stored_subtitle_status
    (update_video_completion_status E vid mc (Some {[ lang := value ]}) dc ps ls w) vid other
  = stored_subtitle_status w vid other.
Proof.
  intros Hne. apply update_status_keeps_language.
  intros _ d [= <-]. now apply lookup_singleton_ne.
Qed.

(** X4. Marking a subtitle step touches exactly one language of one item.
    After [mark_step_completed vid "subtitles_<lang>" success] the stored
    status of [lang] is ['completed'] or ['failed'] (never
    ['not_available']); every other language of the item, every other item,
    the media flag and the overall status read as before; and no row is
    added, removed or re-described.  The language is everything after the
    first underscore, so a code such as [zh_Hans] is kept whole. *)
Theorem X4_subtitle_step_touches_one_language :
  forall E vid lang success w,
    is_Some (find_row vid (videos w)) ->
    let w' := mark_step_completed E vid ("subtitles_" ++ lang) success w in
    stored_subtitle_status w' vid lang = Some (if success then "completed" else "failed") /\
    (forall other, other <> lang ->
                   stored_subtitle_status w' vid other = stored_subtitle_status w vid other) /\
    (forall u l, u <> vid -> stored_subtitle_status w' u l = stored_subtitle_status w u l) /\
    stored_media_completed w' vid = stored_media_completed w vid /\
    stored_processing_status w' vid = stored_processing_status w vid /\
    same_ledger_shape w w'.
Proof.
  intros E vid lang success w [r Hr]. cbv zeta. rewrite mark_subtitles_step.
  split; [|split; [|split; [|split; [|split]]]].
  - apply update_status_sets_language; [eauto|]. apply lookup_singleton_eq.
  - intros other Hne. now apply update_status_other_language.
  - intros u l Hne. apply update_status_keeps_language. intros Heq. congruence.
  - unfold stored_media_completed. now rewrite (update_status_row _ _ _ _ _ _ _ _ _ Hr), Hr.
  - unfold stored_processing_status.
    now rewrite (update_status_row _ _ _ _ _ _ _ _ _ Hr), Hr.
  - apply update_status_shape.
Qed.

Lemma X4_subtitle_step_touches_one_language_witness :
  stored_subtitle_status
    (mark_step_completed offline_env "v" ("subtitles_" ++ "zh_Hans") false terminal_world)
    "v" "zh_Hans" = Some "failed" /\
  stored_subtitle_status
    (mark_step_completed offline_env "v" ("subtitles_" ++ "zh_Hans") false terminal_world)
    "v" "en" = Some "not_available".
Proof.
  destruct (X4_subtitle_step_touches_one_language offline_env "v" "zh_Hans" false
              terminal_world) as (Hset & Hother & _); [vm_compute; eauto|].
  split; [exact Hset|]. rewrite Hother by discriminate. reflexivity.
Defined.

(** ** The discovery filters *)

(** X5. With the title accepted and a duration that parses, the duration
    filter is an inclusive window: the video passes exactly when its
    minutes are at least the minimum (if one is set) and at most the maximum
    (if one is set); strict mode plays no part.  When both bounds are
    violated -- an empty window -- the reason reported is the minimum. *)
Theorem X5_duration_window_is_inclusive :
  forall re d pat lo hi strict minutes,
    (Text.truthy_opt pat = false \/ re (default EmptyString pat) (vd_title d) = Some true) ->
    _parse_duration_to_minutes (vd_length_text d) = Some minutes ->
    (fst (_should_process_video re d pat lo hi strict) = true <->
     (forall l, lo = Some l -> (l <= minutes)%Z) /\
     (forall h, hi = Some h -> (minutes <= h)%Z)) /\
    (forall l, lo = Some l -> (minutes < l)%Z ->
       snd (_should_process_video re d pat lo hi strict) = DurationBelowMinimum minutes l).
Proof.
  intros re d pat lo hi strict minutes Ht Hp. unfold _should_process_video. rewrite Hp.
  assert (Htitle :
    (if Text.truthy_opt pat
     then match re (default EmptyString pat) (vd_title d) with
          | Some true => None
          | Some false => Some (false, TitleMismatch)
          | None => Some (false, InvalidRegex)
          end
     else None) = None).
  { destruct Ht as [-> | ->]; [reflexivity | now destruct (Text.truthy_opt pat)]. }
  rewrite Htitle. clear Htitle Ht Hp.
  destruct lo as [l|], hi as [h|]; simpl.
  - destruct (Z.ltb_spec minutes l); simpl.
    + split; [|now intros ? [= <-]].
      split; [discriminate|]. intros [Hl _]. specialize (Hl l eq_refl). lia.
    + destruct (Z.ltb_spec h minutes); simpl.
      * split; [|intros ? [= <-]; lia].
        split; [discriminate|]. intros [_ Hh]. specialize (Hh h eq_refl). lia.
      * split; [|intros ? [= <-]; lia].
        split; [|reflexivity]. intros _. split; intros ? [= <-]; lia.
  - destruct (Z.ltb_spec minutes l); simpl.
    + split; [|now intros ? [= <-]].
      split; [discriminate|]. intros [Hl _]. specialize (Hl l eq_refl). lia.
    + split; [|intros ? [= <-]; lia].
      split; [|reflexivity]. intros _. split; [intros ? [= <-]; lia | discriminate].
  - destruct (Z.ltb_spec h minutes); simpl.
    + split; [|discriminate].
      split; [discriminate|]. intros [_ Hh]. specialize (Hh h eq_refl). lia.
    + split; [|discriminate].
      split; [|reflexivity]. intros _. split; [discriminate | intros ? [= <-]; lia].
  - split; [|discriminate]. split; [|reflexivity]. intros _. split; discriminate.
Qed.

Lemma X5_duration_window_is_inclusive_witness :
  fst (_should_process_video (fun _ _ => Some true)
         (extract_video_data (plain_video "A" "first" "10:00"))
         None (Some 10%Z) (Some 10%Z) true) = true.
Proof.
  destruct (X5_duration_window_is_inclusive (fun _ _ => Some true)
              (extract_video_data (plain_video "A" "first" "10:00"))
              None (Some 10%Z) (Some 10%Z) true 10%Z) as [Hiff _];
    [left; reflexivity | reflexivity |].
  apply Hiff. split; intros ? [= <-]; lia.
Defined.

(** X6. The title filter is decided first and alone.  An empty pattern is
    no pattern.  A non-empty pattern that the title does not match, or that
    is not a valid expression, rejects the video whatever its duration and
    whatever the window; the reason says which of the two it was. *)
Theorem X6_title_gate_comes_first :
  (forall re d lo hi strict,
      _should_process_video re d (Some EmptyString) lo hi strict =
      _should_process_video re d None lo hi strict) /\
  (forall re d pat lo hi strict,
      Text.truthy_opt pat = true ->
      re (default EmptyString pat) (vd_title d) <> Some true ->
      fst (_should_process_video re d pat lo hi strict) = false /\
      snd (_should_process_video re d pat lo hi strict) =
        match re (default EmptyString pat) (vd_title d) with
        | None => InvalidRegex
        | Some _ => TitleMismatch
        end).
Proof.
  split; [reflexivity|].
  intros re d pat lo hi strict Ht Hre. unfold _should_process_video. rewrite Ht.
  destruct (re (default EmptyString pat) (vd_title d)) as [[|]|]; [contradiction | auto..].
Qed.

Lemma X6_title_gate_comes_first_witness :
  _should_process_video (fun _ _ => None)
    (extract_video_data (plain_video "A" "first" "10:00")) (Some "(") None None false
  = (false, InvalidRegex).
Proof.
  destruct X6_title_gate_comes_first as [_ H].
  destruct (H (fun _ _ => None) (extract_video_data (plain_video "A" "first" "10:00"))
              (Some "(") None None false) as [H1 H2]; [reflexivity | discriminate |].
  apply injective_projections; [exact H1 | exact H2].
Defined.

(** ** Choosing the largest *)

(** X7. [max(files, key=size)] as the code uses it: of a non-empty listing
    it returns a member no other member exceeds, and among equally large
    members the first in listing order; only the empty listing gives
    nothing. *)
Theorem X7_largest_file_is_the_first_maximum :
  forall fs,
    match largest_file fs with
    | None => fs = []
    | Some f =>
        exists before after,
          fs = (before ++ f :: after)%list /\
          Forall (fun g => (snd g < snd f)%N) before /\
          Forall (fun g => (snd g <= snd f)%N) after
    end.
Proof.
  intros fs. induction fs as [|f0 rest IH]; [reflexivity|]. cbn [largest_file].
  destruct (largest_file rest) as [g|].
  - destruct IH as (before & after & -> & Hb & Ha).
    destruct (N.ltb_spec (snd f0) (snd g)).
    + exists (f0 :: before), after. split; [reflexivity|]. split; [|assumption].
      constructor; assumption.
    + exists [], (before ++ g :: after)%list. split; [reflexivity|]. split; [constructor|].
      apply Forall_app. split.
      * eapply Forall_impl; [exact Hb|]. simpl. intros; lia.
      * constructor; [lia|]. eapply Forall_impl; [exact Ha|]. simpl. intros; lia.
  - subst rest. exists [], []. repeat split; constructor.
Qed.

Lemma largest_thumbnail_first_maximum ts :
  match largest_thumbnail ts with
  | None => ts = []
  | Some t =>
      exists before after,
        ts = (before ++ t :: after)%list /\
        Forall (fun u => (area u < area t)%Z) before /\
        Forall (fun u => (area u <= area t)%Z) after
  end.
Proof.
  induction ts as [|t0 rest IH]; [reflexivity|]. cbn [largest_thumbnail].
  destruct (largest_thumbnail rest) as [g|].
  - destruct IH as (before & after & -> & Hb & Ha).
    fold (area t0). fold (area g).
    destruct (Z.ltb_spec (area t0) (area g)).
    + exists (t0 :: before), after. split; [reflexivity|]. split; [|assumption].
      constructor; assumption.
    + exists [], (before ++ g :: after)%list. split; [reflexivity|]. split; [constructor|].
      apply Forall_app. split.
      * eapply Forall_impl; [exact Hb|]. simpl. intros; lia.
      * constructor; [lia|]. eapply Forall_impl; [exact Ha|]. simpl. intros; lia.
  - subst rest. exists [], []. repeat split; constructor.
Qed.

(** X8. What [extract_video_data] reads off a descriptor: the id is the
    key Discovery looks rows up by; the thumbnail is the first one of
    largest area (width times height), and the empty string when the list
    is absent or empty; the channel counts as verified exactly when one of
    its badges has the verified style. *)
Theorem X8_extract_video_data_reads_the_descriptor :
  forall video,
    vd_video_id (extract_video_data video) = video_key video /\
    match thumbnails video with
    | None | Some [] => vd_thumbnail_url (extract_video_data video) = EmptyString
    | Some ts =>
        exists before t after,
          ts = (before ++ t :: after)%list /\
          vd_thumbnail_url (extract_video_data video) = thumb_url t /\
          Forall (fun u => (area u < area t)%Z) before /\
          Forall (fun u => (area u <= area t)%Z) after
    end /\
    (vd_channel_verified (extract_video_data video) = true <->
     exists styles, ownerBadges video = Some styles /\
                    In "BADGE_STYLE_TYPE_VERIFIED" styles).
Proof.
  intros video. split; [reflexivity|]. split.
  - unfold extract_video_data. simpl.
    destruct (thumbnails video) as [[|t0 rest]|]; [reflexivity| |reflexivity].
    pose proof (largest_thumbnail_first_maximum (t0 :: rest)) as H.
    destruct (largest_thumbnail (t0 :: rest)) as [t|]; [|discriminate H].
    destruct H as (before & after & Heq & Hb & Ha).
    exists before, t, after. auto.
  - unfold extract_video_data. cbn [vd_channel_verified].
    destruct (ownerBadges video) as [styles|].
    + rewrite existsb_exists. split.
      * intros (x & Hin & Hx). apply String.eqb_eq in Hx. subst x. eauto.
      * intros (s & [= <-] & Hin). exists "BADGE_STYLE_TYPE_VERIFIED". split; [assumption|].
        apply String.eqb_refl.
    + split; [discriminate|]. intros (s & [=] & _).
Qed.

(** ** File names and partial downloads *)

Lemma string_app_cons c s t : String c s ++ t = String c (s ++ t).
Proof. reflexivity. Qed.

Lemma string_app_nil t : "" ++ t = t.
Proof. reflexivity. Qed.

Lemma string_length_app a b : String.length (a ++ b) = String.length a + String.length b.
Proof.
  induction a as [|c a IH]; [reflexivity|].
  rewrite string_app_cons. simpl. now rewrite IH.
Qed.

Lemma rfind_from_app c a b :
  forall pos best,
    rfind_from c (a ++ b) pos best =
    rfind_from c b (pos + String.length a) (rfind_from c a pos best).
Proof.
  induction a as [|d a IH]; intros pos best.
  - rewrite string_app_nil. simpl. now rewrite Nat.add_0_r.
  - rewrite string_app_cons. simpl. rewrite IH. f_equal. lia.
Qed.

Lemma rfind_from_absent c s :
  Text.has_char c s = false -> forall pos best, rfind_from c s pos best = best.
Proof.
  induction s as [|d s IH]; intros H pos best; [reflexivity|].
  simpl in *. apply orb_false_iff in H as [Hd Hs]. rewrite Hd. now apply IH.
Qed.

Lemma substring_skip a b n :
  String.substring (String.length a) n (a ++ b) = String.substring 0 n b.
Proof.
  induction a as [|c a IH]; [reflexivity|]. rewrite string_app_cons. exact IH.
Qed.

Lemma substring_all s : String.substring 0 (String.length s) s = s.
Proof. induction s as [|c s IH]; [reflexivity|]. simpl. now rewrite IH. Qed.

(** [PurePath.suffix] of [stem.ext]: the last dot and what follows it,
    when the stem is not empty and the extension holds no dot. *)
Lemma suffix_app stem ext :
  stem <> EmptyString -> ext <> EmptyString -> Text.has_char "." ext = false ->
  suffix (stem ++ String "." ext) = String "." ext.
Proof.
  intros Hstem Hext Hdot. unfold suffix.
  rewrite rfind_from_app. cbn [rfind_from]. rewrite Ascii.eqb_refl.
  rewrite rfind_from_absent by assumption. rewrite Nat.add_0_l.
  rewrite string_length_app. cbn [String.length].
  assert (H1 : (0 <? String.length stem)%nat = true).
  { apply Nat.ltb_lt. destruct stem; [contradiction | simpl; lia]. }
  assert (H2 : (String.length stem <?
                String.length stem + S (String.length ext) - 1)%nat = true).
  { apply Nat.ltb_lt. destruct ext; [contradiction | simpl; lia]. }
  rewrite H1, H2. cbn [andb].
  replace (String.length stem + S (String.length ext) - String.length stem)
    with (String.length (String "." ext)) by (simpl; lia).
  rewrite substring_skip. apply substring_all.
Qed.

Lemma partial_name_is_incomplete stem ext :
  stem <> EmptyString -> In ext [".part"; ".ytdl"; ".temp"] ->
  incomplete_suffix (stem ++ ext) = true.
Proof.
  intros Hstem Hin. unfold incomplete_suffix.
  destruct Hin as [<-|[<-|[<-|[]]]];
    rewrite suffix_app by (assumption || discriminate || reflexivity); reflexivity.
Qed.

Lemma check_languages_files E vid stored langs :
  forall needs missing w,
    files (snd (check_subtitle_languages E vid stored langs needs missing w)) = files w.
Proof.
  induction langs as [|l langs IH]; intros needs missing w; [reflexivity|].
  cbn [check_subtitle_languages].
  destruct (bool_decide _); [apply IH|].
  destruct (subtitle_files_exist _ _ _); [apply IH|].
  rewrite IH. destruct (bool_decide _); [|reflexivity].
  apply update_status_frame.
Qed.

(** X9. A partial download never counts as media.  If every file of the
    item in the media directory is named [<stem>.part], [<stem>.ytdl] or
    [<stem>.temp], the evaluator reports that media is still needed --
    whatever the sizes of those files, whatever the ledger says, and
    whether or not the item has a row. *)
Theorem X9_partial_downloads_never_count :
  forall E vid subs langs w,
    Forall (fun f => exists stem ext,
                fst f = stem ++ ext /\ stem <> EmptyString /\
                In ext [".part"; ".ytdl"; ".temp"])
           (glob_media vid (files w)) ->
    has_substantial_file vid (files w) = false /\
    needs_media (fst (get_video_completion_status E vid subs langs true w)) = true /\
    is_fully_completed (fst (get_video_completion_status E vid subs langs true w)) = false.
Proof.
  intros E vid subs langs w Hall.
  assert (Hsub : has_substantial_file vid (files w) = false).
  { unfold has_substantial_file. apply not_true_is_false. intros H.
    apply existsb_exists in H as (f & Hin & Hf).
    rewrite Forall_forall in Hall. apply list_elem_of_In in Hin.
    destruct (Hall f Hin) as (stem & ext & Hname & Hstem & Hext).
    rewrite Hname, partial_name_is_incomplete in Hf by assumption. discriminate. }
  split; [exact Hsub|].
  unfold get_video_completion_status.
  destruct (find_row vid (videos w)) as [r|]; [|split; reflexivity].
  destruct subs.
  - pose proof (check_languages_files E vid (default ∅ (subtitles_completed (completion r)))
                  langs false [] w) as Hf.
    destruct (check_subtitle_languages _ _ _ _ _ _ _) as [[n m] w1]. simpl in Hf.
    rewrite Hf, Hsub. simpl. split; [reflexivity|]. now rewrite !andb_false_r.
  - rewrite Hsub. simpl. split; [reflexivity|]. now rewrite !andb_false_r.
Qed.

Lemma X9_partial_downloads_never_count_witness :
  needs_media
    (fst (get_video_completion_status offline_env "v" false [] true partial_download_world))
  = true.
Proof.
  apply (X9_partial_downloads_never_count offline_env "v" false [] partial_download_world).
  repeat constructor. exists "v.mp3", ".part". simpl. intuition discriminate.
Defined.

(** ** Captions already on disk *)

Lemma fetch_manual_present E vid language st :
  is_Some (subtitle_files (files (sub_world st)) !! (language, subtitle_file_name vid Manual)) ->
  fetch_manual E vid language st = (inr tt, st).
Proof.
  intros H. unfold fetch_manual, bind, get. cbn [fst snd].
  now rewrite bool_decide_eq_true_2.
Qed.

Lemma fetch_auto_present E vid language st :
  is_Some (subtitle_files (files (sub_world st)) !! (language, subtitle_file_name vid Auto)) ->
  fetch_auto E vid language st = (inr tt, st).
Proof.
  intros H. unfold fetch_auto, bind, get. cbn [fst snd].
  now rewrite bool_decide_eq_true_2.
Qed.

Lemma subtitle_retries_present E vid language max_retries remaining st :
  is_Some (subtitle_files (files (sub_world st)) !! (language, subtitle_file_name vid Manual)) ->
  is_Some (subtitle_files (files (sub_world st)) !! (language, subtitle_file_name vid Auto)) ->
  lang_manual_success st = false -> lang_auto_success st = false ->
  subtitle_retries E vid language max_retries remaining st = st.
Proof.
  intros Hm Ha Hfm Hfa. induction remaining as [|k IH]; [reflexivity|].
  cbn [subtitle_retries]. unfold try_except, subtitle_attempt, bind at 1.
  rewrite fetch_manual_present by assumption. unfold bind at 1.
  rewrite fetch_auto_present by assumption. unfold bind, get, ret.
  rewrite Hfm, Hfa. exact IH.
Qed.

Lemma subtitle_languages_loop_present E vid max_retries languages :
  forall results mp ap ty fm fa w,
    (forall l, In l languages ->
       is_Some (subtitle_files (files w) !! (l, subtitle_file_name vid Manual)) /\
       is_Some (subtitle_files (files w) !! (l, subtitle_file_name vid Auto))) ->
    exists results' fm' fa',
      subtitle_languages_loop E vid languages max_retries results
        {| manual_path := mp; auto_path := ap; sub_type := ty;
           lang_manual_success := fm; lang_auto_success := fa; sub_world := w |}
      = (results',
         {| manual_path := mp; auto_path := ap; sub_type := ty;
            lang_manual_success := fm'; lang_auto_success := fa'; sub_world := w |}) /\
      (forall l, In l languages -> results' !! l = Some "not_available") /\
      (forall l, ~ In l languages -> results' !! l = results !! l).
Proof.
  induction languages as [|language rest IH]; intros results mp ap ty fm fa w Hall.
  - exists results, fm, fa. split; [reflexivity|]. split; [intros l []|reflexivity].
  - cbn [subtitle_languages_loop]. cbn [manual_path auto_path sub_type sub_world].
    destruct (Hall language (or_introl eq_refl)) as [Hm Ha].
    rewrite subtitle_retries_present by (assumption || reflexivity).
    cbn [lang_manual_success lang_auto_success orb].
    cbn [manual_path auto_path sub_type sub_world].
    destruct (IH (<[language := "not_available"]> results) mp ap ty false false w)
      as (results' & fm' & fa' & Heq & Hin & Hout).
    { intros l Hl. apply Hall. now right. }
    exists results', fm', fa'. split; [exact Heq|]. split.
    + intros l [<-|Hl]; [|now apply Hin].
      destruct (in_dec string_dec language rest) as [Hr|Hr]; [now apply Hin|].
      rewrite Hout by assumption. apply lookup_insert_eq.
    + intros l Hl. rewrite Hout by (intros Hr; apply Hl; now right).
      apply lookup_insert_ne. intros ->. apply Hl. now left.
Qed.

(** X10. Caption files already on disk are never fetched again and never
    count as a download.  If for each requested language both the manual
    and the auto file exist -- empty or not -- [download_subtitles] issues
    no command, changes nothing, returns no path, and reports every
    requested language as ['not_available'].  In particular two empty files
    left behind are never replaced. *)
Theorem X10_captions_on_disk_are_not_fetched :
  forall E vid languages max_retries w,
    (forall l, In l languages ->
       is_Some (subtitle_files (files w) !! (l, subtitle_file_name vid Manual)) /\
       is_Some (subtitle_files (files w) !! (l, subtitle_file_name vid Auto))) ->
    exists results,
      download_subtitles E vid languages max_retries w = ((None, None, "none", results), w) /\
      (forall l, In l languages -> results !! l = Some "not_available").
Proof.
  intros E vid languages max_retries w Hall. unfold download_subtitles.
  destruct (subtitle_languages_loop_present E vid max_retries languages ∅ None None
              "none" false false w Hall) as (results & fm & fa & -> & Hin & _).
  exists results. split; [reflexivity | exact Hin].
Qed.

Lemma X10_captions_on_disk_are_not_fetched_witness :
  exists results,
    download_subtitles offline_env "v" ["en"] 3 empty_captions_world
    = ((None, None, "none", results), empty_captions_world) /\
    (forall l, In l ["en"] -> results !! l = Some "not_available").
Proof.
  apply (X10_captions_on_disk_are_not_fetched offline_env "v" ["en"] 3 empty_captions_world).
  intros l [<-|[]]. split; vm_compute; eauto.
Defined.

(** ** Media: what is fetched and what is not *)

Lemma unlink_all_media_files names :
  forall w,
    media_files (files (fold_left (fun w0 (f : string * N) => unlink_media (fst f) w0) names w))
    = List.filter (fun f => negb (existsb (fun g => String.eqb (fst f) (fst g)) names))
        (media_files (files w)).
Proof.
  induction names as [|n names IH]; intros w; simpl.
  - induction (media_files (files w)) as [|f l IHl]; simpl; congruence.
  - rewrite IH. simpl. induction (media_files (files w)) as [|f l IHl]; simpl; [reflexivity|].
    destruct (String.eqb (fst f) (fst n)); simpl; [exact IHl|].
    destruct (existsb _ names); simpl; congruence.
Qed.

Lemma unlink_all_frame names :
  forall w,
    let w' := fold_left (fun w0 (f : string * N) => unlink_media (fst f) w0) names w in
    videos w' = videos w /\ calls w' = calls w /\ scraping_progress w' = scraping_progress w /\
    clock w' = clock w /\ subtitle_files (files w') = subtitle_files (files w).
Proof.
  induction names as [|n names IH]; intros w; simpl; [auto 6|].
  destruct (IH (unlink_media (fst n) w)) as (H1 & H2 & H3 & H4 & H5).
  cbv zeta in *. rewrite H1, H2, H3, H4, H5. auto 6.
Qed.

(** X11. Media already on disk is not fetched again.  When the media
    directory holds a finished file of the item (no partial-download suffix,
    more than one MiB), [download_media] issues no command on its first
    attempt: it reports ['completed'] with the largest finished file and
    its size, leaves the ledger alone, and on its way unlinks the item's
    unfinished files, so that every file of the item left is a finished
    one. *)
Theorem X11_media_on_disk_is_not_fetched_again :
  forall E vid audio_only retries w name size,
    largest_file (List.filter is_complete_file (glob_media vid (files w))) = Some (name, size) ->
    let '(r, w') := download_media E vid audio_only (S retries) w in
    r = inr (PStr (media_path_string E name), "completed", size) /\
    (MB < size)%N /\
    calls w' = calls w /\ videos w' = videos w /\
    Forall (fun f => is_complete_file f = true) (glob_media vid (files w')).
Proof.
  intros E vid audio_only retries w name size Hl.
  assert (Hsize : (MB < size)%N).
  { apply largest_file_in, filter_In in Hl as [_ Hc].
    unfold is_complete_file in Hc. apply andb_true_iff in Hc as [_ Hc].
    now apply N.ltb_lt. }
  pose proof (unlink_all_frame
                (List.filter (fun f => negb (is_complete_file f)) (glob_media vid (files w))) w)
    as (Hv & Hc & _).
  pose proof (unlink_all_media_files
                (List.filter (fun f => negb (is_complete_file f)) (glob_media vid (files w))) w)
    as Hfiles.
  unfold download_media. cbn [media_retries].
  unfold try_except, media_attempt, bind, get, modify, ret.
  cbn [fst snd media_world media_start media_with_world]. rewrite Hl.
  destruct (last (glob_media vid (files w)));
    cbn [fst snd media_world media_with_world file_path media_status file_size_local];
    change (media_world (media_start w)) with w;
    (split; [reflexivity|]; split; [exact Hsize|]; split; [exact Hc|]; split; [exact Hv|]);
    unfold glob_media; fold (glob_media vid (files w)); rewrite Hfiles;
    apply Forall_forall; intros f Hin; apply list_elem_of_In in Hin;
    apply filter_In in Hin as [Hin Hp]; apply filter_In in Hin as [Hin Hkeep];
    (destruct (is_complete_file f) eqn:Hf; [reflexivity|]); exfalso;
    apply negb_true_iff in Hkeep;
    (assert (Hex : existsb (fun g => String.eqb (fst f) (fst g))
                     (List.filter (fun f0 => negb (is_complete_file f0))
                        (glob_media vid (files w))) = true);
     [apply existsb_exists; exists f; split; [|apply String.eqb_refl];
      apply filter_In; split; [|now rewrite Hf];
      unfold glob_media; apply filter_In; auto
     | congruence]).
Qed.

Lemma X11_media_on_disk_is_not_fetched_again_witness :
  fst (download_media offline_env "v" true 3 finished_media_world)
  = inr (PStr "audio/v.mp3", "completed", 2097152%N).
Proof.
  pose proof (X11_media_on_disk_is_not_fetched_again offline_env "v" true 2
                finished_media_world "v.mp3" 2097152%N eq_refl) as H.
  destruct (download_media offline_env "v" true 3 finished_media_world) as [r w'].
  exact (proj1 H).
Defined.



(** X13. A video the existence probe reports as deleted is not
    downloaded.  When [_quick_video_check] gets a non-zero exit whose error
    text names a deletion, the media step of the acquisition loop issues the
    probe and nothing else, stores the media flag as false, and reports
    failure without raising. *)
Theorem X13_deleted_video_is_not_downloaded :
  forall E vid audio_only status w rc err fs,
    needs_media status = true ->
    fetch E (List.length (calls w)) (CmdQuickCheck vid) (files w) = (ProcCompleted rc err, fs) ->
    rc <> 0%Z ->
    Text.any_in deletion_indicators (Text.lower err) = true ->
    let '(r, w') := acquire_media E vid audio_only status w in
    r = inr false /\
    calls w' = CmdQuickCheck vid :: calls w /\ files w' = fs /\
    (is_Some (find_row vid (videos w)) -> stored_media_completed w' vid = Some false) /\
    same_ledger_shape w w'.
Proof.
  intros E vid audio_only status w rc err fs Hneeds Hfetch Hrc Hdel.
  unfold acquire_media. rewrite Hneeds.
  unfold bind at 1, lift_total, _quick_video_check, run. rewrite Hfetch.
  apply Z.eqb_neq in Hrc. rewrite Hrc, Hdel. cbn [negb fst snd].
  unfold bind, modify, ret. cbn [fst snd].
  match goal with
  | |- context [mark_step_completed E vid "media" false ?w0] => set (w1 := w0)
  end.
  change (mark_step_completed E vid "media" false w1)
    with (update_video_completion_status E vid None None (Some false) None (Some "media") w1).
  pose proof (update_status_frame E vid None None (Some false) None (Some "media") w1)
    as (Hf & Hc & _).
  split; [reflexivity|]. split; [rewrite Hc; reflexivity|]. split; [rewrite Hf; reflexivity|].
  split.
  - intros [r Hr]. unfold stored_media_completed.
    assert (Hr1 : find_row vid (videos w1) = Some r) by exact Hr.
    now rewrite (update_status_row _ _ _ _ _ _ _ _ _ Hr1).
  - etransitivity; [|apply update_status_shape]. split; reflexivity.
Qed.

Lemma X13_deleted_video_is_not_downloaded_witness :
  fst (acquire_media deleted_env "v" true
         (fst (get_video_completion_status deleted_env "v" false [] true one_item_world))
         one_item_world) = inr false /\
  calls (snd (acquire_media deleted_env "v" true
         (fst (get_video_completion_status deleted_env "v" false [] true one_item_world))
         one_item_world)) = [CmdQuickCheck "v"].
Proof.
  pose proof (X13_deleted_video_is_not_downloaded deleted_env "v" true
                (fst (get_video_completion_status deleted_env "v" false [] true one_item_world))
                one_item_world 1%Z "ERROR: [youtube] v: Video unavailable" empty_fs
                eq_refl eq_refl ltac:(discriminate) eq_refl) as H.
  destruct (acquire_media deleted_env "v" true _ one_item_world) as [r w'].
  destruct H as (Hr & Hc & _). split; [exact Hr | exact Hc].
Defined.

(** ** Acquisition: what a run leaves alone *)

Lemma fetches_shape P w w' : fetches P w w' -> same_ledger_shape w w'.
Proof. intros (Hv & Hp & _). split; congruence. Qed.

Lemma sleep_shape ms w : same_ledger_shape w (sleep ms w).
Proof. split; reflexivity. Qed.

Lemma update_rows_shape u f w :
  (forall r, row_identity (f r) = row_identity r) ->
  same_ledger_shape w (with_videos (update_rows u f (videos w)) w).
Proof. intros Hf. split; [now apply update_rows_identity | reflexivity]. Qed.

Lemma store_subtitle_info_shape u manual auto type requested w :
  same_ledger_shape w (store_subtitle_info u manual auto type requested w).
Proof. apply update_rows_shape. reflexivity. Qed.

Lemma store_media_info_shape u audio_only path status size :
  respects same_ledger_shape (store_media_info u audio_only path status size).
Proof.
  intros w. unfold store_media_info.
  destruct path; simpl; try reflexivity; now apply update_rows_shape.
Qed.

Lemma mark_step_shape E u step success w :
  same_ledger_shape w (mark_step_completed E u step success w).
Proof.
  unfold mark_step_completed.
  repeat match goal with |- context [if ?b then _ else _] => destruct b end;
    solve [reflexivity | apply update_status_shape].
Qed.

Lemma mark_language_results_shape E u langs results :
  forall w, same_ledger_shape w (mark_language_results E u langs results w).
Proof.
  induction langs as [|l langs IH]; intros w; [reflexivity|].
  cbn [mark_language_results]. cbv zeta.
  etransitivity; [apply mark_step_shape | apply IH].
Qed.

Lemma check_languages_shape E u stored langs :
  forall needs missing w,
    same_ledger_shape w (snd (check_subtitle_languages E u stored langs needs missing w)).
Proof.
  induction langs as [|x langs IH]; intros needs missing w; [reflexivity|].
  cbn [check_subtitle_languages].
  destruct (bool_decide _); [apply IH|].
  destruct (subtitle_files_exist _ _ _); [apply IH|].
  etransitivity; [|apply IH].
  destruct (bool_decide _); [apply update_status_shape | reflexivity].
Qed.

Lemma evaluator_shape E u subs langs media w :
  same_ledger_shape w (snd (get_video_completion_status E u subs langs media w)).
Proof.
  unfold get_video_completion_status.
  destruct (find_row u (videos w)) as [r|]; [|reflexivity].
  pose proof (check_languages_shape E u (default ∅ (subtitles_completed (completion r)))
                langs false [] w) as Hl.
  destruct subs.
  - destruct (check_subtitle_languages _ _ _ _ _ _ _) as [[n m] w1]. simpl in Hl.
    destruct media; simpl; [|exact Hl].
    destruct (has_substantial_file _ _); simpl; [exact Hl|].
    destruct (default false _); [|exact Hl].
    etransitivity; [exact Hl | apply update_status_shape].
  - destruct media; simpl; [|reflexivity].
    destruct (has_substantial_file _ _); simpl; [reflexivity|].
    destruct (default false _); [apply update_status_shape | reflexivity].
Qed.

Lemma acquire_subtitles_shape E u requested status :
  respects same_ledger_shape (acquire_subtitles E u requested status).
Proof.
  unfold acquire_subtitles. repeat respects_step.
  - apply respects_lift_total. intros w.
    eapply fetches_shape, download_subtitles_fetches.
  - destruct a as [[[manual auto] type] language_results]. repeat respects_step.
    + apply store_subtitle_info_shape.
    + apply mark_language_results_shape.
Qed.

Lemma acquire_media_shape E u audio_only status :
  respects same_ledger_shape (acquire_media E u audio_only status).
Proof.
  unfold acquire_media. repeat respects_step.
  - apply respects_lift_total. intros w. eapply fetches_shape, quick_video_check_fetches.
  - apply mark_step_shape.
  - intros w. eapply fetches_shape, download_media_fetches.
  - destruct a0 as [[path download_status] size]. repeat respects_step.
    + apply store_media_info_shape.
    + apply mark_step_shape.
    + apply sleep_shape.
    + apply mark_step_shape.
  - apply mark_step_shape.
Qed.

Lemma acquire_item_shape E u subs langs media audio_only :
  respects same_ledger_shape (acquire_item E u subs langs media audio_only).
Proof.
  unfold acquire_item. repeat respects_step.
  - apply respects_lift_total. intros w. apply evaluator_shape.
  - apply acquire_subtitles_shape.
  - apply acquire_media_shape.
  - apply update_status_shape.
  - apply update_status_shape.
Qed.

Lemma acquire_loop_shape E subs langs media audio_only pause queue :
  forall i sc fc w,
    same_ledger_shape w
      (snd (acquire_loop E subs langs media audio_only pause queue i sc fc w)).
Proof.
  induction queue as [|[u t] rest IH]; intros i sc fc w; [reflexivity|].
  cbn [acquire_loop].
  pose proof (acquire_item_shape E u subs langs media audio_only w) as Hq.
  assert (Hp : forall w0, same_ledger_shape w0
                 (if (i mod 30 =? 0)%nat then sleep pause w0 else w0)).
  { intros w0. destruct (i mod 30 =? 0)%nat; [apply sleep_shape | reflexivity]. }
  destruct (acquire_item E u subs langs media audio_only w) as [[e|[| |]] w1];
    simpl in Hq.
  - destruct (is_stop_message_outer (exn_message e)); [exact Hq|].
    etransitivity; [exact Hq|]. etransitivity; [|apply IH]. apply update_status_shape.
  - etransitivity; [exact Hq | apply IH].
  - etransitivity; [exact Hq|]. etransitivity; [apply Hp | apply IH].
  - etransitivity; [exact Hq|]. etransitivity; [apply Hp | apply IH].
Qed.

(** X14. Acquisition never reshapes the ledger.  Whatever the flags and
    whatever the collaborator does, [download_all_missing] leaves the same
    rows in the same order, each with the id, channel, descriptive metadata
    and first-seen time it had, and leaves the discovery cursors alone: it
    only rewrites download and completion columns. *)
Theorem X14_acquisition_keeps_the_ledger_shape :
  forall E subs langs media audio_only pause w,
    let w' := snd (download_all_missing E subs langs media audio_only pause w) in
    List.map row_identity (videos w') = List.map row_identity (videos w) /\
    scraping_progress w' = scraping_progress w.
Proof.
  intros. apply (acquire_loop_shape E subs langs media audio_only pause).
Qed.

(** ** Acquisition: how an item can end *)

Lemma acquire_loop_counts E subs langs media audio_only pause queue :
  forall i sc fc w,
    let '(s, f, _) := acquire_loop E subs langs media audio_only pause queue i sc fc w in
    (sc <= s)%nat /\ (fc <= f)%nat /\ (s + f <= sc + fc + List.length queue)%nat.
Proof.
  induction queue as [|[u t] rest IH]; intros i sc fc w; [simpl; lia|].
  cbn [acquire_loop].
  destruct (acquire_item_returns E u subs langs media audio_only w) as [o Ho].
  destruct (acquire_item E u subs langs media audio_only w) as [r w1].
  simpl in Ho. subst r. destruct o.
  - specialize (IH (S i) sc fc w1).
    destruct (acquire_loop _ _ _ _ _ _ rest _ _ _ _) as [[s f] w2]. simpl. lia.
  - match goal with
    | |- context [acquire_loop _ _ _ _ _ _ rest _ _ _ ?w0] => specialize (IH (S i) (S sc) fc w0)
    end.
    destruct (acquire_loop _ _ _ _ _ _ rest _ _ _ _) as [[s f] w2]. simpl. lia.
  - match goal with
    | |- context [acquire_loop _ _ _ _ _ _ rest _ _ _ ?w0] => specialize (IH (S i) sc (S fc) w0)
    end.
    destruct (acquire_loop _ _ _ _ _ _ rest _ _ _ _) as [[s f] w2]. simpl. lia.
Qed.

(** X15. Nothing stops an acquisition run.  Processing one item always
    ends in an outcome -- skipped, succeeded or failed -- and never in an
    exception, whatever the collaborator answers; [download_media] itself
    never raises.  So the run's stop-on-authentication exit is never taken,
    and the two counts it returns tally distinct queued items. *)
Theorem X15_nothing_stops_an_acquisition_run :
  forall E subs langs media audio_only,
    (forall vid retries w,
        exists result, fst (download_media E vid audio_only retries w) = inr result) /\
    (forall vid w,
        exists outcome, fst (acquire_item E vid subs langs media audio_only w) = inr outcome) /\
    (forall pause w,
        let '(succeeded, failed, _) :=
          download_all_missing E subs langs media audio_only pause w in
        (succeeded + failed <= List.length (videos_to_process w))%nat).
Proof.
  intros E subs langs media audio_only. split; [|split].
  - intros vid retries w.
    destruct (download_media_result E vid audio_only retries w) as (p & s & z & H & _).
    eauto.
  - intros vid w. apply acquire_item_returns.
  - intros pause w. unfold download_all_missing.
    pose proof (acquire_loop_counts E subs langs media audio_only pause
                  (videos_to_process w) 1 0 0 w) as H.
    destruct (acquire_loop _ _ _ _ _ _ _ _ _ _ _) as [[s f] w']. lia.
Qed.

Lemma evaluator_media_off E u subs langs w :
  needs_media (fst (get_video_completion_status E u subs langs false w)) = false.
Proof.
  unfold get_video_completion_status.
  destruct (find_row u (videos w)) as [r|]; [|reflexivity].
  destruct subs; [destruct (check_subtitle_languages _ _ _ _ _ _ _) as [[n m] w1]|];
    reflexivity.
Qed.

Lemma acquire_subtitles_true E vid requested status w :
  fst (acquire_subtitles E vid requested status w) = inr true.
Proof.
  unfold acquire_subtitles. destruct (needs_subtitles status); [|reflexivity].
  unfold try_except, bind, lift_total, modify, ret.
  destruct (download_subtitles E vid (missing_subtitle_languages status) 3 w)
    as [[[[manual auto] type] results] w1].
  reflexivity.
Qed.

Lemma acquire_media_not_needed E vid audio_only status w :
  needs_media status = false -> acquire_media E vid audio_only status w = (inr true, w).
Proof. intros H. unfold acquire_media. now rewrite H. Qed.

Lemma acquire_item_media_off E vid subs langs audio_only w :
  fst (acquire_item E vid subs langs false audio_only w) = inr Skipped \/
  (fst (acquire_item E vid subs langs false audio_only w) = inr Succeeded /\
   (is_Some (find_row vid (videos w)) ->
    stored_processing_status (snd (acquire_item E vid subs langs false audio_only w)) vid
    = Some "completed")).
Proof.
  unfold acquire_item, bind, lift_total, modify, ret.
  pose proof (evaluator_media_off E vid subs langs w) as Hm.
  pose proof (evaluator_shape E vid subs langs false w) as Hs.
  destruct (get_video_completion_status E vid subs langs false w) as [status w1].
  cbn [fst snd] in *.
  destruct (is_fully_completed status); [now left|]. right.
  pose proof (acquire_subtitles_true E vid langs status w1) as H1.
  pose proof (acquire_subtitles_shape E vid langs status w1) as Hs1.
  destruct (acquire_subtitles E vid langs status w1) as [r1 w2]. cbn [fst snd] in *.
  subst r1. rewrite (acquire_media_not_needed E vid audio_only status w2 Hm).
  cbn [andb fst snd].
  split; [reflexivity|]. intros Hex.
  apply update_status_sets_processing.
  assert (Hshape : same_ledger_shape w w2) by (etransitivity; eassumption).
  destruct Hshape as [Hids _].
  destruct Hex as [r Hr].
  assert (Hin : In vid (List.map video_id (videos w))).
  { apply in_map_iff. exists r. split; [now apply (find_row_video_id vid (videos w))|].
    unfold find_row in Hr. now apply find_some in Hr. }
  assert (Hin2 : In vid (List.map video_id (videos w2))).
  { replace (List.map video_id (videos w2))
      with (List.map (fun p => fst (fst (fst p))) (List.map row_identity (videos w2)))
      by (rewrite List.map_map; reflexivity).
    rewrite Hids, List.map_map. exact Hin. }
  apply in_map_iff in Hin2 as (r2 & Hid & Hin2).
  destruct (find_row vid (videos w2)) eqn:Hf; [eauto|].
  unfold find_row in Hf. eapply find_none in Hf; [|exact Hin2].
  rewrite Hid, String.eqb_refl in Hf. discriminate.
Qed.

Lemma acquire_loop_media_off E subs langs audio_only pause queue :
  forall i sc fc w,
    snd (fst (acquire_loop E subs langs false audio_only pause queue i sc fc w)) = fc.
Proof.
  induction queue as [|[u t] rest IH]; intros i sc fc w; [reflexivity|].
  cbn [acquire_loop].
  destruct (acquire_item_media_off E u subs langs audio_only w) as [H|[H _]];
    destruct (acquire_item E u subs langs false audio_only w) as [r w1];
    simpl in H; subst r; apply IH.
Qed.

(** X16. A run without media never books a failure.  With
    [download_media] off, an item is either skipped or counted as
    succeeded -- also when not one caption could be fetched -- and a
    processed item that has a row is stored as ['completed'].  The failure
    count of such a run is zero. *)
Theorem X16_a_run_without_media_never_fails :
  forall E subs langs audio_only,
    (forall vid w,
        fst (acquire_item E vid subs langs false audio_only w) = inr Skipped \/
        (fst (acquire_item E vid subs langs false audio_only w) = inr Succeeded /\
         (is_Some (find_row vid (videos w)) ->
          stored_processing_status
            (snd (acquire_item E vid subs langs false audio_only w)) vid
          = Some "completed"))) /\
    (forall pause w,
        snd (fst (download_all_missing E subs langs false audio_only pause w)) = 0).
Proof.
  intros E subs langs audio_only. split.
  - intros vid w. apply acquire_item_media_off.
  - intros pause w. apply acquire_loop_media_off.
Qed.

Lemma check_languages_clean E u stored langs :
  forall needs missing w,
    fst (fst (check_subtitle_languages E u stored langs needs missing w)) = false ->
    snd (check_subtitle_languages E u stored langs needs missing w) = w.
Proof.
  induction langs as [|x langs IH]; intros needs missing w H; [reflexivity|].
  cbn [check_subtitle_languages] in *.
  destruct (bool_decide (stored !! x = Some "not_available")); [now apply IH|].
  destruct (subtitle_files_exist (files w) x u); [now apply IH|].
  exfalso.
  match type of H with
  | context [check_subtitle_languages E u stored langs true ?m ?w1] =>
      pose proof (check_languages_grows E u stored langs true m w1) as Hg;
      destruct (check_subtitle_languages E u stored langs true m w1) as [[n' m'] w']
  end.
  simpl in H. destruct Hg as [Hn _]. rewrite Hn in H by reflexivity. discriminate.
Qed.

Lemma evaluator_clean E u subs langs media w :
  is_fully_completed (fst (get_video_completion_status E u subs langs media w)) = true ->
  snd (get_video_completion_status E u subs langs media w) = w.
Proof.
  unfold get_video_completion_status.
  destruct (find_row u (videos w)) as [r|]; [|reflexivity].
  pose proof (check_languages_clean E u (default ∅ (subtitles_completed (completion r)))
                langs false [] w) as Hl.
  destruct subs.
  - destruct (check_subtitle_languages _ _ _ _ _ _ _) as [[n m] w1]. cbn [fst snd] in Hl.
    destruct media.
    + destruct (has_substantial_file u (files w1)); cbn [fst snd is_fully_completed].
      * intros H. apply andb_true_iff in H as [H _]. apply andb_true_iff in H as [_ H].
        apply negb_true_iff in H. auto.
      * rewrite andb_false_r. discriminate.
    + cbn [fst snd is_fully_completed].
      intros H. apply andb_true_iff in H as [H _]. apply andb_true_iff in H as [_ H].
      apply negb_true_iff in H. auto.
  - destruct media; [|reflexivity].
    destruct (has_substantial_file u (files w)); cbn [fst snd is_fully_completed];
      [reflexivity|]. rewrite andb_false_r. discriminate.
Qed.

(** X17. An item the evaluator finds complete is skipped without a single
    write.  [download_all_missing] then does nothing for it: no command, no
    file change, and in particular no update of its stored overall status --
    so an item that was queued because its status is not ['completed']
    is queued again by the next run. *)
Theorem X17_complete_items_are_skipped_without_a_write :
  forall E vid subs langs media audio_only w,
    is_fully_completed (fst (get_video_completion_status E vid subs langs media w)) = true ->
    acquire_item E vid subs langs media audio_only w = (inr Skipped, w) /\
    videos_to_process (snd (acquire_item E vid subs langs media audio_only w))
    = videos_to_process w.
Proof.
  intros E vid subs langs media audio_only w H.
  assert (Heq : acquire_item E vid subs langs media audio_only w = (inr Skipped, w)).
  { unfold acquire_item, bind, lift_total.
    pose proof (evaluator_clean E vid subs langs media w H) as Hw.
    destruct (get_video_completion_status E vid subs langs media w) as [status w1].
    cbn [fst snd] in *. rewrite H. unfold ret. now subst w1. }
  split; [exact Heq|]. now rewrite Heq.
Qed.

Lemma X17_complete_items_are_skipped_without_a_write_witness :
  acquire_item offline_env "v" false [] false true one_item_world
  = (inr Skipped, one_item_world) /\
  videos_to_process (snd (acquire_item offline_env "v" false [] false true one_item_world))
  = videos_to_process one_item_world.
Proof.
  apply (X17_complete_items_are_skipped_without_a_write offline_env "v" false [] false true
           one_item_world).
  reflexivity.
Defined.

(** ** Discovery: what a pass writes *)

Lemma find_row_app vid a b :
  find_row vid (a ++ b)%list =
  match find_row vid a with Some r => Some r | None => find_row vid b end.
Proof.
  unfold find_row. induction a as [|x a IH]; simpl; [reflexivity|].
  now destruct (String.eqb (video_id x) vid).
Qed.

Lemma find_row_absent vid rows :
  find_row vid rows = None -> ~ In vid (List.map video_id rows).
Proof.
  unfold find_row. intros H Hin. apply in_map_iff in Hin as (r & Hid & Hin).
  eapply find_none in H; [|exact Hin]. simpl in H.
  rewrite Hid, String.eqb_refl in H. discriminate.
Qed.

Lemma discover_step_invariant E identifier f last w0 start video added st :
  discovery_invariant identifier w0 start added st ->
  exists added',
    discovery_invariant identifier w0 start added'
      (discover_step E identifier f last video st).
Proof.
  intros Hinv. unfold discover_step.
  destruct (negb (found_last_video st)).
  { destruct (bool_decide _); exists added; exact Hinv. }
  fold (video_key video).
  destruct (is_video_exists (video_key video) (disc_world st)) eqn:Hex;
    [exists added; exact Hinv|].
  destruct (negb (passes_filters E f (extract_video_data video)));
    [exists added; exact Hinv|].
  destruct Hinv as (Hv & Hs & Hb & Hrows & Hnd & Hf & Hc & Hother & Hempty).
  set (row := discovery_row (extract_video_data video)).
  assert (Hid : video_id row = video_key video) by reflexivity.
  pose proof (save_new_video row (Some identifier) (disc_world st)) as Hsave.
  rewrite Hid in Hsave. specialize (Hsave Hex).
  set (new := {| video_id := video_id row; channel_name := Some identifier;
                 meta := meta row; subtitle_cols := subtitle_cols row;
                 media_cols := media_cols row; scraped_at := now (disc_world st);
                 completion := completion row |}) in *.
  assert (Hfind : find_row (video_key video) (videos w0) = None /\
                  find_row (video_key video) added = None).
  { unfold is_video_exists in Hex. rewrite Hv, find_row_app in Hex.
    destruct (find_row (video_key video) (videos w0)); [discriminate|].
    destruct (find_row (video_key video) added); [discriminate|]. auto. }
  assert (Hsave' :
    (List.filter (fun r => negb (String.eqb (video_id r) (video_id row)))
       (videos (disc_world st)) ++ [new])%list = (videos (disc_world st) ++ [new])%list)
    by exact Hsave.
  clear Hsave.
  exists (added ++ [new])%list.
  unfold save_video. cbn [fst snd]. fold row. fold new.
  cbn [processed_count saved_count batch_videos disc_world found_last_video].
  assert (Hbase :
    forall w2,
      videos w2 = (List.filter (fun r => negb (String.eqb (video_id r) (video_id row)))
                     (videos (disc_world st)) ++ [new])%list ->
      files w2 = files (disc_world st) -> calls w2 = calls (disc_world st) ->
      (forall other, other <> identifier ->
                     scraping_progress w2 !! other = scraping_progress (disc_world st) !! other) ->
      discovery_invariant identifier w0 start (added ++ [new])
        {| processed_count := S (processed_count st); skipped_count := skipped_count st;
           saved_count := S (saved_count st);
           batch_videos := (batch_videos st ++ [video_key video])%list;
           found_last_video := found_last_video st; disc_world := w2 |}).
  { intros w2 Hv2 Hf2 Hc2 Hp2. unfold discovery_invariant.
    cbn [processed_count saved_count batch_videos disc_world].
    split; [rewrite Hv2, Hsave', Hv; now rewrite <- app_assoc|].
    split; [rewrite Hs, List.length_app; simpl; lia|].
    split; [rewrite Hb, List.map_app; reflexivity|].
    split.
    { apply Forall_app. split; [exact Hrows|]. constructor; [|constructor].
      unfold discovered_row, is_video_exists. simpl.
      fold (video_key video). now rewrite (proj1 Hfind). }
    split.
    { rewrite List.map_app. apply NoDup_app. split; [exact Hnd|]. split.
      - intros x Hx Hx2. apply list_elem_of_In in Hx, Hx2.
        destruct Hx2 as [<-|[]]. revert Hx. simpl. fold (video_key video).
        apply find_row_absent, Hfind.
      - apply NoDup_singleton. }
    split; [congruence|]. split; [congruence|].
    split; [intros other Hne; rewrite Hp2 by assumption; now apply Hother|].
    intros Habs. now destruct added. }
  destruct (S (processed_count st) mod batch_size =? 0)%nat.
  - apply Hbase; try reflexivity.
    intros other Hne. simpl. rewrite lookup_insert_ne by congruence. reflexivity.
  - apply Hbase; reflexivity.
Qed.

Lemma discover_loop_invariant E identifier f last w0 start g :
  forall added st,
    discovery_invariant identifier w0 start added st ->
    exists added',
      discovery_invariant identifier w0 start added'
        (snd (discover_loop E identifier f last g st)).
Proof.
  induction g as [|video rest IH|msg]; intros added st Hinv; [eauto| |eauto].
  cbn [discover_loop].
  destruct (discover_step_invariant E identifier f last w0 start video added st Hinv)
    as [added1 H1].
  eapply IH, H1.
Qed.

(** What the final [update_progress] leaves, for a non-empty batch. *)
Lemma checkpoint_invariant identifier w0 start added st :
  discovery_invariant identifier w0 start added st ->
  discovery_invariant identifier w0 start added (checkpoint identifier st) /\
  (forall r, last added = Some r ->
     scraping_progress (disc_world (checkpoint identifier st)) !! identifier =
     Some {| last_video_id := Some (video_id r);
             total_scraped := start + List.length added;
             last_updated := Some (now (disc_world (checkpoint identifier st))) |}).
Proof.
  intros (Hv & Hs & Hb & Hrows & Hnd & Hf & Hc & Hother & Hempty).
  assert (Hl : last (batch_videos st) = video_id <$> last added).
  { rewrite Hb. clear. destruct added as [|a added _] using rev_ind; [reflexivity|].
    rewrite List.map_app. simpl. rewrite !last_snoc. reflexivity. }
  unfold checkpoint. rewrite Hl.
  destruct (last added) as [a|] eqn:Ha; cbn [fmap option_fmap option_map].
  - split.
    + unfold discovery_invariant. cbn [disc_world saved_count batch_videos].
      unfold update_progress. simpl.
      split; [exact Hv|]. split; [exact Hs|]. split; [exact Hb|].
      split; [exact Hrows|]. split; [exact Hnd|]. split; [exact Hf|]. split; [exact Hc|].
      split; [intros other Hne; rewrite lookup_insert_ne by congruence; now apply Hother|].
      intros Habs. subst added. discriminate Ha.
    + intros r [= <-].
      unfold update_progress. simpl. rewrite lookup_insert_eq, Hs. reflexivity.
  - split; [|discriminate]. unfold discovery_invariant. auto 10.
Qed.

(** What a Discovery pass does to the ledger, the files and the cursors. *)
Lemma discovery_appends :
  forall E channel playlist f g w,
    let identifier := discovery_identifier channel playlist in
    let '(n, w') := discover_all_videos E channel playlist f g w in
    exists added,
      videos w' = (videos w ++ added)%list /\
      List.length added = n /\
      Forall (discovered_row identifier w) added /\
      NoDup (List.map video_id added) /\
      files w' = files w /\ calls w' = calls w /\
      (forall other, other <> identifier -> get_progress other w' = get_progress other w) /\
      (n = 0 -> scraping_progress w' = scraping_progress w).
Proof.
  intros E channel playlist f g w. cbv zeta. unfold discover_all_videos.
  set (identifier := discovery_identifier channel playlist).
  set (start := total_scraped (get_progress identifier w)).
  set (last := last_video_id (get_progress identifier w)).
  set (st0 := {| processed_count := 0; skipped_count := 0; saved_count := start;
                 batch_videos := []; found_last_video := negb (Text.truthy_opt last);
                 disc_world := w |}).
  assert (H0 : discovery_invariant identifier w start [] st0).
  { unfold discovery_invariant. simpl. rewrite app_nil_r, Nat.add_0_r.
    repeat split; auto; constructor. }
  destruct (discover_loop_invariant E identifier f last w start g [] st0 H0) as [added H1].
  destruct (discover_loop E identifier f last g st0) as [raised st1]. cbn [snd] in H1.
  assert (H2 : discovery_invariant identifier w start added
                 (match raised with Some _ => checkpoint identifier st1 | None => st1 end)).
  { destruct raised; [now apply checkpoint_invariant | exact H1]. }
  apply checkpoint_invariant in H2 as [H3 _].
  destruct H3 as (Hv & Hs & Hb & Hrows & Hnd & Hf & Hc & Hother & Hempty).
  exists added. split; [exact Hv|]. split; [rewrite Hs; lia|].
  split; [exact Hrows|]. split; [exact Hnd|]. split; [exact Hf|]. split; [exact Hc|].
  split.
  - intros other Hne. unfold get_progress. now rewrite Hother.
  - rewrite Hs. intros Hn. apply Hempty. destruct added; [reflexivity | simpl in Hn; lia].
Qed.

(** X18. Discovery only appends.  Whatever the enumeration yields, and
    whether it ends or raises, [discover_all_videos] keeps every row the
    ledger had, in place and unchanged, and appends one row for each item it
    counts: the number it returns is the number of rows added.  Each added
    row carries the pass's identifier as channel, overall status
    ['metadata_only'], metadata done, download status ['pending'], and an id
    the ledger did not hold; the added ids are distinct.  No command is
    issued, no file is touched, the cursor of every other identifier stays
    as it was, and a pass that adds nothing leaves the cursor table
    alone. *)
Theorem X18_discovery_only_appends :
  forall E channel playlist f g w,
    let identifier := discovery_identifier channel playlist in
    let '(n, w') := discover_all_videos E channel playlist f g w in
    exists added,
      videos w' = (videos w ++ added)%list /\
      List.length added = n /\
      Forall (discovered_row identifier w) added /\
      NoDup (List.map video_id added) /\
      files w' = files w /\ calls w' = calls w /\
      (forall other, other <> identifier -> get_progress other w' = get_progress other w) /\
      (n = 0 -> scraping_progress w' = scraping_progress w).
Proof. exact discovery_appends. Qed.

(** X19. Where a pass that saved something leaves the cursor.  When
    [discover_all_videos] reports at least one new item, the cursor of its
    identifier afterwards names the last row appended, counts the earlier
    total plus the number reported, and is stamped with the time of the
    end of the pass -- also when the enumeration raised halfway. *)
Theorem X19_cursor_after_a_pass :
  forall E channel playlist f g w,
    let identifier := discovery_identifier channel playlist in
    let '(n, w') := discover_all_videos E channel playlist f g w in
    (0 < n)%nat ->
    exists r,
      last (videos w') = Some r /\
      get_progress identifier w' =
        {| last_video_id := Some (video_id r);
           total_scraped := total_scraped (get_progress identifier w) + n;
           last_updated := Some (now w') |}.
Proof.
  intros E channel playlist f g w. cbv zeta. unfold discover_all_videos.
  set (identifier := discovery_identifier channel playlist).
  set (start := total_scraped (get_progress identifier w)).
  set (last0 := last_video_id (get_progress identifier w)).
  set (st0 := {| processed_count := 0; skipped_count := 0; saved_count := start;
                 batch_videos := []; found_last_video := negb (Text.truthy_opt last0);
                 disc_world := w |}).
  assert (H0 : discovery_invariant identifier w start [] st0).
  { unfold discovery_invariant. simpl. rewrite app_nil_r, Nat.add_0_r.
    repeat split; auto; constructor. }
  destruct (discover_loop_invariant E identifier f last0 w start g [] st0 H0) as [added H1].
  destruct (discover_loop E identifier f last0 g st0) as [raised st1]. cbn [snd] in H1.
  assert (H2 : discovery_invariant identifier w start added
                 (match raised with Some _ => checkpoint identifier st1 | None => st1 end)).
  { destruct raised; [now apply checkpoint_invariant | exact H1]. }
  apply checkpoint_invariant in H2 as [H3 Hcur].
  destruct H3 as (Hv & Hs & _). rewrite Hs. intros Hn.
  destruct added as [|a added] using rev_ind; [simpl in Hn; lia|]. clear IHadded.
  exists a. split; [rewrite Hv, app_assoc; apply last_snoc|].
  unfold get_progress. rewrite (Hcur a (last_snoc _ _)). f_equal. lia.
Qed.

Lemma X19_cursor_after_a_pass_witness :
  exists r,
    last (videos (snd (discover_all_videos offline_env (Some "channel") None no_filters
                         (gen_of five_videos) (resumed_world "C")))) = Some r /\
    get_progress "channel"
      (snd (discover_all_videos offline_env (Some "channel") None no_filters
              (gen_of five_videos) (resumed_world "C")))
    = {| last_video_id := Some (video_id r);
         total_scraped := total_scraped (get_progress "channel" (resumed_world "C")) + 2;
         last_updated :=
           Some (now (snd (discover_all_videos offline_env (Some "channel") None no_filters
                             (gen_of five_videos) (resumed_world "C")))) |}.
Proof.
  pose proof (X19_cursor_after_a_pass offline_env (Some "channel") None no_filters
                (gen_of five_videos) (resumed_world "C")) as H.
  cbv zeta in H.
  assert (Hn : fst (discover_all_videos offline_env (Some "channel") None no_filters
                      (gen_of five_videos) (resumed_world "C")) = 2)
    by (vm_compute; reflexivity).
  destruct (discover_all_videos offline_env (Some "channel") None no_filters
              (gen_of five_videos) (resumed_world "C")) as [n w'].
  cbn [fst snd] in *. subst n. apply H. lia.
Defined.

(** ** The drivers and the statistics *)

Lemma fold_min_le xs : forall x, (fold_left N.min xs x <= x)%N /\
  Forall (fun y => (fold_left N.min xs x <= y)%N) xs /\
  (fold_left N.min xs x = x \/ In (fold_left N.min xs x) xs).
Proof.
  induction xs as [|y xs IH]; intros x; simpl; [repeat split; [lia | constructor | auto]|].
  destruct (IH (N.min x y)) as (H1 & H2 & H3). split; [lia|]. split.
  - constructor; [lia | exact H2].
  - destruct H3 as [H3|H3]; [|auto].
    rewrite H3. destruct (N.min_spec x y) as [[_ ->]|[_ ->]]; auto.
Qed.

Lemma fold_max_ge xs : forall x, (x <= fold_left N.max xs x)%N /\
  Forall (fun y => (y <= fold_left N.max xs x)%N) xs /\
  (fold_left N.max xs x = x \/ In (fold_left N.max xs x) xs).
Proof.
  induction xs as [|y xs IH]; intros x; simpl; [repeat split; [lia | constructor | auto]|].
  destruct (IH (N.max x y)) as (H1 & H2 & H3). split; [lia|]. split.
  - constructor; [lia | exact H2].
  - destruct H3 as [H3|H3]; [|auto].
    rewrite H3. destruct (N.max_spec x y) as [[_ ->]|[_ ->]]; auto.
Qed.

(** X20. What [get_stats] reports.  The verified count never exceeds the
    total.  On an empty ledger both dates are [NULL]; otherwise the first
    and the last date are the first-seen times of two rows of the ledger,
    and the first-seen time of every row lies between them. *)
Theorem X20_statistics_describe_the_ledger :
  forall w,
    (verified_channel_videos (get_stats w) <= total_videos (get_stats w))%nat /\
    match first_scraped (get_stats w), last_scraped (get_stats w) with
    | Some lo, Some hi =>
        In lo (List.map scraped_at (videos w)) /\
        In hi (List.map scraped_at (videos w)) /\
        Forall (fun r => (lo <= scraped_at r <= hi)%N) (videos w)
    | None, None => videos w = []
    | _, _ => False
    end.
Proof.
  intros w. unfold get_stats. cbn [verified_channel_videos total_videos first_scraped last_scraped].
  split; [apply List.filter_length_le|].
  destruct (videos w) as [|r rows]; [reflexivity|]. simpl.
  destruct (fold_min_le (List.map scraped_at rows) (scraped_at r)) as (L1 & L2 & L3).
  destruct (fold_max_ge (List.map scraped_at rows) (scraped_at r)) as (U1 & U2 & U3).
  split; [destruct L3 as [L3|L3]; [left; now rewrite L3 | now right]|].
  split; [destruct U3 as [U3|U3]; [left; now rewrite U3 | now right]|].
  constructor; [lia|].
  rewrite Forall_forall in L2, U2. apply Forall_forall. intros x Hx.
  assert (Hin : scraped_at x ∈ List.map scraped_at rows).
  { apply list_elem_of_In, in_map. now apply list_elem_of_In. }
  split; [now apply L2 | now apply U2].
Qed.

(** X21. A run with both downloads off is Discovery and nothing else.
    [scrape_channel] and [scrape_playlist] then return the discovered count
    with zero successes and failures, leave the world Discovery left,
    issue no command and touch no file. *)
Theorem X21_metadata_only_run_is_discovery_alone :
  forall E name pause langs audio_only f g w,
    (let '(counts, w') := scrape_channel E name pause false langs false audio_only f g w in
     counts = (fst (discover_all_videos E (Some name) None f g w), 0, 0) /\
     w' = snd (discover_all_videos E (Some name) None f g w) /\
     calls w' = calls w /\ files w' = files w) /\
    (let '(counts, w') := scrape_playlist E name pause false langs false audio_only f g w in
     counts = (fst (discover_all_videos E None (Some name) f g w), 0, 0) /\
     w' = snd (discover_all_videos E None (Some name) f g w) /\
     calls w' = calls w /\ files w' = files w).
Proof.
  intros E name pause langs audio_only f g w. split.
  - unfold scrape_channel.
    pose proof (discovery_appends E (Some name) None f g w) as H.
    destruct (discover_all_videos E (Some name) None f g w) as [n w1].
    cbv zeta in H. destruct H as (added & _ & _ & _ & _ & Hf & Hc & _). cbn [orb fst snd].
    auto.
  - unfold scrape_playlist.
    pose proof (discovery_appends E None (Some name) f g w) as H.
    destruct (discover_all_videos E None (Some name) f g w) as [n w1].
    cbv zeta in H. destruct H as (added & _ & _ & _ & _ & Hf & Hc & _). cbn [orb fst snd].
    auto.
Qed.

Lemma queue_length w : (List.length (videos_to_process w) <= List.length (videos w))%nat.
Proof.
  unfold videos_to_process, select_incomplete.
  rewrite List.length_map, (Permutation_length (order_by_scraped_at_perm _)).
  apply List.filter_length_le.
Qed.

Lemma shape_length w w' :
  same_ledger_shape w w' -> List.length (videos w') = List.length (videos w).
Proof.
  intros [H _]. apply (f_equal (@List.length _)) in H.
  now rewrite !List.length_map in H.
Qed.

(** Discovery followed by Acquisition (or by nothing, when both downloads
    are off), as the two drivers run them. *)
Lemma pass_grows_the_ledger E channel playlist pause subs langs media audio_only f g w :
  let '(counts, w') :=
    let '(discovered_count, w1) := discover_all_videos E channel playlist f g w in
    if subs || media then
      let '(success_count, failed_count, w2) :=
        download_all_missing E subs langs media audio_only pause w1 in
      ((discovered_count, success_count, failed_count), w2)
    else ((discovered_count, 0, 0), w1) in
  let '(discovered, succeeded, failed) := counts in
  exists added,
    List.length added = discovered /\
    List.map row_identity (videos w') =
      (List.map row_identity (videos w) ++ List.map row_identity added)%list /\
    Forall (fun r => channel_name r = Some (discovery_identifier channel playlist) /\
                     is_video_exists (video_id r) w = false) added /\
    total_videos (get_stats w') = total_videos (get_stats w) + discovered /\
    (succeeded + failed <= total_videos (get_stats w'))%nat /\
    scraping_progress w' = scraping_progress (snd (discover_all_videos E channel playlist f g w)).
Proof.
  pose proof (discovery_appends E channel playlist f g w) as H. cbv zeta in H.
  destruct (discover_all_videos E channel playlist f g w) as [n w1].
  destruct H as (added & Hv & Hn & Hrows & _).
  assert (Hrows' : Forall (fun r => channel_name r = Some (discovery_identifier channel playlist) /\
                                    is_video_exists (video_id r) w = false) added).
  { eapply Forall_impl; [exact Hrows|]. intros r (? & _ & _ & _ & ?). auto. }
  destruct (subs || media).
  - pose proof (acquire_loop_shape E subs langs media audio_only pause
                  (videos_to_process w1) 1 0 0 w1) as Hs.
    pose proof (acquire_loop_counts E subs langs media audio_only pause
                  (videos_to_process w1) 1 0 0 w1) as Hc.
    pose proof (queue_length w1) as Hq.
    unfold download_all_missing.
    destruct (acquire_loop _ _ _ _ _ _ _ _ _ _ _) as [[s fl] w2]. cbn [fst snd] in *.
    pose proof (shape_length _ _ Hs) as Hlen. destruct Hs as [Hids Hp].
    exists added. unfold get_stats. cbn [total_videos].
    split; [exact Hn|]. split; [rewrite Hids, Hv, List.map_app; reflexivity|].
    split; [exact Hrows'|].
    split; [rewrite Hlen, Hv, List.length_app; lia|].
    split; [lia | exact Hp].
  - exists added. unfold get_stats. cbn [total_videos fst snd].
    split; [exact Hn|]. split; [rewrite Hv, List.map_app; reflexivity|].
    split; [exact Hrows'|].
    split; [rewrite Hv, List.length_app; lia|]. split; [lia | reflexivity].
Qed.

(** X22. A whole run, end to end.  Whatever the flags, the enumeration and
    the fetch collaborator do, after [scrape_channel] (and likewise
    [scrape_playlist]) the ledger lists the rows it had, in place and with
    their identity, followed by one row per discovered item under the
    run's identifier; [get_stats] counts the earlier total plus the
    discovered count; the successes and failures logged never exceed that
    total; and the cursors are those Discovery left. *)
Theorem X22_a_run_grows_the_ledger_by_what_it_discovered :
  forall E name pause subs langs media audio_only f g w,
    (let '(counts, w') :=
       scrape_channel E name pause subs langs media audio_only f g w in
     let '(discovered, succeeded, failed) := counts in
     exists added,
       List.length added = discovered /\
       List.map row_identity (videos w') =
         (List.map row_identity (videos w) ++ List.map row_identity added)%list /\
       Forall (fun r => channel_name r = Some (discovery_identifier (Some name) None) /\
                        is_video_exists (video_id r) w = false) added /\
       total_videos (get_stats w') = total_videos (get_stats w) + discovered /\
       (succeeded + failed <= total_videos (get_stats w'))%nat /\
       scraping_progress w' =
         scraping_progress (snd (discover_all_videos E (Some name) None f g w))) /\
    (let '(counts, w') :=
       scrape_playlist E name pause subs langs media audio_only f g w in
     let '(discovered, succeeded, failed) := counts in
     exists added,
       List.length added = discovered /\
       List.map row_identity (videos w') =
         (List.map row_identity (videos w) ++ List.map row_identity added)%list /\
       Forall (fun r => channel_name r = Some ("playlist_" ++ name) /\
                        is_video_exists (video_id r) w = false) added /\
       total_videos (get_stats w') = total_videos (get_stats w) + discovered /\
       (succeeded + failed <= total_videos (get_stats w'))%nat /\
       scraping_progress w' =
         scraping_progress (snd (discover_all_videos E None (Some name) f g w))).
Proof.
  intros E name pause subs langs media audio_only f g w. split.
  - exact (pass_grows_the_ledger E (Some name) None pause subs langs media audio_only f g w).
  - exact (pass_grows_the_ledger E None (Some name) pause subs langs media audio_only f g w).
Qed.

(** ** The batch runner *)

Lemma prefix_drop_chars p s :
  String.prefix p s = true -> p ++ Batch.drop_chars (String.length p) s = s.
Proof.
  revert s. induction p as [|c p IH]; intros s H.
  - now destruct s.
  - destruct s as [|d s]; [discriminate|]. simpl in H.
    destruct (Ascii.ascii_dec c d) as [->|Hne]; [|discriminate].
    rewrite string_app_cons. simpl. now rewrite IH.
Qed.

(** What one line of the sources file becomes. *)
Lemma parse_line_spec n raw :
  match Batch.parse_line n raw with
  | None => Text.strip raw = EmptyString \/ String.prefix "#" (Text.strip raw) = true
  | Some s =>
      Batch.line_num s = n /\
      Text.strip raw <> EmptyString /\ String.prefix "#" (Text.strip raw) = false /\
      Text.strip raw =
        (if String.prefix "@" (Text.strip raw) then "@" else "") ++ Batch.original s /\
      identifier_name
        (match Batch.source_type s with Batch.Playlist => true | Batch.Channel => false end)
        (Batch.identifier s) = Batch.original s /\
      (Batch.source_type s = Batch.Playlist <->
       String.prefix "playlist_" (Batch.original s) = true)
  end.
Proof.
  unfold Batch.parse_line.
  destruct (Text.strip raw) as [|c line] eqn:Hs; [now left|]. cbn [Text.truthy negb orb].
  destruct (String.prefix "#" (String c line)) eqn:Hc; [now right|].
  set (line' := if String.prefix "@" (String c line)
                then Batch.drop_chars 1 (String c line) else String c line).
  assert (Hat : String c line =
                (if String.prefix "@" (String c line) then "@" else "") ++ line').
  { subst line'. destruct (String.prefix "@" (String c line)) eqn:Ha; [|reflexivity].
    symmetry. exact (prefix_drop_chars "@" _ Ha). }
  destruct (String.prefix "playlist_" line') eqn:Hp; cbn.
  - split; [reflexivity|]. split; [discriminate|]. split; [reflexivity|].
    split; [exact Hat|]. split; [exact (prefix_drop_chars "playlist_" _ Hp)|].
    split; auto.
  - split; [reflexivity|]. split; [discriminate|]. split; [reflexivity|].
    split; [exact Hat|]. split; [reflexivity|]. split; [discriminate | congruence].
Qed.

Lemma read_lines_spec lines :
  forall n,
    Forall (fun s =>
              exists k raw,
                Batch.line_num s = n + k /\ lines !! k = Some raw /\
                Batch.parse_line (n + k) raw = Some s)
           (Batch.read_lines n lines) /\
    Forall (fun s => (n <= Batch.line_num s)%nat) (Batch.read_lines n lines) /\
    StronglySorted lt (List.map Batch.line_num (Batch.read_lines n lines)) /\
    List.length (Batch.read_lines n lines) =
      List.length (List.filter (fun raw => Text.truthy (Text.strip raw) &&
                                           negb (String.prefix "#" (Text.strip raw))) lines).
Proof.
  induction lines as [|raw rest IH]; intros n; [simpl; repeat split; constructor|].
  destruct (IH (S n)) as (H1 & H2 & H3 & H4).
  assert (H1' : Forall (fun s => exists k raw0,
                          Batch.line_num s = n + k /\ (raw :: rest) !! k = Some raw0 /\
                          Batch.parse_line (n + k) raw0 = Some s)
                  (Batch.read_lines (S n) rest)).
  { eapply Forall_impl; [exact H1|]. intros s (k & raw0 & Hk & Hl & Hp).
    exists (S k), raw0. replace (n + S k) with (S n + k) by lia. auto. }
  assert (H2' : Forall (fun s => (n <= Batch.line_num s)%nat) (Batch.read_lines (S n) rest)).
  { eapply Forall_impl; [exact H2|]. simpl. intros; lia. }
  cbn [Batch.read_lines List.filter].
  pose proof (parse_line_spec n raw) as Hspec.
  destruct (Batch.parse_line n raw) as [s|] eqn:Hparse.
  - destruct Hspec as (Hn & Hne & Hc & _).
    assert (Hkeep : Text.truthy (Text.strip raw) && negb (String.prefix "#" (Text.strip raw))
                    = true).
    { rewrite Hc. destruct (Text.strip raw); [contradiction | reflexivity]. }
    rewrite Hkeep. split; [|split; [|split]].
    + constructor; [|exact H1']. exists 0, raw. rewrite Nat.add_0_r. auto.
    + constructor; [lia | exact H2'].
    + simpl. constructor; [exact H3|]. rewrite Hn.
      apply Forall_forall. intros x Hx. apply list_elem_of_In, in_map_iff in Hx as (s' & <- & Hs').
      rewrite Forall_forall in H2. apply list_elem_of_In in Hs'. specialize (H2 s' Hs'). lia.
    + simpl. now rewrite H4.
  - assert (Hdrop : Text.truthy (Text.strip raw) && negb (String.prefix "#" (Text.strip raw))
                    = false).
    { destruct Hspec as [->| ->]; [reflexivity | apply andb_false_r]. }
    rewrite Hdrop. auto.
Qed.

(** X23. What [read_sources] keeps.  Every source comes from one line of
    the file, whose one-based number it records; that line, stripped, is
    neither empty nor a comment, and is the source's [original] text, with
    one leading [@] put back if the line had one.  Sources appear in line
    order; there are exactly as many as there are lines that are neither
    blank nor comments; and a missing or unreadable file gives none. *)
Theorem X23_read_sources_keeps_the_real_lines :
  forall lines,
    Forall (fun s =>
              exists raw,
                (1 <= Batch.line_num s)%nat /\
                lines !! (Batch.line_num s - 1) = Some raw /\
                Text.strip raw <> EmptyString /\
                String.prefix "#" (Text.strip raw) = false /\
                Text.strip raw =
                  (if String.prefix "@" (Text.strip raw) then "@" else "")
                  ++ Batch.original s)
           (Batch.read_sources (Some lines)) /\
    StronglySorted lt (List.map Batch.line_num (Batch.read_sources (Some lines))) /\
    List.length (Batch.read_sources (Some lines)) =
      List.length (List.filter (fun raw => Text.truthy (Text.strip raw) &&
                                           negb (String.prefix "#" (Text.strip raw))) lines) /\
    Batch.read_sources None = [].
Proof.
  intros lines. unfold Batch.read_sources.
  destruct (read_lines_spec lines 1) as (H1 & _ & H3 & H4).
  split; [|auto]. eapply Forall_impl; [exact H1|].
  intros s (k & raw & Hk & Hl & Hp). exists raw.
  pose proof (parse_line_spec (1 + k) raw) as Hspec. rewrite Hp in Hspec.
  destruct Hspec as (_ & Hne & Hc & Hat & _).
  rewrite Hk. replace (1 + k - 1) with k by lia. split; [lia|]. auto.
Qed.



Lemma process_loop_counts child args rest :
  forall i count p,
    count + 1 = i + List.length rest ->
    let p' := Batch.process_loop child args rest i count p in
    let finished p0 :=
      Batch.successful_sources p0 + List.length (Batch.failed_sources p0) in
    Batch.total_sources p' = Batch.total_sources p /\
    (finished p <= finished p')%nat /\
    ((Batch.processed_sources p' - Batch.processed_sources p = List.length rest /\
      finished p' - finished p = List.length rest) \/
     (Batch.processed_sources p' - Batch.processed_sources p = S (finished p' - finished p) /\
      (finished p' - finished p < List.length rest)%nat /\
      exists k cmd, child k cmd = Batch.Interrupted)) /\
    (Batch.processed_sources p <= Batch.processed_sources p')%nat /\
    Batch.slept p' =
      (Batch.slept p +
       30 * N.of_nat (Nat.min (finished p' - finished p) (List.length rest - 1)))%N /\
    (exists more, Batch.failed_sources p' = (Batch.failed_sources p ++ more)%list /\
                  incl more (List.map Batch.original rest)).
Proof.
  induction rest as [|s rest IH]; intros i count p Hcount; cbv zeta.
  { simpl. repeat split; try lia. exists []. split; [now rewrite app_nil_r | easy]. }
  cbn [Batch.process_loop]. unfold Batch.run_scraper.
  destruct (child i (Batch.command args s)) as [rc| |msg] eqn:Hchild.
  - (* the child exited *)
    simpl in Hcount.
    match goal with
    | |- context [Batch.process_loop child args rest (S i) count ?p3] =>
        specialize (IH (S i) count p3 ltac:(lia)); cbv zeta in IH;
        set (q := Batch.process_loop child args rest (S i) count p3) in *;
        assert (Hp3 : Batch.total_sources p3 = Batch.total_sources p /\
                      Batch.processed_sources p3 = S (Batch.processed_sources p) /\
                      Batch.successful_sources p3 + List.length (Batch.failed_sources p3)
                      = S (Batch.successful_sources p + List.length (Batch.failed_sources p)) /\
                      Batch.slept p3 = (Batch.slept p + (if (i <? count)%nat then 30 else 0))%N /\
                      exists more, Batch.failed_sources p3 = (Batch.failed_sources p ++ more)%list /\
                                   incl more [Batch.original s])
    end.
    { destruct (rc =? 0)%Z, (i <? count)%nat; cbn;
        rewrite ?List.length_app; cbn;
        (repeat split; try lia);
        first [ exists []; split; [now rewrite app_nil_r | easy]
              | exists [Batch.original s]; split; [reflexivity | easy] ]. }
    clearbody q.
    destruct Hp3 as (T3 & P3 & F3 & S3 & more3 & M3 & I3).
    destruct IH as (T & Fle & Hcase & Ple & Hslept & more & Hmore & Hincl).
    rewrite T3 in T. rewrite F3 in *. rewrite P3 in *. rewrite S3 in Hslept.
    split; [exact T|]. split; [lia|]. split; [|split; [lia|split]].
    + destruct Hcase as [[H1 H2]|(H1 & H2 & Hint)]; [left | right]; simpl; repeat split;
        try lia. exact Hint.
    + rewrite Hslept. simpl List.length.
      destruct (Nat.ltb_spec i count) as [Hlt|Hge].
      * destruct Hcase as [[H1 H2]|(H1 & H2 & _)]; lia.
      * assert (List.length rest = 0) by lia.
        destruct Hcase as [[H1 H2]|(H1 & H2 & _)]; lia.
    + exists (more3 ++ more)%list. split; [rewrite Hmore, M3; now rewrite app_assoc|].
      intros x Hx. apply in_app_or in Hx as [Hx|Hx].
      * left. now destruct (I3 x Hx) as [?|[]].
      * right. now apply Hincl.
  - (* interrupted *)
    cbn. split; [reflexivity|]. split; [lia|]. split.
    + right. repeat split; try lia. eauto.
    + split; [lia|]. split.
      * replace (_ - _) with 0 by lia. simpl. lia.
      * exists []. split; [now rewrite app_nil_r | easy].
  - (* the child could not be run *)
    simpl in Hcount.
    match goal with
    | |- context [Batch.process_loop child args rest (S i) count ?p3] =>
        specialize (IH (S i) count p3 ltac:(lia)); cbv zeta in IH;
        set (q := Batch.process_loop child args rest (S i) count p3) in *;
        assert (Hp3 : Batch.total_sources p3 = Batch.total_sources p /\
                      Batch.processed_sources p3 = S (Batch.processed_sources p) /\
                      Batch.successful_sources p3 + List.length (Batch.failed_sources p3)
                      = S (Batch.successful_sources p + List.length (Batch.failed_sources p)) /\
                      Batch.slept p3 = (Batch.slept p + (if (i <? count)%nat then 30 else 0))%N /\
                      exists more, Batch.failed_sources p3 = (Batch.failed_sources p ++ more)%list /\
                                   incl more [Batch.original s])
    end.
    { destruct (i <? count)%nat; cbn;
        rewrite ?List.length_app; cbn;
        (repeat split; try lia);
        (exists [Batch.original s]; split; [reflexivity | easy]). }
    clearbody q.
    destruct Hp3 as (T3 & P3 & F3 & S3 & more3 & M3 & I3).
    destruct IH as (T & Fle & Hcase & Ple & Hslept & more & Hmore & Hincl).
    rewrite T3 in T. rewrite F3 in *. rewrite P3 in *. rewrite S3 in Hslept.
    split; [exact T|]. split; [lia|]. split; [|split; [lia|split]].
    + destruct Hcase as [[H1 H2]|(H1 & H2 & Hint)]; [left | right]; simpl; repeat split;
        try lia. exact Hint.
    + rewrite Hslept. simpl List.length.
      destruct (Nat.ltb_spec i count) as [Hlt|Hge].
      * destruct Hcase as [[H1 H2]|(H1 & H2 & _)]; lia.
      * assert (List.length rest = 0) by lia.
        destruct Hcase as [[H1 H2]|(H1 & H2 & _)]; lia.
    + exists (more3 ++ more)%list. split; [rewrite Hmore, M3; now rewrite app_assoc|].
      intros x Hx. apply in_app_or in Hx as [Hx|Hx].
      * left. now destruct (I3 x Hx) as [?|[]].
      * right. now apply Hincl.
Qed.

(** X25. The summary of a batch adds up.  [process_all] counts as total
    the sources read; it never processes more than that; the sources it
    finished -- successes plus entries of the failure list -- are all it
    processed, or all but the one that was interrupted; it sleeps thirty
    seconds after each finished source except the last of the file; every
    entry of the failure list is the text of a source; and if no child is
    interrupted, every source is processed and finished. *)
Theorem X25_batch_summary_adds_up :
  forall child args file,
    let n := List.length (Batch.read_sources file) in
    let p := Batch.process_all child args file in
    let finished := Batch.successful_sources p + List.length (Batch.failed_sources p) in
    Batch.total_sources p = n /\
    (finished <= Batch.processed_sources p)%nat /\
    (Batch.processed_sources p <= n)%nat /\
    (Batch.processed_sources p <= S finished)%nat /\
    Batch.slept p = (30 * N.of_nat (Nat.min finished (n - 1)))%N /\
    incl (Batch.failed_sources p) (List.map Batch.original (Batch.read_sources file)) /\
    ((forall k cmd, child k cmd <> Batch.Interrupted) ->
     Batch.processed_sources p = n /\ finished = n).
Proof.
  intros child args file. cbv zeta. unfold Batch.process_all.
  set (sources := Batch.read_sources file).
  set (counted := {| Batch.total_sources := List.length sources;
                     Batch.processed_sources := 0; Batch.successful_sources := 0;
                     Batch.failed_sources := []; Batch.slept := 0%N |}).
  pose proof (process_loop_counts child args sources 1 (List.length sources) counted
                ltac:(lia)) as H.
  cbv zeta in H.
  assert (Heq : match sources with
                | [] => counted
                | _ => Batch.process_loop child args sources 1 (List.length sources) counted
                end = Batch.process_loop child args sources 1 (List.length sources) counted)
    by now destruct sources.
  rewrite Heq. clear Heq.
  set (p := Batch.process_loop child args sources 1 (List.length sources) counted) in *.
  clearbody p. subst counted. cbn in H.
  destruct H as (T & _ & Hcase & _ & Hslept & more & Hmore & Hincl).
  rewrite Nat.sub_0_r in *.
  split; [exact T|]. rewrite Hmore.
  split; [destruct Hcase as [[? ?]|(? & ? & _)]; rewrite <- ?Hmore; lia|].
  split; [destruct Hcase as [[? ?]|(? & ? & _)]; rewrite <- ?Hmore; lia|].
  split; [destruct Hcase as [[? ?]|(? & ? & _)]; rewrite <- ?Hmore; lia|].
  split; [rewrite <- Hmore; rewrite Hslept; lia|].
  split; [exact Hincl|].
  intros Hno. destruct Hcase as [[? ?]|(_ & _ & k & cmd & Hint)];
    [rewrite <- ?Hmore; lia|].
  now destruct (Hno k cmd).
Qed.

Lemma X25_batch_summary_adds_up_witness :
  Batch.processed_sources
    (Batch.process_all (fun _ _ => Batch.Exited 1) ["--download-media"]
       (Some ["channel_one"; "# a comment"; "@channel_two"])) = 2 /\
  Batch.successful_sources
    (Batch.process_all (fun _ _ => Batch.Exited 1) ["--download-media"]
       (Some ["channel_one"; "# a comment"; "@channel_two"])) +
  List.length
    (Batch.failed_sources
       (Batch.process_all (fun _ _ => Batch.Exited 1) ["--download-media"]
          (Some ["channel_one"; "# a comment"; "@channel_two"]))) = 2.
Proof.
  destruct (X25_batch_summary_adds_up (fun _ _ => Batch.Exited 1) ["--download-media"]
              (Some ["channel_one"; "# a comment"; "@channel_two"]))
    as (_ & _ & _ & _ & _ & _ & H).
  apply H. discriminate.
Defined.

(** ** The channel database creator *)

Lemma load_channels_spec lines :
  forall n,
    ChannelDb.load_channels_from_file lines =
    List.filter Text.truthy (List.map Batch.original (Batch.read_lines n lines)).
Proof.
  induction lines as [|raw rest IH]; intros n; [reflexivity|].
  cbn [ChannelDb.load_channels_from_file Batch.read_lines].
  unfold Batch.parse_line, ChannelDb._sanitize_channel_username.
  rewrite strip_idem.
  destruct (negb (Text.truthy (Text.strip raw)) || String.prefix "#" (Text.strip raw));
    [apply IH|].
  set (line := if String.prefix "@" (Text.strip raw)
               then Batch.drop_chars 1 (Text.strip raw) else Text.strip raw).
  destruct (String.prefix "playlist_" line); cbn [List.map List.filter Batch.original];
    destruct (Text.truthy line); now rewrite (IH (S n)).
Qed.

(** X26. The two readers of a sources file agree.  [load_channels_from_file]
    of the channel database creator returns exactly the texts that
    [read_sources] of the batch runner records as [original], in the same
    order, minus the empty one a lone [@] gives; so it never yields an empty
    name, and never more names than the file has lines that are neither
    blank nor comments. *)
Theorem X26_channel_list_agrees_with_batch_sources :
  forall lines,
    ChannelDb.load_channels_from_file lines =
      List.filter Text.truthy (List.map Batch.original (Batch.read_sources (Some lines))) /\
    Forall (fun name => name <> EmptyString) (ChannelDb.load_channels_from_file lines) /\
    (List.length (ChannelDb.load_channels_from_file lines) <=
     List.length (Batch.read_sources (Some lines)))%nat /\
    ChannelDb._sanitize_channel_username None = EmptyString.
Proof.
  intros lines. pose proof (load_channels_spec lines 1) as H.
  unfold Batch.read_sources. split; [exact H|]. split; [|split; [|reflexivity]].
  - rewrite H. apply Forall_forall. intros x Hx.
    apply list_elem_of_In, filter_In in Hx as [_ Hx]. now destruct x.
  - rewrite H. etransitivity; [apply List.filter_length_le|]. now rewrite List.length_map.
Qed.

(** ** Initialisation from files *)

Lemma subtitles_status_lookup fs vid langs :
  forall status lang,
    subtitles_status_from_files fs vid langs status !! lang =
    if bool_decide (lang ∈ langs)
    then Some (if subtitle_files_exist fs lang vid then "completed" else "not_available")
    else status !! lang.
Proof.
  induction langs as [|l langs IH]; intros status lang.
  - cbn [subtitles_status_from_files].
    now rewrite bool_decide_eq_false_2 by apply not_elem_of_nil.
  - cbn [subtitles_status_from_files]. rewrite IH.
    destruct (decide (lang ∈ langs)) as [Hin|Hout].
    + rewrite !bool_decide_eq_true_2; [reflexivity | apply elem_of_cons; now right | assumption].
    + rewrite (bool_decide_eq_false_2 _ Hout).
      destruct (decide (l = lang)) as [->|Hne].
      * rewrite bool_decide_eq_true_2 by (apply elem_of_cons; now left). apply lookup_insert_eq.
      * rewrite bool_decide_eq_false_2
          by (intros H; apply elem_of_cons in H as [?|?]; [congruence | contradiction]).
        now apply lookup_insert_ne.
Qed.

Lemma subtitles_status_requested fs vid langs status lang :
  In lang langs ->
  subtitles_status_from_files fs vid langs status !! lang =
  Some (if subtitle_files_exist fs lang vid then "completed" else "not_available").
Proof.
  intros Hin. rewrite subtitles_status_lookup.
  now rewrite bool_decide_eq_true_2 by now apply list_elem_of_In.
Qed.

Lemma subtitles_status_other fs vid langs status lang :
  ~ In lang langs ->
  subtitles_status_from_files fs vid langs status !! lang = status !! lang.
Proof.
  intros Hout. rewrite subtitles_status_lookup.
  now rewrite bool_decide_eq_false_2 by (intros H; now apply list_elem_of_In in H).
Qed.

Lemma subtitles_status_all_completed fs vid langs :
  map_Forall (fun _ status => status = "completed")
    (subtitles_status_from_files fs vid langs ∅) <->
  (forall lang, In lang langs -> subtitle_files_exist fs lang vid = true).
Proof.
  unfold map_Forall. split.
  - intros H lang Hin. specialize (H lang).
    rewrite subtitles_status_requested in H by assumption.
    destruct (subtitle_files_exist fs lang vid); [reflexivity|].
    specialize (H _ eq_refl). discriminate.
  - intros H lang status.
    destruct (in_dec string_dec lang langs) as [Hin|Hout].
    + rewrite subtitles_status_requested, (H lang Hin) by assumption. now intros [= <-].
    + rewrite subtitles_status_other by assumption. rewrite lookup_empty. discriminate.
Qed.

Lemma initialize_row E json vid langs media w r :
  find_row vid (videos w) = Some r -> metadata_completed (completion r) = None ->
  find_row vid (videos (initialize_completion_status_from_files E json vid langs media w)) =
  Some (with_completion
          {| metadata_completed := Some true;
             subtitles_completed := Some (subtitles_status_from_files (files w) vid langs ∅);
             media_completed :=
               Some (if media then any_file_above_threshold vid (files w) else false);
             processing_status :=
               Some (if (if bool_decide (langs = []) then true
                         else bool_decide
                                (map_Forall (fun _ status => status = "completed")
                                   (subtitles_status_from_files (files w) vid langs ∅)))
                        && ((if media then any_file_above_threshold vid (files w) else false)
                            || negb media)
                     then "completed" else "partial");
             last_processing_step := Some "initialized_from_files";
             completion_details :=
               Some {[ "initialized_from_files" := "true";
                       "initialization_time" := isoformat E (now w);
                       "subtitle_files_found" :=
                         json (subtitles_status_from_files (files w) vid langs ∅);
                       "media_file_found" :=
                         if (if media then any_file_above_threshold vid (files w) else false)
                         then "true" else "false" ]} |} r).
Proof.
  intros Hr Hnone. unfold initialize_completion_status_from_files.
  rewrite Hr, Hnone. rewrite bool_decide_eq_false_2 by (intros H; now apply H).
  cbn [videos with_videos]. rewrite find_row_update_same by reflexivity.
  now rewrite Hr.
Qed.

Lemma initialize_frame E json vid langs media w :
  let w' := initialize_completion_status_from_files E json vid langs media w in
  same_ledger_shape w w' /\ files w' = files w /\ calls w' = calls w /\ clock w' = clock w.
Proof.
  cbv zeta. unfold initialize_completion_status_from_files.
  destruct (find_row vid (videos w)) as [r|]; [|repeat split; reflexivity].
  destruct (bool_decide _); [repeat split; reflexivity|].
  split; [|auto]. now apply update_rows_shape.
Qed.

(** X27. Initialisation from files writes once, and only what the files
    show.  [initialize_completion_status_from_files] changes nothing for an
    id without a row and nothing for a row whose metadata flag is already
    set, so a second call is always idle.  On a row it does initialise it
    stores, for each requested language, ['completed'] when a non-empty
    caption file exists and ['not_available'] otherwise, and nothing for
    other languages; the media flag is set exactly when media was asked for
    and some file of the item exceeds one MiB; the overall status is
    ['completed'] exactly when every requested language has its file and
    media, if asked for, was found, and ['partial'] otherwise.  No row is
    added, removed or re-described; no file or command is involved. *)
Theorem X27_initialisation_writes_what_the_files_show :
  forall E json vid langs media w,
    let w' := initialize_completion_status_from_files E json vid langs media w in
    (forall r, find_row vid (videos w) = Some r ->
               metadata_completed (completion r) <> None -> w' = w) /\
    (find_row vid (videos w) = None -> w' = w) /\
    (forall json2 langs2 media2,
        initialize_completion_status_from_files E json2 vid langs2 media2 w' = w') /\
    (forall r, find_row vid (videos w) = Some r ->
               metadata_completed (completion r) = None ->
       (forall lang, In lang langs ->
          stored_subtitle_status w' vid lang =
          Some (if subtitle_files_exist (files w) lang vid
                then "completed" else "not_available")) /\
       (forall lang, ~ In lang langs -> stored_subtitle_status w' vid lang = None) /\
       stored_media_completed w' vid =
         Some (media && any_file_above_threshold vid (files w)) /\
       (stored_processing_status w' vid = Some "completed" \/
        stored_processing_status w' vid = Some "partial") /\
       (stored_processing_status w' vid = Some "completed" <->
        (forall lang, In lang langs -> subtitle_files_exist (files w) lang vid = true) /\
        (media = true -> any_file_above_threshold vid (files w) = true))) /\
    same_ledger_shape w w' /\ files w' = files w /\ calls w' = calls w.
Proof.
  intros E json vid langs media w. cbv zeta.
  assert (Hset : forall r, find_row vid (videos w) = Some r ->
                   metadata_completed (completion r) <> None ->
                   initialize_completion_status_from_files E json vid langs media w = w).
  { intros r Hr Hm. unfold initialize_completion_status_from_files.
    now rewrite Hr, bool_decide_eq_true_2. }
  assert (Hnone : find_row vid (videos w) = None ->
                  initialize_completion_status_from_files E json vid langs media w = w).
  { intros Hr. unfold initialize_completion_status_from_files. now rewrite Hr. }
  split; [exact Hset|]. split; [exact Hnone|]. split; [|split].
  - intros json2 langs2 media2.
    destruct (find_row vid (videos w)) as [r|] eqn:Hr.
    + destruct (decide (metadata_completed (completion r) = None)) as [Hm|Hm].
      * pose proof (initialize_row E json vid langs media w r Hr Hm) as Hrow.
        unfold initialize_completion_status_from_files at 1. rewrite Hrow.
        cbn [completion with_completion metadata_completed].
        now rewrite bool_decide_eq_true_2.
      * rewrite (Hset r eq_refl Hm).
        unfold initialize_completion_status_from_files. now rewrite Hr, bool_decide_eq_true_2.
    + rewrite (Hnone eq_refl).
      unfold initialize_completion_status_from_files. now rewrite Hr.
  - intros r Hr Hm. pose proof (initialize_row E json vid langs media w r Hr Hm) as Hrow.
    unfold stored_subtitle_status, stored_media_completed, stored_processing_status.
    rewrite Hrow. cbn [completion with_completion subtitles_completed media_completed
                         processing_status].
    split; [|split; [|split; [|split]]].
    + intros lang Hin. now apply subtitles_status_requested.
    + intros lang Hout. rewrite subtitles_status_other by assumption. apply lookup_empty.
    + now destruct media.
    + match goal with |- context [if ?b then "completed" else "partial"] => destruct b end;
        auto.
    + pose proof (subtitles_status_all_completed (files w) vid langs) as Hall.
      destruct (decide (langs = [])) as [->|Hne].
      * rewrite bool_decide_eq_true_2 by reflexivity. cbn [andb].
        destruct media; cbn [negb orb].
        -- rewrite ?orb_false_r. destruct (any_file_above_threshold vid (files w)).
           ++ split; [intros _; split; [intros ? []|auto] | reflexivity].
           ++ split; [discriminate|]. intros [_ H]. specialize (H eq_refl). discriminate.
        -- rewrite ?orb_true_r.
           split; [intros _; split; [intros ? [] | discriminate] | reflexivity].
      * rewrite (bool_decide_eq_false_2 (langs = [])) by assumption.
        destruct (decide (map_Forall (fun _ status => status = "completed")
                            (subtitles_status_from_files (files w) vid langs ∅)))
          as [Hyes|Hno].
        -- rewrite bool_decide_eq_true_2 by assumption. cbn [andb].
           destruct media; cbn [negb orb].
           ++ rewrite ?orb_false_r. destruct (any_file_above_threshold vid (files w)).
              ** split; [intros _; split; [now apply Hall | auto] | reflexivity].
              ** split; [discriminate|]. intros [_ H]. specialize (H eq_refl). discriminate.
           ++ rewrite ?orb_true_r.
              split; [intros _; split; [now apply Hall | discriminate] | reflexivity].
        -- rewrite bool_decide_eq_false_2 by assumption. cbn [andb].
           split; [discriminate|]. intros [H _]. exfalso. apply Hno. now apply Hall.
  - pose proof (initialize_frame E json vid langs media w) as H. cbv zeta in H. tauto.
Qed.




Lemma X27_initialisation_writes_what_the_files_show_witness :
  stored_subtitle_status
    (initialize_completion_status_from_files offline_env (fun _ => "{}") "v" ["fa"; "en"]
       false legacy_world) "v" "fa" = Some "not_available" /\
  stored_subtitle_status
    (initialize_completion_status_from_files offline_env (fun _ => "{}") "v" ["fa"; "en"]
       false legacy_world) "v" "en" = Some "completed".
Proof.
  destruct (X27_initialisation_writes_what_the_files_show offline_env (fun _ => "{}") "v"
              ["fa"; "en"] false legacy_world) as (_ & _ & _ & H & _).
  destruct (H _ eq_refl eq_refl) as (Hlang & _).
  split; [apply (Hlang "fa") | apply (Hlang "en")]; simpl; auto.
Defined.

(** ** The evaluator, characterised *)

Lemma check_languages_result E vid stored langs :
  forall needs missing w,
    fst (check_subtitle_languages E vid stored langs needs missing w) =
    (needs || existsb (language_missing stored (files w) vid) langs,
     (missing ++ List.filter (language_missing stored (files w) vid) langs)%list).
Proof.
  induction langs as [|x langs IH]; intros needs missing w.
  - simpl. now rewrite orb_false_r, app_nil_r.
  - cbn [check_subtitle_languages existsb List.filter]. unfold language_missing at 1 3.
    destruct (bool_decide (stored !! x = Some "not_available")); [apply IH|].
    destruct (subtitle_files_exist (files w) x vid); [apply IH|].
    cbn [negb andb orb]. rewrite IH.
    assert (Hf : files (if bool_decide (stored !! x = Some "completed")
                        then update_video_completion_status E vid None
                               (Some {[ x := "missing" ]}) None (Some "partial") None w
                        else w) = files w)
      by (destruct (bool_decide _); [apply update_status_frame | reflexivity]).
    rewrite Hf, orb_true_r. cbn [orb]. now rewrite <- app_assoc.
Qed.

Lemma check_languages_no_write E vid stored langs :
  forall needs missing w,
    (forall lang, In lang langs -> language_missing stored (files w) vid lang = true ->
                  stored !! lang <> Some "completed") ->
    snd (check_subtitle_languages E vid stored langs needs missing w) = w.
Proof.
  induction langs as [|x langs IH]; intros needs missing w Hall; [reflexivity|].
  cbn [check_subtitle_languages].
  pose proof (Hall x (or_introl eq_refl)) as Hx. unfold language_missing in Hx.
  assert (Hrest : forall w0, files w0 = files w ->
            forall lang, In lang langs -> language_missing stored (files w0) vid lang = true ->
                         stored !! lang <> Some "completed").
  { intros w0 Hf lang Hin Hm. rewrite Hf in Hm. apply Hall; [now right | exact Hm]. }
  destruct (bool_decide (stored !! x = Some "not_available")); [now apply IH, Hrest|].
  destruct (subtitle_files_exist (files w) x vid); [now apply IH, Hrest|].
  rewrite bool_decide_eq_false_2 by now apply Hx.
  now apply IH, Hrest.
Qed.

Lemma check_languages_statuses E vid stored langs :
  forall needs missing w,
    (forall lang, stored_subtitle_status w vid lang = Some "completed" ->
                  stored !! lang = Some "completed") ->
    (forall lang, stored_subtitle_status w vid lang = Some "not_available" <->
                  stored !! lang = Some "not_available") ->
    is_Some (find_row vid (videos w)) ->
    let w' := snd (check_subtitle_languages E vid stored langs needs missing w) in
    (forall lang, stored_subtitle_status w' vid lang = Some "not_available" <->
                  stored !! lang = Some "not_available") /\
    (forall lang, stored_subtitle_status w vid lang <> Some "completed" ->
                  stored_subtitle_status w' vid lang <> Some "completed") /\
    (forall lang, In lang langs -> language_missing stored (files w) vid lang = true ->
                  stored_subtitle_status w' vid lang <> Some "completed").
Proof.
  induction langs as [|x langs IH]; intros needs missing w HC HN Hex; cbv zeta.
  { simpl. split; [exact HN|]. split; [auto | intros ? []]. }
  cbn [check_subtitle_languages].
  destruct (bool_decide (stored !! x = Some "not_available")) eqn:Hna.
  { destruct (IH needs missing w HC HN Hex) as (I1 & I2 & I3).
    split; [exact I1|]. split; [exact I2|].
    intros lang [<-|Hin] Hm; [|now apply I3].
    unfold language_missing in Hm. now rewrite Hna in Hm. }
  destruct (subtitle_files_exist (files w) x vid) eqn:Hfx.
  { destruct (IH needs missing w HC HN Hex) as (I1 & I2 & I3).
    split; [exact I1|]. split; [exact I2|].
    intros lang [<-|Hin] Hm; [|now apply I3].
    unfold language_missing in Hm. rewrite Hfx in Hm. now rewrite andb_false_r in Hm. }
  apply bool_decide_eq_false in Hna.
  destruct (bool_decide (stored !! x = Some "completed")) eqn:Hcx.
  - apply bool_decide_eq_true in Hcx.
    set (w1 := update_video_completion_status E vid None (Some {[ x := "missing" ]}) None
                 (Some "partial") None w).
    assert (Hx1 : stored_subtitle_status w1 vid x = Some "missing").
    { apply update_status_sets_language; [assumption | apply lookup_singleton_eq]. }
    assert (Ho1 : forall lang, lang <> x ->
                    stored_subtitle_status w1 vid lang = stored_subtitle_status w vid lang).
    { intros lang Hne. now apply update_status_other_language. }
    assert (Hf1 : files w1 = files w) by apply update_status_frame.
    destruct (IH true (missing ++ [x])%list w1) as (I1 & I2 & I3).
    + intros lang. destruct (decide (lang = x)) as [->|Hne]; [now rewrite Hx1|].
      rewrite Ho1 by assumption. apply HC.
    + intros lang. destruct (decide (lang = x)) as [->|Hne].
      * rewrite Hx1, Hcx. split; discriminate.
      * rewrite Ho1 by assumption. apply HN.
    + now apply update_status_keeps_existence.
    + split; [exact I1|]. split.
      * intros lang Hl. apply I2. destruct (decide (lang = x)) as [->|Hne];
          [rewrite Hx1; discriminate | now rewrite Ho1].
      * intros lang [<-|Hin] Hm; [apply I2; rewrite Hx1; discriminate|].
        apply I3; [assumption | now rewrite Hf1].
  - apply bool_decide_eq_false in Hcx.
    destruct (IH true (missing ++ [x])%list w HC HN Hex) as (I1 & I2 & I3).
    split; [exact I1|]. split; [exact I2|].
    intros lang [<-|Hin] Hm; [|now apply I3].
    apply I2. intros Hc. apply Hcx. now apply HC.
Qed.

Lemma update_status_keeps_metadata E u vid sc dc ps ls w :
  stored_metadata_completed (update_video_completion_status E u None sc dc ps ls w) vid
  = stored_metadata_completed w vid.
Proof.
  unfold stored_metadata_completed. destruct (decide (u = vid)) as [->|Hne].
  - destruct (find_row vid (videos w)) as [r|] eqn:Hr.
    + now rewrite (update_status_row E vid None sc dc ps ls w r Hr).
    + now rewrite update_status_missing_row.
  - now rewrite update_status_other_row.
Qed.

Lemma check_languages_keeps_metadata E u vid stored langs :
  forall needs missing w,
    stored_metadata_completed
      (snd (check_subtitle_languages E u stored langs needs missing w)) vid
    = stored_metadata_completed w vid.
Proof.
  induction langs as [|x langs IH]; intros needs missing w; [reflexivity|].
  cbn [check_subtitle_languages].
  destruct (bool_decide (stored !! x = Some "not_available")); [apply IH|].
  destruct (subtitle_files_exist (files w) x u); [apply IH|].
  rewrite IH. destruct (bool_decide _); [apply update_status_keeps_metadata | reflexivity].
Qed.

(** What one evaluation reports and what it leaves in the ledger, for an
    item that has a row. *)
Lemma evaluator_leaves E vid subs langs media w r :
  find_row vid (videos w) = Some r ->
  let stored := default ∅ (subtitles_completed (completion r)) in
  let status := fst (get_video_completion_status E vid subs langs media w) in
  let w1 := snd (get_video_completion_status E vid subs langs media w) in
  (cs_exists status = true /\
   needs_metadata status = negb (default false (metadata_completed (completion r))) /\
   needs_subtitles status = subs && existsb (language_missing stored (files w) vid) langs /\
   missing_subtitle_languages status =
     (if subs then List.filter (language_missing stored (files w) vid) langs else []) /\
   needs_media status = media && negb (has_substantial_file vid (files w)) /\
   is_fully_completed status =
     negb (needs_metadata status) && negb (needs_subtitles status)
     && negb (needs_media status)) /\
  files w1 = files w /\
  is_Some (find_row vid (videos w1)) /\
  stored_metadata_completed w1 vid = metadata_completed (completion r) /\
  (forall lang, stored_subtitle_status w1 vid lang = Some "not_available" <->
                stored !! lang = Some "not_available") /\
  (subs = true ->
   forall lang, In lang langs -> language_missing stored (files w) vid lang = true ->
                stored_subtitle_status w1 vid lang <> Some "completed") /\
  (media = true -> has_substantial_file vid (files w) = false ->
   stored_media_completed w1 vid <> Some true).
Proof.
  intros Hr. cbv zeta.
  set (stored := default ∅ (subtitles_completed (completion r))).
  assert (Hstored : forall lang, stored_subtitle_status w vid lang = stored !! lang).
  { intros lang. unfold stored_subtitle_status, stored. rewrite Hr.
    destruct (subtitles_completed (completion r)); [reflexivity|]. symmetry. apply lookup_empty. }
  assert (Hmeta0 : stored_metadata_completed w vid = metadata_completed (completion r))
    by (unfold stored_metadata_completed; now rewrite Hr).
  assert (Hmedia0 : stored_media_completed w vid = media_completed (completion r))
    by (unfold stored_media_completed; now rewrite Hr).
  assert (Hex0 : is_Some (find_row vid (videos w))) by eauto.
  (* the language pass *)
  pose proof (check_languages_result E vid stored langs false [] w) as HA.
  pose proof (check_languages_statuses E vid stored langs false [] w) as HB.
  pose proof (check_languages_files E vid stored langs false [] w) as HF.
  pose proof (check_languages_keeps_media E vid vid stored langs false [] w) as HM.
  pose proof (check_languages_keeps_metadata E vid vid stored langs false [] w) as HD.
  pose proof (check_languages_keeps_existence E vid vid stored langs false [] w Hex0) as HE.
  cbv zeta in HB.
  specialize (HB ltac:(intros lang; rewrite Hstored; auto)
                 ltac:(intros lang; rewrite Hstored; tauto) Hex0).
  unfold get_video_completion_status. rewrite Hr. fold stored.
  destruct (check_subtitle_languages E vid stored langs false [] w) as [[n m] wA].
  cbn [fst snd] in *. injection HA as -> ->. destruct HB as (B1 & B2 & B3).
  assert (Hlang :
    let wA' := if subs then wA else w in
    files wA' = files w /\ is_Some (find_row vid (videos wA')) /\
    stored_metadata_completed wA' vid = metadata_completed (completion r) /\
    stored_media_completed wA' vid = media_completed (completion r) /\
    (forall lang, stored_subtitle_status wA' vid lang = Some "not_available" <->
                  stored !! lang = Some "not_available") /\
    (subs = true ->
     forall lang, In lang langs -> language_missing stored (files w) vid lang = true ->
                  stored_subtitle_status wA' vid lang <> Some "completed")).
  { destruct subs; cbv zeta.
    - rewrite HD, HM. auto 10.
    - split; [reflexivity|]. split; [assumption|]. split; [assumption|].
      split; [assumption|]. split; [intros lang; rewrite Hstored; tauto | discriminate]. }
  cbv zeta in Hlang.
  assert (Hmedia_step : forall wA',
    files wA' = files w -> is_Some (find_row vid (videos wA')) ->
    stored_metadata_completed wA' vid = metadata_completed (completion r) ->
    stored_media_completed wA' vid = media_completed (completion r) ->
    (forall lang, stored_subtitle_status wA' vid lang = Some "not_available" <->
                  stored !! lang = Some "not_available") ->
    (subs = true ->
     forall lang, In lang langs -> language_missing stored (files w) vid lang = true ->
                  stored_subtitle_status wA' vid lang <> Some "completed") ->
    let w1 := if media then
                if has_substantial_file vid (files wA') then wA'
                else if default false (media_completed (completion r))
                     then update_video_completion_status E vid None None (Some false)
                            (Some "partial") None wA'
                     else wA'
              else wA' in
    files w1 = files w /\ is_Some (find_row vid (videos w1)) /\
    stored_metadata_completed w1 vid = metadata_completed (completion r) /\
    (forall lang, stored_subtitle_status w1 vid lang = Some "not_available" <->
                  stored !! lang = Some "not_available") /\
    (subs = true ->
     forall lang, In lang langs -> language_missing stored (files w) vid lang = true ->
                  stored_subtitle_status w1 vid lang <> Some "completed") /\
    (media = true -> has_substantial_file vid (files w) = false ->
     stored_media_completed w1 vid <> Some true)).
  { intros wA' F1 F2 F3 F4 F5 F6. cbv zeta. rewrite F1.
    destruct media; [|repeat split; auto; try apply F5; try discriminate].
    destruct (has_substantial_file vid (files w)) eqn:Hsub.
    { repeat split; auto; try apply F5; try discriminate. }
    destruct (default false (media_completed (completion r))) eqn:Hmc.
    - split; [rewrite <- F1; apply update_status_frame|].
      split; [now apply update_status_keeps_existence|].
      split; [now rewrite update_status_keeps_metadata|].
      split; [intros lang; rewrite update_status_keeps_language; [apply F5 | intros _ d [=]]|].
      split.
      + intros Hs lang Hin Hm. rewrite update_status_keeps_language; [now apply F6 | intros _ d [=]].
      + intros _ _. destruct F2 as [r0 Hr0]. unfold stored_media_completed.
        rewrite (update_status_row _ _ _ _ _ _ _ _ _ Hr0). simpl. discriminate.
    - repeat split; auto; try apply F5.
      intros _ _. rewrite F4. intros Habs. rewrite Habs in Hmc. discriminate. }
  destruct subs.
  - destruct Hlang as (F1 & F2 & F3 & F4 & F5 & F6).
    specialize (Hmedia_step wA F1 F2 F3 F4 F5 F6). cbv zeta in Hmedia_step.
    rewrite F1 in Hmedia_step |- *.
    destruct media; cbn [fst snd];
      [destruct (has_substantial_file vid (files w)); cbn [fst snd]|];
      (split; [repeat split; reflexivity | exact Hmedia_step]).
  - destruct Hlang as (F1 & F2 & F3 & F4 & F5 & F6).
    specialize (Hmedia_step w F1 F2 F3 F4 F5 F6). cbv zeta in Hmedia_step.
    destruct media; cbn [fst snd];
      [destruct (has_substantial_file vid (files w)); cbn [fst snd]|];
      (split; [repeat split; reflexivity | exact Hmedia_step]).
Qed.

Lemma evaluator_settled E vid subs langs media w r :
  find_row vid (videos w) = Some r ->
  (subs = true ->
   forall lang, In lang langs ->
     language_missing (default ∅ (subtitles_completed (completion r))) (files w) vid lang
     = true ->
     default ∅ (subtitles_completed (completion r)) !! lang <> Some "completed") ->
  (media = true -> has_substantial_file vid (files w) = false ->
   media_completed (completion r) <> Some true) ->
  snd (get_video_completion_status E vid subs langs media w) = w.
Proof.
  intros Hr Hlangs Hmedia. unfold get_video_completion_status. rewrite Hr.
  set (stored := default ∅ (subtitles_completed (completion r))) in *.
  assert (Hm : forall w0, w0 = w ->
            snd (let '(needs_med, w2) :=
                   if media then
                     if has_substantial_file vid (files w0) then (false, w0)
                     else (true,
                           if default false (media_completed (completion r))
                           then update_video_completion_status E vid None None (Some false)
                                  (Some "partial") None w0
                           else w0)
                   else (false, w0) in (needs_med, w2)) = w).
  { intros w0 ->. destruct media; [|reflexivity].
    destruct (has_substantial_file vid (files w)) eqn:Hs; [reflexivity|].
    specialize (Hmedia eq_refl eq_refl).
    destruct (media_completed (completion r)) as [[|]|]; [contradiction | reflexivity..]. }
  destruct subs.
  - pose proof (check_languages_no_write E vid stored langs false [] w (Hlangs eq_refl)) as Hw.
    destruct (check_subtitle_languages E vid stored langs false [] w) as [[n m] wA].
    cbn [snd] in Hw. subst wA. specialize (Hm w eq_refl).
    destruct media; [destruct (has_substantial_file vid (files w))|]; exact Hm.
  - specialize (Hm w eq_refl).
    destruct media; [destruct (has_substantial_file vid (files w))|]; exact Hm.
Qed.

(** X29. The evaluator, characterised, and idempotent.  For an item with
    a row, what [get_video_completion_status] reports is read off the row
    and the files: metadata is needed unless its flag is set; the missing
    languages are exactly the requested ones, in request order, that are
    not stored as ['not_available'] and have no non-empty caption file;
    media is needed exactly when it is asked for and no finished file above
    one MiB exists.  Evaluating a second time changes nothing more in the
    ledger and reports the same needs, with or without a row: whatever the
    evaluator downgrades, it downgrades on the first call. *)
Theorem X29_evaluation_is_idempotent :
  forall E vid subs langs media w,
    let '(s1, w1) := get_video_completion_status E vid subs langs media w in
    let '(s2, w2) := get_video_completion_status E vid subs langs media w1 in
    (forall r, find_row vid (videos w) = Some r ->
       needs_metadata s1 = negb (default false (metadata_completed (completion r))) /\
       missing_subtitle_languages s1 =
         (if subs
          then List.filter
                 (language_missing (default ∅ (subtitles_completed (completion r)))
                    (files w) vid) langs
          else []) /\
       needs_subtitles s1 =
         match missing_subtitle_languages s1 with [] => false | _ => true end /\
       needs_media s1 = media && negb (has_substantial_file vid (files w))) /\
    w2 = w1 /\
    cs_exists s2 = cs_exists s1 /\
    needs_metadata s2 = needs_metadata s1 /\
    needs_subtitles s2 = needs_subtitles s1 /\
    missing_subtitle_languages s2 = missing_subtitle_languages s1 /\
    needs_media s2 = needs_media s1 /\
    is_fully_completed s2 = is_fully_completed s1.
Proof.
  intros E vid subs langs media w.
  destruct (find_row vid (videos w)) as [r|] eqn:Hr.
  2:{ unfold get_video_completion_status. rewrite Hr. cbn [fst snd]. rewrite Hr.
      split; [discriminate | repeat split]. }
  pose proof (evaluator_leaves E vid subs langs media w r Hr) as H1. cbv zeta in H1.
  destruct (get_video_completion_status E vid subs langs media w) as [s1 w1].
  cbn [fst snd] in H1.
  destruct H1 as ((E1 & M1 & S1 & L1 & D1 & C1) & F & [r1 Hr1] & Hmeta & HN & HC & HMed).
  set (stored := default ∅ (subtitles_completed (completion r))) in *.
  set (stored1 := default ∅ (subtitles_completed (completion r1))).
  assert (Hstored1 : forall lang, stored_subtitle_status w1 vid lang = stored1 !! lang).
  { intros lang. unfold stored_subtitle_status, stored1. rewrite Hr1.
    destruct (subtitles_completed (completion r1)); [reflexivity|]. symmetry.
    apply lookup_empty. }
  assert (Hsame : forall lang,
            language_missing stored1 (files w1) vid lang =
            language_missing stored (files w) vid lang).
  { intros lang. unfold language_missing. rewrite F. f_equal. f_equal.
    apply bool_decide_ext. rewrite <- Hstored1. apply HN. }
  pose proof (evaluator_leaves E vid subs langs media w1 r1 Hr1) as H2. cbv zeta in H2.
  pose proof (evaluator_settled E vid subs langs media w1 r1 Hr1) as Hfix.
  fold stored1 in H2, Hfix.
  destruct (get_video_completion_status E vid subs langs media w1) as [s2 w2].
  cbn [fst snd] in H2, Hfix.
  destruct H2 as ((E2 & M2 & S2 & L2 & D2 & C2) & _).
  assert (Hmd : metadata_completed (completion r1) = metadata_completed (completion r)).
  { rewrite <- Hmeta. unfold stored_metadata_completed. now rewrite Hr1. }
  assert (HL : missing_subtitle_languages s2 = missing_subtitle_languages s1).
  { rewrite L1, L2. destruct subs; [|reflexivity]. apply List.filter_ext. exact Hsame. }
  assert (HS : needs_subtitles s2 = needs_subtitles s1).
  { rewrite S1, S2. f_equal. clear -Hsame. induction langs as [|l langs IH]; [reflexivity|].
    simpl. now rewrite Hsame, IH. }
  assert (HM : needs_metadata s2 = needs_metadata s1) by (rewrite M1, M2, Hmd; reflexivity).
  assert (HD : needs_media s2 = needs_media s1) by (rewrite D1, D2, F; reflexivity).
  split.
  { intros r0 [= <-]. fold stored. split; [exact M1|]. split; [exact L1|].
    split; [|exact D1]. rewrite S1, L1. destruct subs; [|reflexivity]. cbn [andb].
    clear. induction langs as [|l langs IH]; [reflexivity|]. simpl.
    destruct (language_missing stored (files w) vid l); [reflexivity | exact IH]. }
  split.
  { apply Hfix.
    - intros Hs lang Hin Hm. rewrite <- Hstored1. apply (HC Hs lang Hin).
      now rewrite <- Hsame.
    - intros Hm Hsub. rewrite F in Hsub. specialize (HMed Hm Hsub).
      unfold stored_media_completed in HMed. now rewrite Hr1 in HMed. }
  split; [congruence|]. split; [exact HM|]. split; [exact HS|]. split; [exact HL|].
  split; [exact HD|]. rewrite C1, C2. congruence.
Qed.

Lemma X29_evaluation_is_idempotent_witness :
  missing_subtitle_languages
    (fst (get_video_completion_status offline_env "v" true ["fa"; "en"] false stale_world))
  = ["fa"; "en"] /\
  snd (get_video_completion_status offline_env "v" true ["fa"; "en"] false
         (snd (get_video_completion_status offline_env "v" true ["fa"; "en"] false
                 stale_world)))
  = snd (get_video_completion_status offline_env "v" true ["fa"; "en"] false stale_world).
Proof.
  pose proof (X29_evaluation_is_idempotent offline_env "v" true ["fa"; "en"] false
                stale_world) as H.
  destruct (get_video_completion_status offline_env "v" true ["fa"; "en"] false stale_world)
    as [s1 w1].
  cbn [fst snd] in *.
  destruct (get_video_completion_status offline_env "v" true ["fa"; "en"] false w1)
    as [s2 w2].
  destruct H as (Hchar & Hw & _). cbn [fst snd]. split; [|exact Hw].
  destruct (Hchar _ eq_refl) as (_ & Hl & _). exact Hl.
Defined.

(** ** Retry budgets *)

Lemma issues_at_most_same w w' : calls w' = calls w -> issues_at_most 0 w w'.
Proof. intros H. exists []. split; [exact H | reflexivity]. Qed.

Lemma issues_at_most_trans n m w1 w2 w3 :
  issues_at_most n w1 w2 -> issues_at_most m w2 w3 -> issues_at_most (n + m) w1 w3.
Proof.
  intros (i1 & H1 & L1) (i2 & H2 & L2). exists (i2 ++ i1)%list. split.
  - rewrite H2, H1. apply app_assoc.
  - rewrite List.length_app. lia.
Qed.

Lemma issues_at_most_weaken n m w w' :
  (n <= m)%nat -> issues_at_most n w w' -> issues_at_most m w w'.
Proof. intros Hle (i & H & L). exists i. split; [exact H | lia]. Qed.

Section Issues.
Context {S : Type} (proj : S -> World).

Lemma issues_weaken {A} n m (c : M S A) :
  (n <= m)%nat -> issues proj n c -> issues proj m c.
Proof. intros Hle H s. eapply issues_at_most_weaken; [exact Hle | apply H]. Qed.

Lemma issues_ret {A} (a : A) : issues proj 0 (ret a).
Proof. intros s. now apply issues_at_most_same. Qed.

Lemma issues_raise {A} e : issues proj 0 (@raise S A e).
Proof. intros s. now apply issues_at_most_same. Qed.

Lemma issues_get : issues proj 0 (@get S).
Proof. intros s. now apply issues_at_most_same. Qed.

Lemma issues_modify f :
  (forall s, calls (proj (f s)) = calls (proj s)) -> issues proj 0 (modify f).
Proof. intros H s. apply issues_at_most_same, H. Qed.

Lemma issues_bind {A B} n p (c : M S A) (k : A -> M S B) :
  issues proj n c -> (forall a, issues proj p (k a)) -> issues proj (n + p) (bind c k).
Proof.
  intros Hc Hk s. unfold bind. specialize (Hc s).
  destruct (c s) as [[e|a] s1]; cbn [snd] in *.
  - eapply issues_at_most_weaken; [|exact Hc]. lia.
  - eapply issues_at_most_trans; [exact Hc | apply Hk].
Qed.

Lemma issues_try {A} n p (c : M S A) (h : Exn -> M S A) :
  issues proj n c -> (forall e, issues proj p (h e)) -> issues proj (n + p) (try_except c h).
Proof.
  intros Hc Hh s. unfold try_except. specialize (Hc s).
  destruct (c s) as [[e|a] s1]; cbn [snd] in *.
  - eapply issues_at_most_trans; [exact Hc | apply Hh].
  - eapply issues_at_most_weaken; [|exact Hc]. lia.
Qed.

Lemma issues_if {A} n (b : bool) (c1 c2 : M S A) :
  issues proj n c1 -> issues proj n c2 -> issues proj n (if b then c1 else c2).
Proof. now destruct b. Qed.

End Issues.

Lemma issues_run_process E cmd : issues id 1 (run_process E cmd).
Proof.
  intros w. unfold run_process, run, id.
  destruct (fetch E (List.length (calls w)) cmd (files w)) as [[| |rc err] fs];
    (exists [cmd]; split; [reflexivity | simpl; lia]).
Qed.

Lemma issues_sub_lift {A} n (c : M World A) :
  issues id n c -> issues sub_world n (sub_lift c).
Proof.
  intros H st. unfold sub_lift. specialize (H (sub_world st)). unfold id in H.
  now destruct (c (sub_world st)).
Qed.

Lemma issues_media_lift {A} n (c : M World A) :
  issues id n c -> issues media_world n (media_lift c).
Proof.
  intros H st. unfold media_lift. specialize (H (media_world st)). unfold id in H.
  now destruct (c (media_world st)).
Qed.

Lemma issues_relative_path E path : issues sub_world 0 (relative_path E path).
Proof.
  unfold relative_path. destruct (relative_to_cwd E path);
    [apply issues_ret | apply issues_raise].
Qed.

Lemma fetch_manual_issues E vid language : issues sub_world 1 (fetch_manual E vid language).
Proof.
  unfold fetch_manual. apply (issues_bind _ 0 1); [apply issues_get|]. intros st.
  apply issues_if; [apply (issues_weaken _ 0); [lia | apply issues_ret]|].
  apply (issues_bind _ 1 0); [apply issues_sub_lift, issues_run_process|]. intros result.
  apply (issues_bind _ 0 0); [apply issues_get|]. intros st1.
  apply issues_if; [|apply issues_if; [now apply issues_modify | apply issues_ret]].
  apply (issues_bind _ 0 0); [|intros; now apply issues_modify].
  apply issues_if; [|apply issues_ret].
  apply (issues_bind _ 0 0); [apply issues_relative_path | intros; now apply issues_modify].
Qed.

Lemma fetch_auto_issues E vid language : issues sub_world 1 (fetch_auto E vid language).
Proof.
  unfold fetch_auto. apply (issues_bind _ 0 1); [apply issues_get|]. intros st.
  apply issues_if; [apply (issues_weaken _ 0); [lia | apply issues_ret]|].
  apply (issues_bind _ 1 0); [apply issues_sub_lift, issues_run_process|]. intros result.
  apply (issues_bind _ 0 0); [apply issues_get|]. intros st1.
  apply issues_if; [|apply issues_if; [now apply issues_modify | apply issues_ret]].
  apply (issues_bind _ 0 0); [|intros; now apply issues_modify].
  apply issues_if; [|apply issues_ret].
  apply (issues_bind _ 0 0); [apply issues_relative_path | intros; now apply issues_modify].
Qed.

Lemma subtitle_retries_issues E vid language max_retries remaining :
  forall st,
    issues_at_most (2 * remaining) (sub_world st)
      (sub_world (subtitle_retries E vid language max_retries remaining st)).
Proof.
  induction remaining as [|k IH]; intros st; [now apply issues_at_most_same|].
  cbn [subtitle_retries].
  match goal with
  | |- context [try_except ?c ?h st] =>
      assert (Hg : issues sub_world 2 (try_except c h))
  end.
  { apply (issues_try _ 2 0).
    - unfold subtitle_attempt.
      apply (issues_bind _ 1 1); [apply fetch_manual_issues|]. intros _.
      apply (issues_bind _ 1 0); [apply fetch_auto_issues|]. intros _.
      apply (issues_bind _ 0 0); [apply issues_get | intros; apply issues_ret].
    - intros e. apply (issues_bind _ 0 0); [|intros; apply issues_ret].
      apply issues_modify. intros s. now destruct (_ <? _)%nat. }
  specialize (Hg st).
  destruct (try_except _ _ st) as [[e|[|]] st1]; cbn [snd] in Hg.
  - replace (2 * S k) with (2 + 2 * k) by lia.
    eapply issues_at_most_trans; [exact Hg | apply IH].
  - eapply issues_at_most_weaken; [|exact Hg]. lia.
  - replace (2 * S k) with (2 + 2 * k) by lia.
    eapply issues_at_most_trans; [exact Hg | apply IH].
Qed.

Lemma subtitle_languages_loop_issues E vid max_retries languages :
  forall results st,
    issues_at_most (2 * max_retries * List.length languages) (sub_world st)
      (sub_world (snd (subtitle_languages_loop E vid languages max_retries results st))).
Proof.
  induction languages as [|l rest IH]; intros results st.
  - apply (issues_at_most_weaken 0); [lia|]. now apply issues_at_most_same.
  - cbn [subtitle_languages_loop List.length].
    replace (2 * max_retries * S (List.length rest))
      with (2 * max_retries + 2 * max_retries * List.length rest) by lia.
    eapply issues_at_most_trans; [|apply IH].
    match goal with
    | |- context [subtitle_retries E vid l max_retries max_retries ?s0] =>
        exact (subtitle_retries_issues E vid l max_retries max_retries s0)
    end.
Qed.

Lemma alternative_loop_issues E vid audio_only rungs :
  forall w,
    issues_at_most (List.length rungs) w (snd (alternative_loop E vid audio_only rungs w)).
Proof.
  induction rungs as [|[i sleep_after] rest IH]; intros w.
  - now apply issues_at_most_same.
  - cbn [alternative_loop List.length].
    assert (Hg : issues id 1 (try_except (alternative_attempt E vid audio_only i sleep_after)
                                (fun _ => ret None))).
    { apply (issues_try _ 1 0); [|intros; apply issues_ret].
      unfold alternative_attempt.
      apply (issues_bind _ 1 0); [apply issues_run_process|]. intros result.
      apply (issues_bind _ 0 0); [apply issues_get|]. intros w0.
      match goal with |- issues _ _ (match ?f with _ => _ end) => destruct f end;
        [apply issues_ret|].
      apply (issues_bind _ 0 0); [|intros; apply issues_ret].
      apply issues_if; [now apply issues_modify | apply issues_ret]. }
    specialize (Hg w). unfold id in Hg.
    destruct (try_except _ _ w) as [[e|[r|]] w1]; cbn [snd] in Hg.
    + change (S (List.length rest)) with (1 + List.length rest).
      eapply issues_at_most_trans; [exact Hg | apply IH].
    + eapply issues_at_most_weaken; [|exact Hg]. lia.
    + change (S (List.length rest)) with (1 + List.length rest).
      eapply issues_at_most_trans; [exact Hg | apply IH].
Qed.

Lemma unlink_all_calls names :
  forall w, calls (fold_left (fun w0 (f : string * N) => unlink_media (fst f) w0) names w)
            = calls w.
Proof. intros w. apply unlink_all_frame. Qed.

Lemma media_attempt_issues E vid audio_only :
  issues media_world 4 (try_except (media_attempt E vid audio_only) media_handler).
Proof.
  apply (issues_try _ 4 0).
  2:{ intros [|msg]; (apply (issues_bind _ 0 0); [now apply issues_modify|]);
        intros; apply issues_ret. }
  unfold media_attempt.
  apply (issues_bind _ 0 4); [apply issues_get|]. intros st.
  apply (issues_bind _ 0 4).
  { apply issues_modify. intros s. now destruct (last _). }
  intros _. apply (issues_bind _ 0 4).
  { apply issues_modify. intros s. simpl. apply unlink_all_calls. }
  intros _.
  destruct (largest_file _) as [[name size]|].
  { apply (issues_weaken _ 0); [lia|].
    apply (issues_bind _ 0 0); [now apply issues_modify | intros; apply issues_ret]. }
  apply (issues_bind _ 1 3); [apply issues_media_lift, issues_run_process|]. intros result.
  apply issues_if.
  - apply (issues_weaken _ 0); [lia|].
    apply (issues_bind _ 0 0); [apply issues_get|]. intros st1.
    destruct (largest_file _) as [[name size]|].
    + apply issues_if;
        (apply (issues_bind _ 0 0); [now apply issues_modify | intros; apply issues_ret]).
    + apply (issues_bind _ 0 0); [now apply issues_modify | intros; apply issues_ret].
  - apply issues_if.
    + apply (issues_bind _ 3 0).
      * apply issues_media_lift. intros w. unfold id, _try_alternative_download_methods.
        pose proof (alternative_loop_issues E vid audio_only methods w) as H.
        now destruct (alternative_loop E vid audio_only methods w).
      * intros alt. apply issues_if; [apply issues_ret | apply issues_raise].
    + apply (issues_weaken _ 0); [lia|]. apply issues_if; [|apply issues_ret].
      apply (issues_bind _ 0 0); [now apply issues_modify | intros; apply issues_ret].
Qed.

Lemma media_retries_issues E vid audio_only max_retries remaining :
  forall st,
    issues_at_most (4 * remaining) (media_world st)
      (snd (media_retries E vid audio_only max_retries remaining st)).
Proof.
  induction remaining as [|k IH]; intros st; [now apply issues_at_most_same|].
  cbn [media_retries].
  pose proof (media_attempt_issues E vid audio_only st) as Hg.
  destruct (try_except (media_attempt E vid audio_only) media_handler st)
    as [[e|[| |r]] st1]; cbn [snd] in *.
  - eapply issues_at_most_weaken; [|exact Hg]. lia.
  - replace (4 * S k) with (4 + 4 * k) by lia.
    eapply issues_at_most_trans; [exact Hg|].
    match goal with |- context [media_retries _ _ _ _ k ?s0] => specialize (IH s0) end.
    destruct (_ <? _)%nat; exact IH.
  - eapply issues_at_most_weaken; [|exact Hg]. lia.
  - eapply issues_at_most_weaken; [|exact Hg]. lia.
Qed.

(** X30. Retry budgets.  Whatever the collaborator answers,
    [download_subtitles] issues at most two commands per attempt -- one
    for manual, one for auto captions -- hence at most
    [2 * max_retries] per language; and [download_media] issues at most
    four per attempt -- the regular download and the three rungs of the
    ladder -- hence at most [4 * max_retries] in all.  Sleeping between
    attempts issues nothing. *)
Theorem X30_retry_budgets :
  forall E vid,
    (forall languages max_retries w,
        issues_at_most (2 * max_retries * List.length languages) w
          (snd (download_subtitles E vid languages max_retries w))) /\
    (forall audio_only max_retries w,
        issues_at_most (4 * max_retries) w
          (snd (download_media E vid audio_only max_retries w))).
Proof.
  intros E vid. split.
  - intros languages max_retries w. unfold download_subtitles.
    match goal with
    | |- context [subtitle_languages_loop E vid languages max_retries ?r ?s0] =>
        pose proof (subtitle_languages_loop_issues E vid max_retries languages r s0) as H;
        destruct (subtitle_languages_loop E vid languages max_retries r s0) as [results st]
    end.
    exact H.
  - intros audio_only max_retries w. unfold download_media.
    exact (media_retries_issues E vid audio_only max_retries max_retries (media_start w)).
Qed.
